(** * lab10/planning.py: A* search, path reconstruction, obstacle projection
      and the replanning loop of the Cozmo planner.

    Python numbers are modelled by the rationals they stand for ([Q]).
    The sums of the search, on which its result depends, are formed by
    [py_add]: exactly for ints, rounded to the nearest binary64 value for
    floats.  The products and sums of the obstacle projection are exact;
    what is proved of the projection concerns the heading 0, where the
    float operations are exact as well, and coordinates that are computed
    twice from the same numbers, whatever they are rounded to.
    The functions of Python's math module are parameters.
    Dictionaries are [gmap]s, the priority queue is the list of its
    entries with [get] extracting a least entry in Python's tuple order,
    exceptions are values of [Exn], and every [while] loop takes a fuel
    argument. *)

From Stdlib Require Import ZArith QArith Qround Lqa Lia List ListDec String.
From Stdlib Require Import SpecFloat.
From stdpp Require Import base option list gmap.

Local Open Scope Z_scope.

(** ** Values *)

(** A grid cell: a pair of integer coordinates, a Python tuple [(x, y)]. *)
Abbreviation Cell := (Z * Z)%type.

(** A pair of Python floats, as [add_obstacle] hands them to the grid. *)
Abbreviation Coord := (Q * Q)%type.

(** The exceptions the module can raise. *)
Inductive Exn : Type :=
| NoPathFound        (* ValueError('No Path Found') *)
| IndexError         (* list index out of range *)
| KeyError           (* missing dictionary key *)
| RangeStepZero      (* ValueError: range() arg 3 must not be zero *)
| ZeroDivisionError
| TypeError.         (* Unsupported type for angle_z expected Angle *)

(** Outcome of a computation: a value, an exception, or a loop that used
    up its fuel. *)
Inductive Res (A : Type) : Type :=
| Return (a : A)
| Raise (e : Exn)
| OutOfFuel.

Arguments Return {A} a.
Arguments Raise {A} e.
Arguments OutOfFuel {A}.

Definition res_bind {A B} (m : Res A) (f : A -> Res B) : Res B :=
  match m with
  | Return a => f a
  | Raise e => Raise e
  | OutOfFuel => OutOfFuel
  end.

Definition res_map {A B} (f : A -> B) (m : Res A) : Res B :=
  res_bind m (fun a => Return (f a)).

Definition Qltb (a b : Q) : bool :=
  match (a ?= b)%Q with Lt => true | _ => false end.

(** ** Numbers *)

(** The numbers of a search, the weights of the edges and the estimates of
    the heuristic, are Python numbers of one kind: ints (or fractions),
    whose sums are exact, or floats, whose sums are rounded to the nearest
    binary64 value, ties to even.  The cost 0 the search starts from is an
    int, and the sum of an int and a float is a float. *)
Inductive Number : Type := PyInt | PyFloat.

(** The nearest integer, ties to even. *)
Definition round_half_even (t : Q) : Z :=
  let f := Qfloor t in
  match (t - inject_Z f ?= 1 # 2)%Q with
  | Lt => f
  | Gt => f + 1
  | Eq => if Z.even f then f else f + 1
  end.

(** The weight of the last of the 53 significant bits of [n] is
    [2 ^ sig_shift n]. *)
Definition sig_shift (n : Z) : Z := Z.max 0 (Z.log2 n - 52).

(** The nearest integer with at most 53 significant bits. *)
Definition round_sig (t : Q) : Z :=
  let j := sig_shift (Qfloor t) in
  round_half_even (t / inject_Z (2 ^ j)) * 2 ^ j.

(** The binary64 value nearest to [q].  The finite binary64 values are the
    multiples of [2 ^ -1074] with at most 53 significant bits below
    [2 ^ 1024]; [2 ^ 1024] itself stands for [inf], what a sum that
    overflows is rounded to (and [- 2 ^ 1024] for [-inf]). *)
Definition round64 (q : Q) : Q :=
  let r t := Qred (inject_Z (Z.min (2 ^ 2098)
                                    (round_sig (t * inject_Z (2 ^ 1074))))
                   / inject_Z (2 ^ 1074)) in
  if Qle_bool 0 q then r q else (- r (- q))%Q.

(** Python's [a + b] on two numbers of the kind [k]. *)
Definition py_add (k : Number) (a b : Q) : Q :=
  match k with
  | PyInt => (a + b)%Q
  | PyFloat => round64 (a + b)
  end.

(** The values a float can have that are not negative. *)
Definition double (c : Q) : Prop :=
  exists X : Z, (c == inject_Z X / inject_Z (2 ^ 1074))%Q /\
                0 <= X <= 2 ^ 2098 /\ (2 ^ sig_shift X | X).

Definition coord_eqb (a b : Coord) : bool :=
  Qeq_bool (fst a) (fst b) && Qeq_bool (snd a) (snd b).

Definition coord_eq (a b : Coord) : Prop :=
  (fst a == fst b)%Q /\ (snd a == snd b)%Q.

(** ** The grid collaborator *)

(** Modelled from the spec: the grid class CozGrid of grid.py, which is not
    among the sources.  It holds the start cell, the goal cells, the
    obstacle set, the visited trace, the stored path, the bounds and the
    scale factor (spec sections 3 and 6). *)
Record CozGrid : Type := mkGrid {
  width : Z;
  height : Z;
  scale : Z;
  getStart : Cell;
  getGoals : list Cell;
  obstacles : list Coord;
  visited : gset Cell;
  getPath : list Cell
}.

(** Modelled from the spec: addVisited, the diagnostic sink of the visited
    trace (a set of cells). *)
Definition addVisited (g : CozGrid) (c : Cell) : CozGrid :=
  mkGrid (width g) (height g) (scale g) (getStart g) (getGoals g)
         (obstacles g) ({[ c ]} ∪ visited g) (getPath g).

(** Modelled from the spec: setPath stores the computed path. *)
Definition setPath (g : CozGrid) (p : list Cell) : CozGrid :=
  mkGrid (width g) (height g) (scale g) (getStart g) (getGoals g)
         (obstacles g) (visited g) p.

(** Modelled from the spec: addObstacle is idempotent, adding a coordinate
    that is already obstructed is a no-op; nothing is ever removed. *)
Definition addObstacle (g : CozGrid) (c : Coord) : CozGrid :=
  if existsb (coord_eqb c) (obstacles g) then g
  else mkGrid (width g) (height g) (scale g) (getStart g) (getGoals g)
              (obstacles g ++ [c]) (visited g) (getPath g).

Definition setGoals (g : CozGrid) (gs : list Cell) : CozGrid :=
  mkGrid (width g) (height g) (scale g) (getStart g) gs
         (obstacles g) (visited g) (getPath g).

(** ** The priority queue *)

(** An entry [(priority, cell)] of the frontier. *)
Abbreviation Entry := (Q * (Z * Z))%type.

(** Python's order on the cells, tuples of two integers. *)
Definition cell_leb (a b : Cell) : bool :=
  (fst a <? fst b) || ((fst a =? fst b) && (snd a <=? snd b)).

(** Python's order on the entries: the priority first, the cell on a tie. *)
Definition entry_leb (e1 e2 : Entry) : bool :=
  match (fst e1 ?= fst e2)%Q with
  | Lt => true
  | Eq => cell_leb (snd e1) (snd e2)
  | Gt => false
  end.

(** [PriorityQueue.put]. *)
Definition put (e : Entry) (f : list Entry) : list Entry := e :: f.

(** [PriorityQueue.get] on a queue that may be empty: a least entry and the
    queue without it, [None] on the empty queue. *)
Fixpoint get (f : list Entry) : option (Entry * list Entry) :=
  match f with
  | [] => None
  | e :: f' =>
      match get f' with
      | None => Some (e, [])
      | Some (m, rest) =>
          if entry_leb e m then Some (e, f') else Some (m, e :: rest)
      end
  end.

(** ** reconstruct_path *)

(** The [while current != start] loop.  [current] is [None] once the
    chain has run into the [None] stored for the start cell. *)
Fixpoint reconstruct_loop (fuel : nat) (came_from : gmap Cell (option Cell))
    (start : Cell) (current : option Cell) (path : list Cell)
  : Res (list Cell) :=
  match fuel with
  | O => OutOfFuel
  | S fuel' =>
      if decide (current = Some start) then Return (rev (path ++ [start]))
      else
        match current with
        | None => Raise KeyError
        | Some c =>
            match came_from !! c with
            | None => Raise KeyError
            | Some prev => reconstruct_loop fuel' came_from start prev (path ++ [c])
            end
        end
  end.

Definition reconstruct_path (fuel : nat) (came_from : gmap Cell (option Cell))
    (start goal : Cell) : Res (list Cell) :=
  reconstruct_loop fuel came_from start (Some goal) [].

(** ** astar *)

(** The search state of one invocation, with the grid it writes its trace
    to. *)
Record SearchState : Type := mkState {
  frontier : list Entry;
  came_from : gmap Cell (option Cell);
  cost_so_far : gmap Cell Q;
  sgrid : CozGrid
}.

Section Search.

(** The kind of the numbers the grid and the heuristic hand out. *)
Variable num : Number.

(** Modelled from the spec: the neighbour query of the grid, which reads
    the bounds and the obstacle set of the grid and yields the weighted
    edges leaving a cell. *)
Variable neighbors_of : Z -> Z -> list Coord -> Cell -> list (Cell * Q).

Definition getNeighbors (g : CozGrid) (c : Cell) : list (Cell * Q) :=
  neighbors_of (width g) (height g) (obstacles g) c.

Variable heuristic : Cell -> Cell -> Q.

(** The state before the loop. *)
Definition init_state (g : CozGrid) (start_pose : Cell) : SearchState :=
  mkState (put (0%Q, start_pose) [])
          (<[start_pose := None]> ∅)
          (<[start_pose := 0%Q]> ∅)
          g.

(** One pass of the body of [for next in grid.getNeighbors(current)]. *)
Definition relax (goal_pose current : Cell) (st : SearchState)
    (next : Cell * Q) : Res SearchState :=
  let next_pose := fst next in
  let next_weight := snd next in
  match cost_so_far st !! current with
  | None => Raise KeyError
  | Some cost_current =>
      let new_cost := py_add num cost_current next_weight in
      if match cost_so_far st !! next_pose with
         | None => true
         | Some old => Qltb new_cost old
         end
      then
        let priority := py_add num new_cost (heuristic next_pose goal_pose) in
        Return (mkState (put (priority, next_pose) (frontier st))
                        (<[next_pose := Some current]> (came_from st))
                        (<[next_pose := new_cost]> (cost_so_far st))
                        (sgrid st))
      else Return st
  end.

(** The whole [for] loop over the neighbours of [current]. *)
Fixpoint relax_all (goal_pose current : Cell) (st : SearchState)
    (ns : list (Cell * Q)) : Res SearchState :=
  match ns with
  | [] => Return st
  | n :: ns' =>
      match relax goal_pose current st n with
      | Return st' => relax_all goal_pose current st' ns'
      | Raise e => Raise e
      | OutOfFuel => OutOfFuel
      end
  end.

(** The [while not frontier.empty()] loop and the [raise] after it. *)
Fixpoint astar_loop (fuel : nat) (start_pose goal_pose : Cell)
    (st : SearchState) : Res CozGrid :=
  match fuel with
  | O => OutOfFuel
  | S fuel' =>
      match get (frontier st) with
      | None => Raise NoPathFound
      | Some (e, rest) =>
          let current := snd e in
          let st1 := mkState rest (came_from st) (cost_so_far st)
                             (addVisited (sgrid st) current) in
          if decide (current = goal_pose) then
            match reconstruct_path fuel' (came_from st1) start_pose goal_pose with
            | Return path => Return (setPath (sgrid st1) path)
            | Raise e => Raise e
            | OutOfFuel => OutOfFuel
            end
          else
            match relax_all goal_pose current st1
                            (getNeighbors (sgrid st1) current) with
            | Return st2 => astar_loop fuel' start_pose goal_pose st2
            | Raise e => Raise e
            | OutOfFuel => OutOfFuel
            end
      end
  end.

(** [astar(grid, heuristic)]: the grid with the path and the visited
    trace written back, or the exception raised.  An exception is not
    caught anywhere in the module, so the grid it leaves behind is not
    kept.  The fuel left by the search loop is the fuel of the loop of
    [reconstruct_path]. *)
Definition astar (fuel : nat) (g : CozGrid) : Res CozGrid :=
  let start_pose := getStart g in
  match getGoals g with
  | [] => Raise IndexError
  | goal_pose :: _ =>
      astar_loop fuel start_pose goal_pose (init_state g start_pose)
  end.

(** The search state at the head of the loop after [k] whole passes of
    it, when the search makes that many. *)
Fixpoint loop_head (k : nat) (goal_pose : Cell) (st : SearchState)
  : option SearchState :=
  match k with
  | O => Some st
  | S k' =>
      match get (frontier st) with
      | None => None
      | Some (e, rest) =>
          let current := snd e in
          let st1 := mkState rest (came_from st) (cost_so_far st)
                             (addVisited (sgrid st) current) in
          if decide (current = goal_pose) then None
          else
            match relax_all goal_pose current st1
                            (getNeighbors (sgrid st1) current) with
            | Return st2 => loop_head k' goal_pose st2
            | _ => None
            end
      end
  end.

End Search.

(** ** Obstacle projection *)

(** Python's [range(lo, hi, step)]; [None] stands for the ValueError of a
    zero step. *)
Definition py_range (lo hi step : Z) : option (list Z) :=
  if step =? 0 then None
  else
    let n := if 0 <? step then (hi - lo + step - 1) / step
             else (lo - hi - step - 1) / (- step) in
    Some (map (fun i => lo + Z.of_nat i * step) (seq 0 (Z.to_nat n))).

Inductive CubeId : Type := LightCube1Id | LightCube2Id | LightCube3Id.

(** What the planner reads of an observed cube: its identity, the position
    of its pose and [pose.rotation.angle_z.degrees]. *)
Record LightCube : Type := mkCube {
  cube_id : CubeId;
  pose_x : Q;
  pose_y : Q;
  angle_z_degrees : Q
}.

Section Projection.

(** Python's math.radians, math.cos and math.sin, on floats. *)
Variables math_radians math_cos math_sin : Q -> Q.

Definition rotate_point (x y : Q) (heading_deg : Q) : Q * Q :=
  let c := math_cos (math_radians heading_deg) in
  let s := math_sin (math_radians heading_deg) in
  let xr := (x * c + y * - s)%Q in
  let yr := (x * s + y * c)%Q in
  (xr, yr).

(** The coordinates [add_obstacle] passes to [grid.addObstacle], in the
    order of the two nested loops. *)
Definition obstacle_coords (scale : Z) (cube : LightCube) (r : list Z)
  : list Coord :=
  flat_map (fun x =>
    map (fun y =>
      let p := rotate_point (inject_Z x) (inject_Z y) (angle_z_degrees cube) in
      ((pose_x cube + fst p) / inject_Z scale,
       (pose_y cube + snd p) / inject_Z scale)%Q) r) r.

Definition add_obstacle (grid : CozGrid) (cube : LightCube) : Res CozGrid :=
  let cube_size := 50 in
  match py_range (- cube_size) (cube_size + 1) (scale grid) with
  | None => Raise RangeStepZero
  | Some r => Return (fold_left addObstacle (obstacle_coords (scale grid) cube r) grid)
  end.

(** The coordinate [get_goal] computes: the offset [(0, -cube_size)]
    rotated by the heading of the cube, translated and scaled. *)
Definition goal_coord (scale : Z) (cube : LightCube) : Coord :=
  let cube_size := 50 in
  let p := rotate_point 0 (inject_Z (- cube_size)) (angle_z_degrees cube) in
  ((pose_x cube + fst p) / inject_Z scale,
   (pose_y cube + snd p) / inject_Z scale)%Q.

Definition get_goal (grid : CozGrid) (cube : LightCube) : Res CozGrid :=
  if scale grid =? 0 then Raise ZeroDivisionError
  else Return (addObstacle grid (goal_coord (scale grid) cube)).

End Projection.

(** ** The behaviour loop *)

Inductive Light : Type := blue_light | red_light.

(** The value of [degree] at line 125: the integer 0, or the [Angle] that
    [degrees(math.atan(y / x))] makes. *)
Inductive AngleZ : Type :=
| int_zero
| degrees (a : Q).

(** A pose of the SDK: a position and the angle about the z axis, in
    degrees. *)
Record PoseValue : Type := mkPose {
  position_x : Z;
  position_y : Z;
  position_z : Z;
  rotation_angle_z : Q
}.

(** [cozmo.util.Pose(x, y, z, angle_z=...)] of the SDK: the rotation of the
    pose is built from [angle_z], which has to be an [Angle]; for any other
    value, the integer 0 among them, the constructor raises TypeError. *)
Definition Pose (x y z : Z) (angle_z : AngleZ) : Res PoseValue :=
  match angle_z with
  | int_zero => Raise TypeError
  | degrees a => Return (mkPose x y z a)
  end.

(** The calls made on the robot and on the cubes, in the order they are
    made. *)
Inductive Command : Type :=
| say_text (text : string)
| set_lights (cube : CubeId) (light : Light)
| turn_in_place (angle_degrees : Z)
| go_to_pose (pose : PoseValue).

(** Local variables of [cozmoBehavior] and the global grid. *)
Record LoopState : Type := mkLoop {
  grid : CozGrid;
  path_index : nat;
  path : list Cell;
  found_goal : bool
}.

(** How the body of the [while] loop is left: at its end, or by [break]. *)
Inductive Flow : Type :=
| Next (st : LoopState)
| Break (st : LoopState).

(** Commands issued so far, and the outcome. *)
Definition M (A : Type) : Type := list Command * Res A.

Definition ret {A} (a : A) : M A := ([], Return a).

Definition bind {A B} (m : M A) (f : A -> M B) : M B :=
  match snd m with
  | Return a => let r := f a in (fst m ++ fst r, snd r)
  | Raise e => (fst m, Raise e)
  | OutOfFuel => (fst m, OutOfFuel)
  end.

Definition emit (c : Command) : M unit := ([c], Return tt).

Definition lift {A} (r : Res A) : M A := ([], r).

Notation "x <- m ;; k" := (bind m (fun x => k))
  (at level 100, m at next level, right associativity).
Notation "m ;;; k" := (bind m (fun _ => k))
  (at level 100, right associativity).

(** The obstacle observer, modelled from the spec: a poll yields a newly
    observed cube or nothing. *)
Definition search_cube (observed : option LightCube) : M (option LightCube) :=
  emit (say_text "searching") ;;;
  match observed with
  | Some cube => emit (say_text "Found a Cube") ;;; ret (Some cube)
  | None => ret None
  end.

Section Behavior.

Variable num : Number.
Variable neighbors_of : Z -> Z -> list Coord -> Cell -> list (Cell * Q).
Variables math_sqrt math_atan math_radians math_cos math_sin : Q -> Q.

Definition heuristic (current goal : Cell) : Q :=
  let '(current_x, current_y) := current in
  let '(goal_x, goal_y) := goal in
  math_sqrt (inject_Z ((current_x - goal_x) ^ 2 + (current_y - goal_y) ^ 2)).

(** Lines 96 to 112: poll the observer; on a sighting register the cube,
    classify it and search again. *)
Definition observe (fuel : nat) (observed : option LightCube)
    (st : LoopState) : M LoopState :=
  new_cube <- search_cube observed ;;
  match new_cube with
  | None => ret st
  | Some cube =>
      g1 <- lift (add_obstacle math_radians math_cos math_sin (grid st) cube) ;;
      gf <- match cube_id cube with
            | LightCube1Id =>
                emit (set_lights (cube_id cube) blue_light) ;;;
                emit (say_text "Found the Goal") ;;;
                g2 <- lift (get_goal math_radians math_cos math_sin g1 cube) ;;
                ret (g2, true)
            | _ =>
                emit (set_lights (cube_id cube) red_light) ;;;
                emit (say_text "Found an Obstacle") ;;;
                ret (g1, found_goal st)
            end ;;
      emit (say_text "Replanning") ;;;
      g3 <- lift (astar num neighbors_of heuristic fuel (fst gf)) ;;
      ret (mkLoop g3 0 (getPath g3) (snd gf))
  end.

(** Lines 114 to 119: the test of the end of the path. *)
Definition arrival (st : LoopState) : M Flow :=
  if (length (path st) <=? path_index st)%nat then
    if negb (found_goal st) then
      emit (turn_in_place 30) ;;; ret (Next st)
    else
      emit (say_text "Arrived") ;;; ret (Break st)
  else ret (Next st).

(** Lines 121 to 126: the move toward the next waypoint.  The pose is
    built before [go_to_pose] is called, so that nothing is sent to the
    robot when its constructor raises. *)
Definition follow (st : LoopState) : M LoopState :=
  match getPath (grid st) !! path_index st with
  | None => lift (Raise IndexError)
  | Some current_cell =>
      match getPath (grid st) !! (path_index st + 1)%nat with
      | None => lift (Raise IndexError)
      | Some next_cell =>
          let current_pose := fst current_cell in
          let next_pose := fst next_cell in
          let x := (next_pose - current_pose) * scale (grid st) in
          let y := (next_pose - current_pose) * scale (grid st) in
          let degree := if x =? 0 then int_zero
                        else degrees (math_atan (inject_Z y / inject_Z x)) in
          pose <- lift (Pose x y 0 degree) ;;
          emit (go_to_pose pose) ;;; ret st
      end
  end.

(** One pass of the body of [while not stopevent.is_set()]. *)
Definition loop_body (fuel : nat) (observed : option LightCube)
    (st : LoopState) : M Flow :=
  st1 <- observe fuel observed st ;;
  fl <- arrival st1 ;;
  match fl with
  | Break st2 => ret (Break st2)
  | Next st2 => st3 <- follow st2 ;; ret (Next st3)
  end.

(** The loop, one observation per pass; the stop event is set when the
    observations run out. *)
Fixpoint run_loop (fuel : nat) (observations : list (option LightCube))
    (st : LoopState) : M LoopState :=
  match observations with
  | [] => ret st
  | observed :: rest =>
      fl <- loop_body fuel observed st ;;
      match fl with
      | Break st' => ret st'
      | Next st' => run_loop fuel rest st'
      end
  end.

(** [cozmoBehavior] up to the final [stopevent.wait()]. *)
Definition cozmoBehavior (fuel : nat) (observations : list (option LightCube))
    (grid0 : CozGrid) : M LoopState :=
  g <- lift (astar num neighbors_of heuristic fuel grid0) ;;
  emit (say_text "Game is on") ;;;
  run_loop fuel observations (mkLoop g 0 (getPath g) false).

End Behavior.

(** ** A concrete grid for the examples: four-connected, unit weights *)

Definition in_bounds (w h : Z) (c : Cell) : bool :=
  (0 <=? fst c) && (fst c <? w) && (0 <=? snd c) && (snd c <? h).

Definition cell_coord (c : Cell) : Coord := (inject_Z (fst c), inject_Z (snd c)).

Definition grid4 (w h : Z) (obs : list Coord) (c : Cell) : list (Cell * Q) :=
  let cand := [(fst c + 1, snd c); (fst c - 1, snd c);
               (fst c, snd c + 1); (fst c, snd c - 1)] in
  map (fun n => (n, 1%Q))
      (List.filter (fun n => in_bounds w h n
                           && negb (existsb (coord_eqb (cell_coord n)) obs)) cand).

Definition zero_heuristic (_ _ : Cell) : Q := 0%Q.

Definition grid3x3 : CozGrid :=
  mkGrid 3 3 25 (0, 0) [(2, 2)] [] ∅ [].

(** The second and third scenario of the spec: two obstacles to route
    around, and the goal cell itself an obstacle. *)
Definition scenario2 : CozGrid :=
  mkGrid 3 3 25 (0, 0) [(2, 2)] [(1, 1)%Q; (0, 1)%Q] ∅ [].

Definition scenario3 : CozGrid :=
  mkGrid 3 3 25 (0, 0) [(2, 2)] [(2, 2)%Q] ∅ [].

(** Rational stand-ins for the functions of Python's math module in the
    examples.  The trigonometric ones are exact at 0, the heading of the
    cubes of the examples; the root is rounded down to a whole number,
    which is exact at the squares and never above the root; the arc
    tangent is exact at 0 and at 1, the one quotient [follow] forms, where
    it is the binary64 value of [math.atan(1.0)]. *)
Definition approx_radians (d : Q) : Q := (d * (355 # 113) / 180)%Q.
Definition approx_cos (r : Q) : Q := (1 - r * r / 2)%Q.
Definition approx_sin (r : Q) : Q := r.
Definition approx_sqrt (q : Q) : Q := inject_Z (Z.sqrt (Qfloor q)).
Definition approx_atan (q : Q) : Q :=
  if Qeq_bool q 1 then 7074237752028440 # 9007199254740992 else q.

(** Three cells in a row with a direct edge of weight 10 from the first to
    the last and two edges of weight 1 through the middle, and a heuristic
    that is negative at the last cell. *)
Definition detour (w h : Z) (obs : list Coord) (c : Cell) : list (Cell * Q) :=
  if decide (c = (0, 0)) then [((2, 0), 10%Q); ((1, 0), 1%Q)]
  else if decide (c = (1, 0)) then [((2, 0), 1%Q)]
  else [].

Definition eager_heuristic (c goal : Cell) : Q :=
  if decide (c = (2, 0)) then (- (100))%Q else 0%Q.

Definition row3 : CozGrid := mkGrid 3 1 25 (0, 0) [(2, 0)] [] ∅ [].

(** Four cells in a square with float weights: the way to the far corner
    through [(1, 0)] costs [1 + 2 ^ 53], the way through [(0, 1)] costs
    [2 + (2 ^ 53 - 2)]. *)
Definition lopsided (w h : Z) (obs : list Coord) (c : Cell) : list (Cell * Q) :=
  if decide (c = (0, 0)) then [((1, 0), 1%Q); ((0, 1), 2%Q)]
  else if decide (c = (1, 0)) then [((1, 1), inject_Z (2 ^ 53))]
  else if decide (c = (0, 1)) then [((1, 1), inject_Z (2 ^ 53 - 2))]
  else [].

Definition square2 : CozGrid := mkGrid 2 2 25 (0, 0) [(1, 1)] [] ∅ [].

(** The state of the search on [detour] at the head of its second pass,
    and the state its one relaxation leaves. *)
Definition detour_second_pass : SearchState :=
  Eval vm_compute in
    default (init_state row3 (0, 0))
            (loop_head PyInt detour zero_heuristic 1 (2, 0)
                       (init_state row3 (0, 0))).

Definition detour_relaxed : SearchState :=
  Eval vm_compute in
    match relax PyInt zero_heuristic (2, 0) (1, 0)
                (mkState [(10%Q, (2, 0))] (came_from detour_second_pass)
                         (cost_so_far detour_second_pass)
                         (addVisited (sgrid detour_second_pass) (1, 0)))
                ((2, 0), 1%Q) with
    | Return st => st
    | _ => detour_second_pass
    end.

(** The two ways to the far corner of [lopsided], and the two ways to the
    last cell of [detour]. *)
Definition way_kept : list (Cell * Q) :=
  [((1, 0), 1%Q); ((1, 1), inject_Z (2 ^ 53))].

Definition way_missed : list (Cell * Q) :=
  [((0, 1), 2%Q); ((1, 1), inject_Z (2 ^ 53 - 2))].

Definition edge_kept : list (Cell * Q) := [((2, 0), 10%Q)].

Definition middle_missed : list (Cell * Q) := [((1, 0), 1%Q); ((2, 0), 1%Q)].

(** The rational a finite binary64 value of the Standard Library stands
    for. *)
Definition double_value (f : spec_float) : Q :=
  match f with
  | S754_finite s m e =>
      let v := (inject_Z (Zpos m) * Qpower 2 e)%Q in if s then (- v)%Q else v
  | _ => 0%Q
  end.

(** The state in which [cozmoBehavior] enters its loop on the grid [g]:
    the grid as the first search leaves it, the index 0, the path of the
    grid, and no goal found. *)
Definition loop_entry (g : CozGrid) : LoopState :=
  match astar PyFloat grid4 (heuristic approx_sqrt) 100 g with
  | Return g' => mkLoop g' 0 (getPath g') false
  | _ => mkLoop g 0 [] false
  end.

Definition following_row3 : LoopState := Eval vm_compute in loop_entry row3.

(** A ten by ten grid, the state of the loop after a first search on
    it, and a cube whose footprint lies in a corner of it. *)
Definition grid10 : CozGrid :=
  mkGrid 10 10 25 (0, 0) [(0, 3)] [] ∅ [].

Definition following10 : LoopState :=
  mkLoop (setPath grid10 [(0, 0); (0, 1); (0, 2); (0, 3)]) 0
         [(0, 0); (0, 1); (0, 2); (0, 3)] false.

(** A ten by ten grid whose goal lies three cells along the first
    axis, and the state of the loop after a first search on it. *)
Definition lane10 : CozGrid :=
  mkGrid 10 10 25 (0, 0) [(3, 0)] [] ∅ [].

Definition following_lane10 : LoopState := Eval vm_compute in loop_entry lane10.

Definition corner_cube : LightCube := mkCube LightCube2Id 200 200 0.

Definition marker_cube : LightCube := mkCube LightCube1Id 200 200 0.

Definition is_move (c : Command) : Prop :=
  match c with go_to_pose _ => True | _ => False end.

(** The square block of cells of radius [r] around [(cx, cy)], column by
    column. *)
Definition block (cx cy : Z) (r : nat) : list Cell :=
  let offs := map (fun i => Z.of_nat i - Z.of_nat r) (seq 0 (2 * r + 1)) in
  flat_map (fun dx => map (fun dy => (cx + dx, cy + dy)) offs) offs.

(** The obstacle set after one more coordinate, as [addObstacle] leaves
    it. *)
Definition add_coord (l : list Coord) (c : Coord) : list Coord :=
  if existsb (coord_eqb c) l then l else l ++ [c].

(** ** Paths in the grid, and what the search keeps true *)

Section Graph.

(** The neighbour query of the grid the search runs on. *)
Variable nbrs : Cell -> list (Cell * Q).

(** [walk u steps t]: the weighted edges [steps], taken one after the
    other from [u], lead to [t]. *)
Inductive walk : Cell -> list (Cell * Q) -> Cell -> Prop :=
| walk_nil u : walk u [] u
| walk_cons u e steps t :
    e ∈ nbrs u -> walk (fst e) steps t -> walk u (e :: steps) t.

(** The total cost of a walk under the edge weights. *)
Definition walk_cost (steps : list (Cell * Q)) : Q :=
  fold_right (fun e acc => (snd e + acc)%Q) 0%Q steps.

Definition reachable (u t : Cell) : Prop := exists steps, walk u steps t.

(** The heuristic never overestimates the cost that remains to [goal]. *)
Definition admissible (heuristic : Cell -> Cell -> Q) (goal : Cell) : Prop :=
  forall u steps, walk u steps goal -> (heuristic u goal <= walk_cost steps)%Q.

(** The grid is finite: [cells] holds the start cell and every neighbour
    of its cells, and no edge weight is negative. *)
Definition finite_grid (start : Cell) (cells : list Cell) : Prop :=
  start ∈ cells /\
  forall c e, c ∈ cells -> e ∈ nbrs c -> fst e ∈ cells /\ (0 <= snd e)%Q.

(** The cells of a path as [reconstruct_path] returns them. *)
Definition path_cells (start : Cell) (steps : list (Cell * Q)) : list Cell :=
  start :: map fst steps.

Variable h : Cell -> Q.
Variables start goal : Cell.
Variable cells : list Cell.

(** [chain cf cost n steps]: following the predecessors [cf] back from [n]
    reaches [start], along the edges [steps] read from the start, and the
    recorded costs pay for every edge. *)
Inductive chain (cf : gmap Cell (option Cell)) (cost : gmap Cell Q)
  : Cell -> list (Cell * Q) -> Prop :=
| chain_start : chain cf cost start []
| chain_step n p w steps cp c :
    n <> start ->
    cf !! n = Some (Some p) ->
    cost !! p = Some cp ->
    cost !! n = Some c ->
    (n, w) ∈ nbrs p ->
    (cp + w <= c)%Q ->
    chain cf cost p steps ->
    chain cf cost n (steps ++ [(n, w)]).

(** A common denominator of the edge weights of the grid. *)
Definition weight_den : Z :=
  fold_right (fun c acc =>
    fold_right (fun e acc' => Zpos (Qden (snd e)) * acc') acc (nbrs c)) 1 cells.

Definition scaled (c : Q) : nat :=
  Z.to_nat (Qfloor (c * inject_Z weight_den)).

Definition sum_cells (f : Cell -> nat) : nat := sum_list (map f cells).

(** The cells not discovered yet, and the sum of the recorded costs. *)
Definition undiscovered (cost : gmap Cell Q) : nat :=
  sum_cells (fun n => match cost !! n with Some _ => 0 | None => 1 end)%nat.

Definition total_cost (cost : gmap Cell Q) : nat :=
  sum_cells (fun n => match cost !! n with Some c => scaled c | None => 0 end)%nat.

(** The order the loop descends along. *)
Definition lex2 (a b : nat * nat) : Prop :=
  (fst a < fst b)%nat \/ (fst a = fst b /\ (snd a < snd b)%nat).

Definition lex3 (a b : nat * nat * nat) : Prop :=
  lex2 (fst a) (fst b) \/ (fst a = fst b /\ (snd a < snd b)%nat).

Definition cost_measure (st : SearchState) : nat * nat :=
  (undiscovered (cost_so_far st), total_cost (cost_so_far st)).

Definition loop_measure (st : SearchState) : nat * nat * nat :=
  (cost_measure st, length (frontier st)).

(** What holds of the search state at every point of the loop. *)
Record Inv (st : SearchState) : Prop := mkInv {
  inv_start : cost_so_far st !! start = Some 0%Q;
  inv_nonneg : forall n c, cost_so_far st !! n = Some c -> (0 <= c)%Q;
  inv_chain : forall n c, cost_so_far st !! n = Some c ->
    exists steps, chain (came_from st) (cost_so_far st) n steps;
  inv_frontier : forall p n, (p, n) ∈ frontier st ->
    exists c, cost_so_far st !! n = Some c /\ (n = start \/ (c + h n <= p)%Q);
  inv_goal : forall c, cost_so_far st !! goal = Some c ->
    exists p, (p, goal) ∈ frontier st;
  inv_cells : forall n c, cost_so_far st !! n = Some c -> n ∈ cells;
  inv_scaled : forall n c, cost_so_far st !! n = Some c ->
    exists z : Z, (c * inject_Z weight_den == inject_Z z)%Q
}.

(** A discovered cell is open when the frontier holds an entry for it that
    is priced by its present cost, and relaxed when every edge leaving it
    has been taken into account. *)
Definition is_open (st : SearchState) (u : Cell) (cu : Q) : Prop :=
  exists p, (p, u) ∈ frontier st /\
            ((p <= cu + h u)%Q \/ (u = start /\ (p <= 0)%Q)).

Definition is_relaxed (st : SearchState) (u : Cell) (cu : Q) : Prop :=
  forall v w, (v, w) ∈ nbrs u ->
    exists cv, cost_so_far st !! v = Some cv /\ (cv <= cu + w)%Q.

(** At the head of the loop every discovered cell is open or relaxed;
    in the middle of a pass the popped cell [cur] is the one exception. *)
Definition settled (st : SearchState) : Prop :=
  forall u cu, cost_so_far st !! u = Some cu ->
    is_open st u cu \/ is_relaxed st u cu.

Definition settled_but (cur : Cell) (st : SearchState) : Prop :=
  forall u cu, cost_so_far st !! u = Some cu ->
    is_open st u cu \/ is_relaxed st u cu \/ u = cur.

(** The search state in the middle of a pass: [cur] has been popped with
    cost [cc], and the edges [done] leaving it have been relaxed. *)
Definition mid_pass (cur : Cell) (cc : Q) (done : list (Cell * Q))
    (st : SearchState) : Prop :=
  Inv st /\
  cost_so_far st !! cur = Some cc /\
  settled_but cur st /\
  forall e, e ∈ done ->
    exists cv, cost_so_far st !! fst e = Some cv /\ (cv <= cc + snd e)%Q.

End Graph.

(** The loop of [reconstruct_path] never returns: whatever the fuel, it
    is used up. *)
Definition never_returns (came_from : gmap Cell (option Cell))
    (start goal : Cell) : Prop :=
  forall fuel, reconstruct_path fuel came_from start goal = OutOfFuel.

(** The [n]-th predecessor of [current]. *)
Fixpoint pred_iter (came_from : gmap Cell (option Cell)) (n : nat)
    (current : option Cell) : option (option Cell) :=
  match n with
  | O => Some current
  | S n' =>
      match current with
      | None => None
      | Some c =>
          match came_from !! c with
          | None => None
          | Some prev => pred_iter came_from n' prev
          end
      end
  end.

(** The search state with its grid changed by [f]. *)
Definition map_grid (f : CozGrid -> CozGrid) (st : SearchState) : SearchState :=
  mkState (frontier st) (came_from st) (cost_so_far st) (f (sgrid st)).

(** The three by three grid with a second goal next to the start. *)
Definition grid3x3_two_goals : CozGrid := setGoals grid3x3 [(2, 2); (0, 1)].

(** [hits cf start cur m l]: the loop of [reconstruct_path], entered with
    [current = cur], runs its body [m] times, on the cells [l], and then
    finds [current = start]. *)
Inductive hits (cf : gmap Cell (option Cell)) (start : Cell)
  : option Cell -> nat -> list Cell -> Prop :=
| hits_start : hits cf start (Some start) 0 []
| hits_step c prev m l :
    c <> start ->
    cf !! c = Some prev ->
    hits cf start prev m l ->
    hits cf start (Some c) (S m) (c :: l).

(** A predecessor map with a cycle that does not hold the start cell. *)
Definition cyclic_map : gmap Cell (option Cell) :=
  <[(1, 1) := Some (2, 2)]> (<[(2, 2) := Some (1, 1)]> ∅).

(** A predecessor map whose chain from [(0, 2)] ends at [(0, 1)], which
    is no key of it. *)
Definition broken_map : gmap Cell (option Cell) :=
  <[(0, 2) := Some (0, 1)]> ∅.

(** A predecessor map as the search leaves it. *)
Definition straight_map : gmap Cell (option Cell) :=
  <[(0, 2) := Some (0, 1)]> (<[(0, 1) := Some (0, 0)]> (<[(0, 0) := None]> ∅)).

(** The state a relaxation leaves when it records the cost [cc + snd e]
    for the cell of the edge [e] leaving [cur]. *)
Definition improve (heuristic : Cell -> Cell -> Q) (goal cur : Cell) (cc : Q)
    (e : Cell * Q) (st : SearchState) : SearchState :=
  mkState (put ((cc + snd e + heuristic (fst e) goal)%Q, fst e) (frontier st))
          (<[fst e := Some cur]> (came_from st))
          (<[fst e := (cc + snd e)%Q]> (cost_so_far st))
          (sgrid st).

Definition cell_eqb (a b : Cell) : bool :=
  (fst a =? fst b) && (snd a =? snd b).

(** A test of [finite_grid] that can be run. *)
Definition finite_grid_check (nbrs : Cell -> list (Cell * Q)) (start : Cell)
    (cells : list Cell) : bool :=
  existsb (cell_eqb start) cells &&
  forallb (fun c =>
    forallb (fun e => existsb (cell_eqb (fst e)) cells && Qle_bool 0 (snd e))
            (nbrs c)) cells.

(** The three by three grid with its goal walled off by two obstacles. *)
Definition walled3x3 : CozGrid :=
  mkGrid 3 3 25 (0, 0) [(2, 2)] [(1, 2)%Q; (2, 1)%Q] ∅ [].

(** ** Further notions for the properties beyond the claims *)

(** The parts of the grid that the search leaves alone. *)
Definition same_world (g g' : CozGrid) : Prop :=
  width g' = width g /\ height g' = height g /\ scale g' = scale g /\
  getStart g' = getStart g /\ getGoals g' = getGoals g /\
  obstacles g' = obstacles g.

(** [g'] is [g] with more obstacles: nothing else differs, and no
    obstacle of [g] is gone. *)
Definition more_obstacles (g g' : CozGrid) : Prop :=
  width g' = width g /\ height g' = height g /\ scale g' = scale g /\
  getStart g' = getStart g /\ getGoals g' = getGoals g /\
  visited g' = visited g /\ getPath g' = getPath g /\
  exists more, obstacles g' = obstacles g ++ more.

(** [g'] is [g] after sightings and searches: same bounds, scale, start
    and goals, no obstacle and no visited cell gone. *)
Definition grows (g g' : CozGrid) : Prop :=
  width g' = width g /\ height g' = height g /\ scale g' = scale g /\
  getStart g' = getStart g /\ getGoals g' = getGoals g /\
  (exists more, obstacles g' = obstacles g ++ more) /\
  visited g ⊆ visited g'.

Section Linked.

Variable nbrs : Cell -> list (Cell * Q).
Variable start : Cell.

(** What the dictionaries of the search satisfy whatever the weights and
    the heuristic are: every cell of the frontier has a cost, every cell
    with a cost has a predecessor entry, a predecessor is a cell with a
    cost from which an edge leads to the cell, and every cell with a cost
    can be reached from the start. *)
Record Linked (st : SearchState) : Prop := mkLinked {
  lk_frontier : forall p n, (p, n) ∈ frontier st -> is_Some (cost_so_far st !! n);
  lk_dom : forall n, is_Some (cost_so_far st !! n) -> is_Some (came_from st !! n);
  lk_pred : forall n v, came_from st !! n = Some v ->
    (v = None /\ n = start) \/
    exists p w, v = Some p /\ (n, w) ∈ nbrs p /\ is_Some (cost_so_far st !! p);
  lk_reach : forall n, is_Some (cost_so_far st !! n) -> reachable nbrs start n
}.

End Linked.

(** A command other than the announcement of the arrival and the turn
    in place. *)
Definition quiet (c : Command) : Prop :=
  match c with
  | say_text t => t <> "Arrived"%string
  | turn_in_place _ => False
  | _ => True
  end.

(** The state of the loop after a search: the local path is the path of
    the grid, it is not empty, and the index is 0. *)
Definition planned (st : LoopState) : Prop :=
  path st = getPath (grid st) /\ path_index st = 0%nat /\ path st <> [].

(** The three by three grid with the robot on its goal. *)
Definition on_goal3x3 : CozGrid := mkGrid 3 3 25 (0, 0) [(0, 0)] [] ∅ [].

(** ** What the search keeps true with rounded sums *)

(** The unit of the costs a search stores: one over the common denominator
    of the weights for ints, the least positive binary64 value for
    floats. *)
Definition cost_den (num : Number) (nbrs : Cell -> list (Cell * Q))
    (cells : list Cell) : Z :=
  match num with
  | PyInt => weight_den nbrs cells
  | PyFloat => 2 ^ 1074
  end.

(** A cost the search can have stored: it is not negative, and it is a
    whole multiple of the unit for ints, a binary64 value for floats. *)
Definition storable (num : Number) (nbrs : Cell -> list (Cell * Q))
    (cells : list Cell) (c : Q) : Prop :=
  (0 <= c)%Q /\
  match num with
  | PyInt => exists z : Z, (c * inject_Z (weight_den nbrs cells) == inject_Z z)%Q
  | PyFloat => double c
  end.

(** A cost in units, and the sum of the stored costs in units. *)
Definition ticks (D : Z) (c : Q) : nat := Z.to_nat (Qfloor (c * inject_Z D)).

Definition cost_ticks (D : Z) (cells : list Cell) (cost : gmap Cell Q) : nat :=
  sum_cells cells
    (fun n => match cost !! n with Some c => ticks D c | None => 0%nat end).

(** The order the loop descends along, for either kind of number. *)
Definition run_measure (D : Z) (cells : list Cell) (st : SearchState)
  : nat * nat * nat :=
  ((undiscovered cells (cost_so_far st), cost_ticks D cells (cost_so_far st)),
   length (frontier st)).

Section Sound.

Variable num : Number.
Variable nbrs : Cell -> list (Cell * Q).
Variables start goal : Cell.
Variable cells : list Cell.

(** [link cf cost n steps]: following the predecessors [cf] back from [n]
    reaches [start], along the edges [steps] read from the start, and the
    recorded costs do not decrease along them. *)
Inductive link (cf : gmap Cell (option Cell)) (cost : gmap Cell Q)
  : Cell -> list (Cell * Q) -> Prop :=
| link_start : link cf cost start []
| link_step n p w steps cp c :
    n <> start ->
    cf !! n = Some (Some p) ->
    cost !! p = Some cp ->
    cost !! n = Some c ->
    (n, w) ∈ nbrs p ->
    (cp <= c)%Q ->
    link cf cost p steps ->
    link cf cost n (steps ++ [(n, w)]).

(** What holds of the search state at every point of the loop, whether
    the sums are exact or rounded. *)
Record Sound (st : SearchState) : Prop := mkSound {
  sd_start : cost_so_far st !! start = Some 0%Q;
  sd_storable : forall n c, cost_so_far st !! n = Some c -> storable num nbrs cells c;
  sd_cells : forall n c, cost_so_far st !! n = Some c -> n ∈ cells;
  sd_link : forall n c, cost_so_far st !! n = Some c ->
    exists steps, link (came_from st) (cost_so_far st) n steps;
  sd_frontier : forall p n, (p, n) ∈ frontier st -> is_Some (cost_so_far st !! n);
  sd_goal : is_Some (cost_so_far st !! goal) -> exists p, (p, goal) ∈ frontier st
}.

(** A discovered cell waits in the frontier or has had all its edges
    relaxed; in the middle of a pass the popped cell is the exception. *)
Definition waiting (st : SearchState) (u : Cell) : Prop :=
  exists p, (p, u) ∈ frontier st.

Definition expanded (st : SearchState) (u : Cell) : Prop :=
  forall e, e ∈ nbrs u -> is_Some (cost_so_far st !! fst e).

Definition closed_but (cur : option Cell) (st : SearchState) : Prop :=
  forall u, is_Some (cost_so_far st !! u) ->
    waiting st u \/ expanded st u \/ cur = Some u.

(** The search state in the middle of a pass: [cur] has been popped and
    the edges [done] leaving it have been relaxed. *)
Definition in_pass (cur : Cell) (done : list (Cell * Q)) (st : SearchState) : Prop :=
  Sound st /\ is_Some (cost_so_far st !! cur) /\ closed_but (Some cur) st /\
  forall e, e ∈ done -> is_Some (cost_so_far st !! fst e).

End Sound.

(** ** Floats whose sums are exact *)

(** A whole number from 0 to [B]. *)
Definition whole_below (B : Z) (q : Q) : Prop :=
  exists n : Z, q = inject_Z n /\ 0 <= n <= B.

(** The weights and the estimates are whole numbers so small that no sum
    the search can form reaches [2 ^ 53]: with [W] the largest weight and
    [H] the largest estimate, a cost is the sum of fewer weights than there
    are cells, and a priority is a cost and an estimate. *)
Definition small_wholes (nbrs : Cell -> list (Cell * Q))
    (heuristic : Cell -> Cell -> Q) (goal : Cell) (cells : list Cell) : Prop :=
  exists W H : Z,
    (forall c e, c ∈ cells -> e ∈ nbrs c -> whole_below W (snd e)) /\
    (forall c, c ∈ cells -> whole_below H (heuristic c goal)) /\
    W * Z.of_nat (length cells) + H < 2 ^ 53.

(** No sum of the search is rounded: the numbers are ints, or floats that
    are small whole numbers. *)
Definition sums_exact (num : Number) (nbrs : Cell -> list (Cell * Q))
    (heuristic : Cell -> Cell -> Q) (goal : Cell) (cells : list Cell) : Prop :=
  match num with
  | PyInt => True
  | PyFloat => small_wholes nbrs heuristic goal cells
  end.

(** The recorded costs are whole numbers, none above what as many edges
    as there are discovered cells beside the first can cost. *)
Definition whole_costs
    (neighbors_of : Z -> Z -> list Coord -> Cell -> list (Cell * Q))
    (nbrs : Cell -> list (Cell * Q)) (cells : list Cell) (W : Z)
    (st : SearchState) : Prop :=
  (forall c, getNeighbors neighbors_of (sgrid st) c = nbrs c) /\
  forall n c, cost_so_far st !! n = Some c ->
    n ∈ cells /\
    exists z, c = inject_Z z /\
              0 <= z <= W * (Z.of_nat (size (cost_so_far st)) - 1).

(** * Theorems *)

(** ** The behaviour loop *)

Lemma bind_Return {A B} (m : M A) (f : A -> M B) cmds b :
  bind m f = (cmds, Return b) ->
  exists c1 a c2, m = (c1, Return a) /\ f a = (c2, Return b) /\ cmds = c1 ++ c2.
Proof.
  unfold bind. destruct m as [c1 [a| |]]; cbn; intros [= <- H]; try discriminate.
  exists c1, a, (fst (f a)). repeat split. destruct (f a); cbn in *; congruence.
Qed.

Lemma ret_Return {A} (a b : A) cmds :
  ret a = (cmds, Return b) -> cmds = [] /\ a = b.
Proof. unfold ret. intros [= <- <-]. auto. Qed.

Section BehaviorFacts.

Variable num : Number.
Variable neighbors_of : Z -> Z -> list Coord -> Cell -> list (Cell * Q).
Variables math_sqrt math_atan math_radians math_cos math_sin : Q -> Q.

Local Abbreviation observe' :=
  (observe num neighbors_of math_sqrt math_radians math_cos math_sin).
Local Abbreviation loop_body' :=
  (loop_body num neighbors_of math_sqrt math_atan math_radians math_cos math_sin).
Local Abbreviation follow' := (follow math_atan).

Lemma addObstacle_goals g c : getGoals (addObstacle g c) = getGoals g.
Proof. unfold addObstacle. destruct (existsb _ _); reflexivity. Qed.

Lemma addObstacle_path g c : getPath (addObstacle g c) = getPath g.
Proof. unfold addObstacle. destruct (existsb _ _); reflexivity. Qed.

Lemma fold_addObstacle_goals cs g :
  getGoals (fold_left addObstacle cs g) = getGoals g.
Proof.
  revert g. induction cs as [|c cs IH]; intros g; simpl; [reflexivity|].
  rewrite IH. apply addObstacle_goals.
Qed.

Lemma add_obstacle_goals g cube g' :
  add_obstacle math_radians math_cos math_sin g cube = Return g' ->
  getGoals g' = getGoals g.
Proof.
  unfold add_obstacle. destruct (py_range _ _ _); [|discriminate].
  intros [= <-]. apply fold_addObstacle_goals.
Qed.

(** The pass without a sighting: only the announcement is made and the
    state is left as it was. *)
Lemma observe_nothing fuel st :
  observe' fuel None st = ([say_text "searching"], Return st).
Proof. reflexivity. Qed.

(** What [follow] does on a path with a waypoint after the current one:
    where the first coordinates of the two waypoints differ it sends one
    move, and where they are equal the pose cannot be built. *)
Lemma follow_cases st cur nxt :
  getPath (grid st) !! path_index st = Some cur ->
  getPath (grid st) !! (path_index st + 1)%nat = Some nxt ->
  follow' st =
    (let d := (fst nxt - fst cur) * scale (grid st) in
     if d =? 0 then ([], Raise TypeError)
     else ([go_to_pose (mkPose d d 0 (math_atan (inject_Z d / inject_Z d)))],
           Return st)).
Proof.
  intros Hc Hn. unfold follow. rewrite Hc, Hn. cbv zeta.
  destruct ((fst nxt - fst cur) * scale (grid st) =? 0); reflexivity.
Qed.

Lemma follow_inv st cmds st' :
  follow' st = (cmds, Return st') ->
  st' = st /\
  exists cur nxt,
    getPath (grid st) !! path_index st = Some cur /\
    getPath (grid st) !! (path_index st + 1)%nat = Some nxt /\
    (fst nxt - fst cur) * scale (grid st) <> 0 /\
    cmds = (let d := (fst nxt - fst cur) * scale (grid st) in
            [go_to_pose (mkPose d d 0 (math_atan (inject_Z d / inject_Z d)))]).
Proof.
  destruct (getPath (grid st) !! path_index st) as [cur|] eqn:Hc.
  2:{ unfold follow. rewrite Hc. intros [= _ ?]. }
  destruct (getPath (grid st) !! (path_index st + 1)%nat) as [nxt|] eqn:Hn.
  2:{ unfold follow. rewrite Hc, Hn. intros [= _ ?]. }
  rewrite (follow_cases st cur nxt Hc Hn). cbv zeta.
  destruct ((fst nxt - fst cur) * scale (grid st) =? 0) eqn:Hd;
    [discriminate|].
  intros [= <- <-]. split; [reflexivity|].
  exists cur, nxt. apply Z.eqb_neq in Hd. auto.
Qed.

(** C3: in a pass of the loop in which nothing was observed and the end of
    the path is not reached, a pass that issues the move toward the next
    waypoint leaves the path index as it was: the code never advances
    it. *)
Theorem loop_body_keeps_path_index fuel st cmds st' :
  (path_index st < length (path st))%nat ->
  loop_body num neighbors_of math_sqrt math_atan math_radians math_cos math_sin
            fuel None st = (cmds, Return (Next st')) ->
  (exists pose, cmds = [say_text "searching"; go_to_pose pose]) /\
  path_index st' = path_index st.
Proof.
  intros Hlt H. unfold loop_body in H.
  apply bind_Return in H as (c1 & st1 & c2 & Ho & H & ->).
  rewrite observe_nothing in Ho. injection Ho as <- <-.
  apply bind_Return in H as (c3 & fl & c4 & Ha & H & ->).
  unfold arrival in Ha.
  destruct (length (path st) <=? path_index st)%nat eqn:Hle;
    [apply Nat.leb_le in Hle; lia|].
  apply ret_Return in Ha as [-> <-].
  apply bind_Return in H as (c5 & st3 & c6 & Hf & H & ->).
  apply ret_Return in H as [-> [= <-]].
  apply follow_inv in Hf as (-> & cur & nxt & _ & _ & _ & ->).
  split; [|reflexivity]. cbn. eauto.
Qed.

(** C5: the displacement handed to the motion executor takes both of its
    components from the first coordinates of the two waypoints, and the
    second coordinates are not read; where the first coordinates are equal
    no displacement is handed over at all, as the pose cannot be built. *)
Theorem follow_displacement_first_coordinates st cur nxt :
  getPath (grid st) !! path_index st = Some cur ->
  getPath (grid st) !! (path_index st + 1)%nat = Some nxt ->
  follow math_atan st =
    (let d := (fst nxt - fst cur) * scale (grid st) in
     if d =? 0 then ([], Raise TypeError)
     else ([go_to_pose (mkPose d d 0 (math_atan (inject_Z d / inject_Z d)))],
           Return st)).
Proof. apply follow_cases. Qed.

Lemma get_goal_inv g cube g' :
  get_goal math_radians math_cos math_sin g cube = Return g' ->
  g' = addObstacle g (goal_coord math_radians math_cos math_sin (scale g) cube).
Proof.
  unfold get_goal. destruct (scale g =? 0); [discriminate|]. congruence.
Qed.

Lemma bind_lift_ret {A B} (r : Res A) (f : A -> B) :
  bind (lift r) (fun a => ret (f a)) = ([], res_map f r).
Proof. destruct r; reflexivity. Qed.

(** C4: on a sighting of the goal marker the projected cell is added to
    the obstacle set and the goal cells of the grid stay what they were;
    the search that follows runs on that grid. *)
Theorem goal_marker_leaves_goals fuel cube st g1 g2 :
  cube_id cube = LightCube1Id ->
  add_obstacle math_radians math_cos math_sin (grid st) cube = Return g1 ->
  get_goal math_radians math_cos math_sin g1 cube = Return g2 ->
  getGoals g2 = getGoals (grid st) /\
  g2 = addObstacle g1 (goal_coord math_radians math_cos math_sin (scale g1) cube) /\
  observe num neighbors_of math_sqrt math_radians math_cos math_sin
          fuel (Some cube) st =
    ([say_text "searching"; say_text "Found a Cube";
      set_lights LightCube1Id blue_light; say_text "Found the Goal";
      say_text "Replanning"],
     res_map (fun g3 => mkLoop g3 0 (getPath g3) true)
             (astar num neighbors_of (heuristic math_sqrt) fuel g2)).
Proof.
  intros Hid H1 H2. pose proof (get_goal_inv _ _ _ H2) as Hg2.
  split; [|split; [exact Hg2|]].
  - rewrite Hg2, addObstacle_goals. eapply add_obstacle_goals, H1.
  - unfold observe, search_cube, bind, emit, ret, lift.
    cbn [fst snd app]. rewrite H1. cbn [fst snd app]. rewrite Hid.
    cbn [fst snd app]. rewrite H2. cbn [fst snd app].
    destruct (astar _ _ _ _ g2); reflexivity.
Qed.

Lemma observe_sighting_inv fuel cube st cmds st1 :
  observe' fuel (Some cube) st = (cmds, Return st1) ->
  exists g1 g2 pre,
    add_obstacle math_radians math_cos math_sin (grid st) cube = Return g1 /\
    (g2 = g1 \/ get_goal math_radians math_cos math_sin g1 cube = Return g2) /\
    astar num neighbors_of (heuristic math_sqrt) fuel g2 = Return (grid st1) /\
    path_index st1 = 0%nat /\ path st1 = getPath (grid st1) /\
    cmds = pre ++ [say_text "Replanning"] /\
    Forall (fun c => ~ is_move c) pre.
Proof.
  unfold observe, search_cube, bind, emit, ret, lift.
  cbn [fst snd app].
  destruct (add_obstacle _ _ _ (grid st) cube) as [g1| |] eqn:H1;
    cbn [fst snd app]; [|discriminate..].
  destruct (cube_id cube) eqn:Hid; cbn [fst snd app].
  1: destruct (get_goal _ _ _ g1 cube) as [g2| |] eqn:H2;
       cbn [fst snd app]; [|discriminate..].
  1: destruct (astar _ _ _ _ g2) as [g3| |] eqn:H3; [|discriminate..].
  2,3: destruct (astar _ _ _ _ g1) as [g3| |] eqn:H3; [|discriminate..].
  all: intros [= <- <-]; cbn.
  - exists g1, g2, [say_text "searching"; say_text "Found a Cube";
                    set_lights LightCube1Id blue_light; say_text "Found the Goal"].
    repeat split; auto. repeat constructor; cbn; tauto.
  - exists g1, g1, [say_text "searching"; say_text "Found a Cube";
                    set_lights LightCube2Id red_light; say_text "Found an Obstacle"].
    repeat split; auto. repeat constructor; cbn; tauto.
  - exists g1, g1, [say_text "searching"; say_text "Found a Cube";
                    set_lights LightCube3Id red_light; say_text "Found an Obstacle"].
    repeat split; auto. repeat constructor; cbn; tauto.
Qed.

(** C9, as the code has it: in a pass in which a sighting was registered
    the search is run again on the grid with the new obstacle, the path
    index is reset, and a pass that ends normally closes with the first
    move of the new path; no move is issued before the search. *)
Theorem replan_then_move fuel cube st cmds st' :
  loop_body num neighbors_of math_sqrt math_atan math_radians math_cos math_sin
            fuel (Some cube) st = (cmds, Return (Next st')) ->
  exists g1 g2 pre c0 c1 a,
    add_obstacle math_radians math_cos math_sin (grid st) cube = Return g1 /\
    (g2 = g1 \/ get_goal math_radians math_cos math_sin g1 cube = Return g2) /\
    astar num neighbors_of (heuristic math_sqrt) fuel g2 = Return (grid st') /\
    path_index st' = 0%nat /\ path st' = getPath (grid st') /\
    getPath (grid st') !! 0%nat = Some c0 /\
    getPath (grid st') !! 1%nat = Some c1 /\
    cmds = pre ++ [say_text "Replanning";
                   go_to_pose (mkPose ((fst c1 - fst c0) * scale (grid st'))
                                      ((fst c1 - fst c0) * scale (grid st')) 0 a)] /\
    Forall (fun c => ~ is_move c) pre.
Proof.
  intros H. unfold loop_body in H.
  apply bind_Return in H as (c1 & st1 & c2 & Ho & H & ->).
  apply observe_sighting_inv in Ho
    as (g1 & g2 & pre & H1 & H2 & H3 & Hi & Hp & -> & Hpre).
  apply bind_Return in H as (c3 & fl & c4 & Ha & H & ->).
  assert (Hfl : fl = Next st1 /\ Forall (fun c => ~ is_move c) c3 /\
                (c3 = [] \/ (length (path st1) <= path_index st1)%nat)).
  { unfold arrival in Ha.
    destruct (length (path st1) <=? path_index st1)%nat eqn:Hle.
    - apply Nat.leb_le in Hle. destruct (negb (found_goal st1)).
      + apply bind_Return in Ha as (? & [] & ? & He & Hr & ->).
        apply ret_Return in Hr as [-> <-]. injection He as <-.
        repeat split; auto. repeat constructor. cbn. tauto.
      + apply bind_Return in Ha as (? & [] & ? & He & Hr & ->).
        apply ret_Return in Hr as [-> <-]. discriminate.
    - apply ret_Return in Ha as [-> <-]. auto. }
  destruct Hfl as (-> & Hc3 & Hcase).
  apply bind_Return in H as (c5 & st3 & c6 & Hf & H & ->).
  apply ret_Return in H as [-> [= <-]].
  apply follow_inv in Hf as (-> & cur & nxt & Hcur & Hnxt & _ & ->).
  rewrite Hi in Hcur, Hnxt. cbn in Hnxt.
  destruct Hcase as [-> | Hlen].
  2:{ rewrite Hp, Hi in Hlen. apply lookup_lt_Some in Hcur. lia. }
  exists g1, g2, pre, cur, nxt. eexists.
  repeat split; try eassumption.
  cbv zeta. rewrite !app_nil_r, <- app_assoc. reflexivity.
Qed.

End BehaviorFacts.

Lemma loop_body_keeps_path_index_witness :
  exists cmds,
    loop_body PyFloat grid4 approx_sqrt approx_atan approx_radians approx_cos
              approx_sin 0 None following_row3
      = (cmds, Return (Next following_row3)) /\
    ((exists pose, cmds = [say_text "searching"; go_to_pose pose]) /\
     path_index following_row3 = path_index following_row3).
Proof.
  eexists. split; [reflexivity|].
  apply (loop_body_keeps_path_index PyFloat grid4 approx_sqrt approx_atan
           approx_radians approx_cos approx_sin 0 following_row3 _ following_row3);
    [cbn; lia | reflexivity].
Defined.

Lemma follow_displacement_first_coordinates_witness :
  getPath (grid following_row3) !! path_index following_row3 = Some (0, 0) /\
  getPath (grid following_row3) !! (path_index following_row3 + 1)%nat
    = Some (1, 0) /\
  follow approx_atan following_row3 =
    ([go_to_pose (mkPose 25 25 0 (7074237752028440 # 9007199254740992))], Return following_row3).
Proof.
  split; [reflexivity|]. split; [reflexivity|].
  transitivity
    (let d := (fst (1, 0) - fst (0, 0)) * scale (grid following_row3) in
     if d =? 0 then ([], Raise TypeError)
     else ([go_to_pose (mkPose d d 0 (approx_atan (inject_Z d / inject_Z d)))],
           Return following_row3)).
  - apply (follow_displacement_first_coordinates approx_atan following_row3
             (0, 0) (1, 0)); reflexivity.
  - vm_compute. reflexivity.
Defined.

Lemma replan_then_move_witness :
  exists cmds st',
    loop_body PyFloat grid4 approx_sqrt approx_atan approx_radians approx_cos
              approx_sin 100 (Some corner_cube) following_lane10
      = (cmds, Return (Next st')) /\
    exists g1 g2 pre c0 c1 a,
      add_obstacle approx_radians approx_cos approx_sin (grid following_lane10)
                   corner_cube = Return g1 /\
      (g2 = g1 \/ get_goal approx_radians approx_cos approx_sin g1 corner_cube
                  = Return g2) /\
      astar PyFloat grid4 (heuristic approx_sqrt) 100 g2 = Return (grid st') /\
      path_index st' = 0%nat /\ path st' = getPath (grid st') /\
      getPath (grid st') !! 0%nat = Some c0 /\
      getPath (grid st') !! 1%nat = Some c1 /\
      cmds = pre ++ [say_text "Replanning";
                     go_to_pose (mkPose ((fst c1 - fst c0) * scale (grid st'))
                                        ((fst c1 - fst c0) * scale (grid st')) 0 a)] /\
      Forall (fun c => ~ is_move c) pre.
Proof.
  eexists. eexists. split; [vm_compute; reflexivity|].
  apply (replan_then_move PyFloat grid4 approx_sqrt approx_atan approx_radians
           approx_cos approx_sin 100 corner_cube following_lane10).
  vm_compute. reflexivity.
Defined.

(** C9, as the claim has it, fails: in the pass below a cube is registered
    into the obstacle set and a move command is issued all the same, the
    first move of the path the new search has found. *)
Lemma move_in_pass_of_registration :
  let r := loop_body PyFloat grid4 approx_sqrt approx_atan approx_radians
                     approx_cos approx_sin 100 (Some corner_cube)
                     following_lane10 in
  (exists st', snd r = Return (Next st') /\
               length (obstacles (grid st')) = 25%nat /\
               obstacles (grid following_lane10) = [] /\
               getPath (grid st') = [(0, 0); (1, 0); (2, 0); (3, 0)]) /\
  last (fst r) = Some (go_to_pose (mkPose 25 25 0 (7074237752028440 # 9007199254740992))).
Proof.
  split.
  - eexists. split; [vm_compute; reflexivity|].
    split; [vm_compute; reflexivity|]. split; [reflexivity|].
    vm_compute. reflexivity.
  - vm_compute. reflexivity.
Qed.

Lemma goal_marker_leaves_goals_witness :
  exists g1 g2,
    cube_id marker_cube = LightCube1Id /\
    add_obstacle approx_radians approx_cos approx_sin (grid following10)
                 marker_cube = Return g1 /\
    get_goal approx_radians approx_cos approx_sin g1 marker_cube = Return g2 /\
    (getGoals g2 = getGoals (grid following10) /\
     g2 = addObstacle g1 (goal_coord approx_radians approx_cos approx_sin
                                     (scale g1) marker_cube) /\
     observe PyFloat grid4 approx_sqrt approx_radians approx_cos approx_sin
             100 (Some marker_cube) following10 =
       ([say_text "searching"; say_text "Found a Cube";
         set_lights LightCube1Id blue_light; say_text "Found the Goal";
         say_text "Replanning"],
        res_map (fun g3 => mkLoop g3 0 (getPath g3) true)
                (astar PyFloat grid4 (heuristic approx_sqrt) 100 g2))).
Proof.
  eexists. eexists. split; [reflexivity|]. split; [vm_compute; reflexivity|].
  split; [vm_compute; reflexivity|].
  apply (goal_marker_leaves_goals PyFloat grid4 approx_sqrt approx_radians
           approx_cos approx_sin 100 marker_cube following10);
    [reflexivity | vm_compute; reflexivity..].
Defined.

(** ** Obstacle projection *)

Lemma coord_eqb_equiv a a' b b' :
  coord_eq a a' -> coord_eq b b' -> coord_eqb a b = coord_eqb a' b'.
Proof.
  intros [Ha1 Ha2] [Hb1 Hb2]. unfold coord_eqb.
  assert (E : forall x x' y y' : Q,
             (x == x')%Q -> (y == y')%Q -> Qeq_bool x y = Qeq_bool x' y').
  { intros x x' y y' Hx Hy.
    destruct (Qeq_bool x y) eqn:E1, (Qeq_bool x' y') eqn:E2; try reflexivity.
    - apply Qeq_bool_iff in E1. apply Qeq_bool_neq in E2.
      exfalso. apply E2. rewrite <- Hx, <- Hy. exact E1.
    - apply Qeq_bool_iff in E2. apply Qeq_bool_neq in E1.
      exfalso. apply E1. rewrite Hx, Hy. exact E2. }
  rewrite (E _ _ _ _ Ha1 Hb1), (E _ _ _ _ Ha2 Hb2). reflexivity.
Qed.

Lemma coord_eq_refl a : coord_eq a a.
Proof. split; reflexivity. Qed.

Lemma existsb_coord_equiv c c' l l' :
  coord_eq c c' -> Forall2 coord_eq l l' ->
  existsb (coord_eqb c) l = existsb (coord_eqb c') l'.
Proof.
  intros Hc Hl. induction Hl as [|x y l l' Hxy Hl IH]; [reflexivity|].
  cbn. rewrite IH, (coord_eqb_equiv c c' x y Hc Hxy). reflexivity.
Qed.

Lemma add_coord_equiv c c' l l' :
  coord_eq c c' -> Forall2 coord_eq l l' ->
  Forall2 coord_eq (add_coord l c) (add_coord l' c').
Proof.
  intros Hc Hl. unfold add_coord.
  rewrite (existsb_coord_equiv c c' l l' Hc Hl).
  destruct (existsb _ l'); [exact Hl|].
  apply Forall2_app; [exact Hl|]. constructor; [exact Hc|constructor].
Qed.

Lemma fold_add_coord_equiv cs cs' :
  Forall2 coord_eq cs cs' ->
  forall l l', Forall2 coord_eq l l' ->
  Forall2 coord_eq (fold_left add_coord cs l) (fold_left add_coord cs' l').
Proof.
  induction 1 as [|c c' cs cs' Hc Hcs IH]; intros l l' Hl; [exact Hl|].
  cbn. apply IH, add_coord_equiv; assumption.
Qed.

Lemma addObstacle_obstacles g c :
  obstacles (addObstacle g c) = add_coord (obstacles g) c.
Proof. unfold addObstacle, add_coord. destruct (existsb _ _); reflexivity. Qed.

Lemma fold_addObstacle_obstacles cs g :
  obstacles (fold_left addObstacle cs g) = fold_left add_coord cs (obstacles g).
Proof.
  revert g. induction cs as [|c cs IH]; intros g; [reflexivity|].
  cbn. rewrite IH, addObstacle_obstacles. reflexivity.
Qed.

Section ProjectionFacts.

Variables math_radians math_cos math_sin : Q -> Q.
Hypothesis cos_0 : (math_cos (math_radians 0) == 1)%Q.
Hypothesis sin_0 : (math_sin (math_radians 0) == 0)%Q.

(** At heading 0 a point is left where it is. *)
Lemma rotate_point_0 x y :
  coord_eq (rotate_point math_radians math_cos math_sin x y 0) (x, y).
Proof.
  unfold rotate_point, coord_eq. cbn [fst snd].
  rewrite cos_0, sin_0. split; ring.
Qed.

Lemma obstacle_coords_block id :
  Forall2 coord_eq
    (obstacle_coords math_radians math_cos math_sin 25
                     (mkCube id 100 100 0) [-50; -25; 0; 25; 50])
    (map cell_coord (block 4 4 2)).
Proof.
  unfold obstacle_coords. cbn [flat_map map app angle_z_degrees pose_x pose_y].
  repeat (apply Forall2_cons; split; [|]).
  26: apply Forall2_nil_2.
  all: match goal with
       | |- context [rotate_point _ _ _ ?x ?y 0] =>
           destruct (rotate_point_0 x y) as [E1 E2]
       end.
  all: split; cbn [fst snd]; rewrite ?E1, ?E2; reflexivity.
Qed.

(** C8: footprint 50, grid scale 25, heading 0 and position (100, 100)
    project to the five by five block of cells around (4, 4): these are
    the coordinates handed to the grid, and on a grid without obstacles
    they are its obstacle set afterwards. *)
Theorem add_obstacle_block g id :
  scale g = 25 ->
  obstacles g = [] ->
  exists g',
    add_obstacle math_radians math_cos math_sin g (mkCube id 100 100 0)
      = Return g' /\
    Forall2 coord_eq (obstacles g') (map cell_coord (block 4 4 2)) /\
    length (obstacles g') = 25%nat.
Proof.
  intros Hs Ho. unfold add_obstacle. rewrite Hs.
  change (py_range (- 50) (50 + 1) 25) with (Some [-50; -25; 0; 25; 50]).
  eexists. split; [reflexivity|].
  rewrite fold_addObstacle_obstacles, Ho.
  assert (H : Forall2 coord_eq
                (fold_left add_coord
                   (obstacle_coords math_radians math_cos math_sin 25
                      (mkCube id 100 100 0) [-50; -25; 0; 25; 50]) [])
                (map cell_coord (block 4 4 2))).
  { change (map cell_coord (block 4 4 2))
      with (fold_left add_coord (map cell_coord (block 4 4 2)) []).
    apply fold_add_coord_equiv; [apply obstacle_coords_block | constructor]. }
  split; [exact H|].
  apply Forall2_length in H.
  transitivity (length (map cell_coord (block 4 4 2))); [exact H | reflexivity].
Qed.

End ProjectionFacts.

Lemma add_obstacle_block_witness :
  (approx_cos (approx_radians 0) == 1)%Q /\
  (approx_sin (approx_radians 0) == 0)%Q /\
  scale grid10 = 25 /\
  obstacles grid10 = [] /\
  exists g',
    add_obstacle approx_radians approx_cos approx_sin grid10
                 (mkCube LightCube2Id 100 100 0) = Return g' /\
    Forall2 coord_eq (obstacles g') (map cell_coord (block 4 4 2)) /\
    length (obstacles g') = 25%nat.
Proof.
  split; [reflexivity|]. split; [reflexivity|].
  split; [reflexivity|]. split; [reflexivity|].
  apply (add_obstacle_block approx_radians approx_cos approx_sin);
    reflexivity.
Defined.

(** ** reconstruct_path *)

Section ReconstructFacts.

Variable cf : gmap Cell (option Cell).
Variable start : Cell.

Lemma hits_length cur m l : hits cf start cur m l -> length l = m.
Proof. induction 1; cbn; congruence. Qed.

Lemma hits_fun cur m l :
  hits cf start cur m l -> forall m' l', hits cf start cur m' l' -> m = m'.
Proof.
  induction 1 as [|c prev m l Hc Hl _ IH]; intros m' l' H'.
  - inversion H'; subst; [reflexivity | congruence].
  - inversion H'; subst; [congruence|].
    f_equal. eapply IH. replace prev with prev0 by congruence. eassumption.
Qed.

Lemma hits_elem cur m l :
  hits cf start cur m l ->
  forall x, x ∈ l ->
    exists k l', hits cf start (Some x) k l' /\ (1 <= k <= m)%nat /\
                 is_Some (cf !! x).
Proof.
  induction 1 as [|c prev m l Hc Hl H IH]; intros x Hx.
  - inversion Hx.
  - apply elem_of_cons in Hx as [-> | Hx].
    + exists (S m), (c :: l). split; [econstructor; eassumption|].
      split; [lia | eauto].
    + destruct (IH x Hx) as (k & l' & Hk & Hle & Hs).
      exists k, l'. split; [exact Hk|]. split; [lia | exact Hs].
Qed.

Lemma hits_NoDup cur m l : hits cf start cur m l -> NoDup l.
Proof.
  induction 1 as [|c prev m l Hc Hl H IH]; [constructor|].
  constructor; [|exact IH].
  intros Hin. destruct (hits_elem _ _ _ H c Hin) as (k & l' & Hk & Hle & _).
  assert (Hh : hits cf start (Some c) (S m) (c :: l))
    by (econstructor; eassumption).
  pose proof (hits_fun _ _ _ Hk _ _ Hh). lia.
Qed.

(** The body runs at most once for each key of the predecessor map. *)
Lemma hits_bound cur m l : hits cf start cur m l -> (m <= size cf)%nat.
Proof.
  intros H. rewrite <- (hits_length _ _ _ H).
  rewrite <- size_dom. unfold size, set_size. cbn.
  apply submseteq_length, NoDup_submseteq; [eapply hits_NoDup, H|].
  intros x Hx. destruct (hits_elem _ _ _ H x Hx) as (_ & _ & _ & _ & Hs).
  apply elem_of_elements, elem_of_dom, Hs.
Qed.

Lemma hits_run cur m l :
  hits cf start cur m l ->
  forall fuel path, (m < fuel)%nat ->
    reconstruct_loop fuel cf start cur path = Return (rev (path ++ l ++ [start])).
Proof.
  induction 1 as [|c prev m l Hc Hl H IH]; intros fuel path Hf.
  - destruct fuel; [lia|]. cbn. rewrite decide_True by reflexivity. reflexivity.
  - destruct fuel; [lia|]. cbn.
    rewrite decide_False by congruence. rewrite Hl.
    rewrite (IH fuel (path ++ [c])) by lia.
    rewrite <- !app_assoc. reflexivity.
Qed.

Lemma pred_iter_hits n : forall cur,
  pred_iter cf n cur = Some (Some start) ->
  exists m l, hits cf start cur m l /\ (m <= n)%nat.
Proof.
  induction n as [|n IH]; intros cur H.
  - cbn in H. injection H as ->. exists 0%nat, []. split; [constructor | lia].
  - destruct (decide (cur = Some start)) as [-> | Hne].
    + exists 0%nat, []. split; [constructor | lia].
    + cbn in H. destruct cur as [c|]; [|discriminate].
      destruct (cf !! c) as [prev|] eqn:Hl; [|discriminate].
      destruct (IH prev H) as (m & l & Hh & Hle).
      exists (S m), (c :: l). split; [|lia].
      econstructor; [congruence | eassumption..].
Qed.

(** A chain that stays in the map and never meets the start cell keeps
    the loop running. *)
Lemma endless_chain_runs fuel : forall cur path,
  (forall n, exists c, pred_iter cf n cur = Some (Some c) /\ c <> start) ->
  reconstruct_loop fuel cf start cur path = OutOfFuel.
Proof.
  induction fuel as [|fuel IH]; intros cur path H; [reflexivity|].
  destruct (H 0%nat) as (c & H0 & Hc). cbn in H0. injection H0 as ->.
  cbn. rewrite decide_False by congruence.
  destruct (H 1%nat) as (c1 & H1 & _). cbn in H1.
  destruct (cf !! c) as [prev|] eqn:Hl; [|discriminate].
  apply IH. intros n. destruct (H (S n)) as (c' & Hn & Hc').
  exists c'. cbn in Hn. rewrite Hl in Hn. auto.
Qed.

End ReconstructFacts.

(** C7, as the code has it: when the predecessor chain from the goal
    reaches the start, the loop runs its body at most once per cell of the
    predecessor map and the path from start to goal is returned; there is
    no check for cycles, and on a chain that stays in the map without
    reaching the start the loop does not end and raises nothing. *)
Theorem reconstruct_path_chain cf start goal :
  (forall n, pred_iter cf n (Some goal) = Some (Some start) ->
     exists m l,
       hits cf start (Some goal) m l /\ (m <= size cf)%nat /\ (m <= n)%nat /\
       forall fuel, (m < fuel)%nat ->
         reconstruct_path fuel cf start goal = Return (start :: rev l)) /\
  ((forall n, exists c, pred_iter cf n (Some goal) = Some (Some c) /\ c <> start) ->
   never_returns cf start goal).
Proof.
  split.
  - intros n Hn. destruct (pred_iter_hits cf start n _ Hn) as (m & l & Hh & Hle).
    exists m, l. split; [exact Hh|]. split; [eapply hits_bound, Hh|].
    split; [exact Hle|]. intros fuel Hf. unfold reconstruct_path.
    rewrite (hits_run cf start _ _ _ Hh fuel [] Hf). cbn.
    rewrite rev_app_distr. reflexivity.
  - intros H fuel. apply endless_chain_runs, H.
Qed.

Lemma cyclic_map_chain n :
  pred_iter cyclic_map n (Some (1, 1)) =
    Some (Some (if Nat.even n then (1, 1) else (2, 2))) /\
  pred_iter cyclic_map n (Some (2, 2)) =
    Some (Some (if Nat.even n then (2, 2) else (1, 1))).
Proof.
  induction n as [|n [IH1 IH2]]; [split; reflexivity|].
  rewrite Nat.even_succ, <- Nat.negb_even.
  change (pred_iter cyclic_map (S n) (Some (1, 1)))
    with (pred_iter cyclic_map n (Some (2, 2))).
  change (pred_iter cyclic_map (S n) (Some (2, 2)))
    with (pred_iter cyclic_map n (Some (1, 1))).
  rewrite IH1, IH2. destruct (Nat.even n); split; reflexivity.
Qed.

Lemma cyclic_map_endless n :
  exists c, pred_iter cyclic_map n (Some (1, 1)) = Some (Some c) /\ c <> (0, 0).
Proof.
  destruct (cyclic_map_chain n) as [H _]. rewrite H.
  eexists. split; [reflexivity|]. destruct (Nat.even n); discriminate.
Qed.

Lemma reconstruct_path_chain_witness :
  (exists m l,
     hits straight_map (0, 0) (Some (0, 2)) m l /\
     (m <= size straight_map)%nat /\ (m <= 2)%nat /\
     forall fuel, (m < fuel)%nat ->
       reconstruct_path fuel straight_map (0, 0) (0, 2)
         = Return ((0, 0) :: rev l)) /\
  never_returns cyclic_map (0, 0) (1, 1).
Proof.
  split.
  - apply (proj1 (reconstruct_path_chain straight_map (0, 0) (0, 2)) 2%nat).
    reflexivity.
  - apply (proj2 (reconstruct_path_chain cyclic_map (0, 0) (1, 1))).
    exact cyclic_map_endless.
Defined.

(** C7, as the claim has it, fails: on a predecessor map whose chain from
    the goal is a cycle the reconstruction uses up any fuel; it neither
    ends within the number of cells nor raises an error. *)
Lemma reconstruct_path_loops_on_cycle :
  never_returns cyclic_map (0, 0) (1, 1).
Proof.
  intros fuel. apply endless_chain_runs, cyclic_map_endless.
Qed.

(** ** astar: the goal it looks for, and its relaxation step *)

Lemma Qltb_lt a b : Qltb a b = true <-> (a < b)%Q.
Proof.
  unfold Qltb. rewrite Qlt_alt. destruct (a ?= b)%Q; split; congruence.
Qed.

Lemma Qltb_ge a b : Qltb a b = false <-> (b <= a)%Q.
Proof.
  rewrite <- not_true_iff_false, Qltb_lt. split; [apply Qnot_lt_le | apply Qle_not_lt].
Qed.

Lemma reconstruct_loop_hits cf start fuel : forall cur path p,
  reconstruct_loop fuel cf start cur path = Return p ->
  exists m l, hits cf start cur m l /\ p = rev (path ++ l ++ [start]).
Proof.
  induction fuel as [|fuel IH]; intros cur path p H; [discriminate|].
  cbn in H. destruct (decide (cur = Some start)) as [-> | Hne].
  - injection H as <-. exists 0%nat, []. split; [constructor | reflexivity].
  - destruct cur as [c|]; [|discriminate].
    destruct (cf !! c) as [prev|] eqn:Hl; [|discriminate].
    destruct (IH _ _ _ H) as (m & l & Hh & ->).
    exists (S m), (c :: l). split.
    + econstructor; [congruence | eassumption..].
    + rewrite <- !app_assoc. reflexivity.
Qed.

Lemma reconstruct_path_ends cf start goal fuel p :
  reconstruct_path fuel cf start goal = Return p ->
  head p = Some start /\ last p = Some goal.
Proof.
  intros H. apply reconstruct_loop_hits in H as (m & l & Hh & ->).
  cbn. rewrite rev_app_distr. cbn. split; [reflexivity|].
  inversion Hh; subst; [reflexivity|].
  cbn. rewrite app_comm_cons, last_snoc. reflexivity.
Qed.

Section SearchFacts.

Variable num : Number.
Variable neighbors_of : Z -> Z -> list Coord -> Cell -> list (Cell * Q).
Variable heuristic : Cell -> Cell -> Q.

Local Abbreviation relax' := (relax num heuristic).
Local Abbreviation relax_all' := (relax_all num heuristic).
Local Abbreviation astar_loop' := (astar_loop num neighbors_of heuristic).
Local Abbreviation astar' := (astar num neighbors_of heuristic).
Local Abbreviation loop_head' := (loop_head num neighbors_of heuristic).

(** The two outcomes of one relaxation. *)
Lemma relax_cases goal cur st e st' :
  relax' goal cur st e = Return st' ->
  exists cc, cost_so_far st !! cur = Some cc /\
    ((st' = st /\
      exists old, cost_so_far st !! fst e = Some old /\
                  (old <= py_add num cc (snd e))%Q) \/
     (st' = mkState (put (py_add num (py_add num cc (snd e))
                                     (heuristic (fst e) goal), fst e)
                         (frontier st))
                    (<[fst e := Some cur]> (came_from st))
                    (<[fst e := py_add num cc (snd e)]> (cost_so_far st))
                    (sgrid st) /\
      (cost_so_far st !! fst e = None \/
       exists old, cost_so_far st !! fst e = Some old /\
                   (py_add num cc (snd e) < old)%Q))).
Proof.
  unfold relax. destruct (cost_so_far st !! cur) as [cc|]; [|discriminate].
  intros H. exists cc. split; [reflexivity|].
  destruct (cost_so_far st !! fst e) as [old|] eqn:Ho.
  - destruct (Qltb (py_add num cc (snd e)) old) eqn:Hlt; injection H as <-.
    + right. split; [reflexivity|]. right. exists old.
      split; [reflexivity | apply Qltb_lt, Hlt].
    + left. split; [reflexivity|]. exists old.
      split; [reflexivity | apply Qltb_ge, Hlt].
  - injection H as <-. right. split; [reflexivity | left; reflexivity].
Qed.

Lemma relax_all_cons goal cur st e ns st' :
  relax_all' goal cur st (e :: ns) = Return st' ->
  exists st1, relax' goal cur st e = Return st1 /\
              relax_all' goal cur st1 ns = Return st'.
Proof.
  cbn. destruct (relax' goal cur st e) as [st1| |]; [|discriminate..].
  eauto.
Qed.

Lemma relax_mono goal cur st e st' :
  relax' goal cur st e = Return st' ->
  forall n old, cost_so_far st !! n = Some old ->
    exists new, cost_so_far st' !! n = Some new /\ (new <= old)%Q.
Proof.
  intros H n old Hn.
  apply relax_cases in H as (cc & Hc & [[-> _] | [-> Hlow]]).
  - exists old. split; [exact Hn | apply Qle_refl].
  - cbn. destruct (decide (fst e = n)) as [<- | Hne].
    + rewrite lookup_insert_eq. eexists. split; [reflexivity|].
      destruct Hlow as [Hnone | (old' & Ho & Hlt)]; [congruence|].
      replace old with old' by congruence. apply Qlt_le_weak, Hlt.
    + rewrite lookup_insert_ne by exact Hne.
      exists old. split; [exact Hn | apply Qle_refl].
Qed.

Lemma relax_all_mono goal cur ns : forall st st',
  relax_all' goal cur st ns = Return st' ->
  forall n old, cost_so_far st !! n = Some old ->
    exists new, cost_so_far st' !! n = Some new /\ (new <= old)%Q.
Proof.
  induction ns as [|e ns IH]; intros st st' H n old Hn.
  - injection H as <-. exists old. split; [exact Hn | apply Qle_refl].
  - apply relax_all_cons in H as (st1 & H1 & H2).
    destruct (relax_mono _ _ _ _ _ H1 n old Hn) as (mid & Hm & Hle).
    destruct (IH _ _ H2 n mid Hm) as (new & Hnew & Hle').
    exists new. split; [exact Hnew | eapply Qle_trans; eassumption].
Qed.

(** An entry that an expansion adds to the frontier is for a cell that was
    not discovered, or whose cost the expansion has strictly lowered. *)
Lemma relax_all_pushes goal cur ns : forall st st',
  relax_all' goal cur st ns = Return st' ->
  forall pe, pe ∈ frontier st' ->
    pe ∈ frontier st \/
    cost_so_far st !! snd pe = None \/
    exists old new, cost_so_far st !! snd pe = Some old /\
                    cost_so_far st' !! snd pe = Some new /\ (new < old)%Q.
Proof.
  induction ns as [|e ns IH]; intros st st' H pe Hpe.
  - injection H as <-. left. exact Hpe.
  - apply relax_all_cons in H as (st1 & H1 & H2).
    destruct (cost_so_far st !! snd pe) as [old|] eqn:Hold; [|right; left; reflexivity].
    destruct (relax_mono _ _ _ _ _ H1 _ _ Hold) as (mid & Hmid & Hle1).
    destruct (relax_all_mono _ _ _ _ _ H2 _ _ Hmid) as (new & Hnew & Hle2).
    destruct (IH _ _ H2 pe Hpe) as [Hin | [Hnone | (o & nw & Ho & Hn & Hlt)]].
    + apply relax_cases in H1 as (cc & Hc & [[-> _] | [-> Hlow]]);
        [left; exact Hin|].
      cbn in Hin. apply elem_of_cons in Hin as [-> | Hin]; [|left; exact Hin].
      cbn in *. right. right. exists old, new.
      split; [reflexivity|]. split; [exact Hnew|].
      destruct Hlow as [Hnone | (old' & Ho & Hlt)]; [congruence|].
      rewrite lookup_insert_eq in Hmid. injection Hmid as <-.
      replace old with old' by congruence.
      eapply Qle_lt_trans; eassumption.
    + congruence.
    + right. right. exists old, nw. split; [reflexivity|]. split; [exact Hn|].
      replace o with mid in Hlt by congruence.
      eapply Qlt_le_trans; eassumption.
Qed.

(** The fuel of the passes already made can be set aside. *)
Lemma loop_head_tie s goal k : forall fuel st st',
  loop_head' k goal st = Some st' ->
  astar_loop' (k + fuel) s goal st = astar_loop' fuel s goal st'.
Proof.
  induction k as [|k IH]; intros fuel st st' H; [injection H as <-; reflexivity|].
  cbn in H |- *. destruct (get (frontier st)) as [[e rest]|]; [|discriminate].
  destruct (decide (snd e = goal)); [discriminate|].
  destruct (relax_all' goal (snd e) _ _) as [st2| |]; [|discriminate..].
  apply IH, H.
Qed.

Lemma loop_head_add goal k : forall j st st',
  loop_head' k goal st = Some st' ->
  loop_head' (k + j) goal st = loop_head' j goal st'.
Proof.
  induction k as [|k IH]; intros j st st' H; [injection H as <-; reflexivity|].
  cbn in H |- *. destruct (get (frontier st)) as [[e rest]|]; [|discriminate].
  destruct (decide (snd e = goal)); [discriminate|].
  destruct (relax_all' goal (snd e) _ _) as [st2| |]; [|discriminate..].
  apply IH, H.
Qed.

Lemma loop_head_mono goal j : forall st st',
  loop_head' j goal st = Some st' ->
  forall n old, cost_so_far st !! n = Some old ->
    exists new, cost_so_far st' !! n = Some new /\ (new <= old)%Q.
Proof.
  induction j as [|j IH]; intros st st' H n old Hn.
  - injection H as <-. exists old. split; [exact Hn | apply Qle_refl].
  - cbn in H. destruct (get (frontier st)) as [[e rest]|]; [|discriminate].
    destruct (decide (snd e = goal)); [discriminate|].
    destruct (relax_all' goal (snd e) _ _) as [st2| |] eqn:Hr; [|discriminate..].
    destruct (relax_all_mono _ _ _ _ _ Hr n old Hn) as (mid & Hm & Hle).
    destruct (IH _ _ H n mid Hm) as (new & Hnew & Hle').
    exists new. split; [exact Hnew | eapply Qle_trans; eassumption].
Qed.

(** C6: the cost of the start cell is 0 when the search starts.  Let [st]
    be the state of an invocation at the head of its loop after [k]
    passes.  At every later head of the loop each cost stored in [st] is
    still stored and has not grown.  In the pass that [st] begins, each
    relaxation either leaves the state alone or records for its cell a
    cost that is new or strictly below the stored one, and pushes that
    cell with it. *)
Theorem cost_so_far_relaxation g goal others k st :
  getGoals g = goal :: others ->
  loop_head num neighbors_of heuristic k goal (init_state g (getStart g)) = Some st ->
  cost_so_far (init_state g (getStart g)) !! getStart g = Some 0%Q /\
  (forall fuel,
     astar num neighbors_of heuristic (k + fuel) g =
       astar_loop num neighbors_of heuristic fuel (getStart g) goal st) /\
  (forall j st2,
     loop_head num neighbors_of heuristic (k + j) goal
               (init_state g (getStart g)) = Some st2 ->
     forall n old, cost_so_far st !! n = Some old ->
       exists new, cost_so_far st2 !! n = Some new /\ (new <= old)%Q) /\
  (forall e rest done n todo s s',
     get (frontier st) = Some (e, rest) -> snd e <> goal ->
     getNeighbors neighbors_of (sgrid st) (snd e) = done ++ n :: todo ->
     relax_all num heuristic goal (snd e)
               (mkState rest (came_from st) (cost_so_far st)
                        (addVisited (sgrid st) (snd e))) done = Return s ->
     relax num heuristic goal (snd e) s n = Return s' ->
     s' = s \/
     exists cc, cost_so_far s !! snd e = Some cc /\
       cost_so_far s' = <[fst n := py_add num cc (snd n)]> (cost_so_far s) /\
       frontier s' =
         put (py_add num (py_add num cc (snd n)) (heuristic (fst n) goal), fst n)
             (frontier s) /\
       came_from s' = <[fst n := Some (snd e)]> (came_from s) /\
       (cost_so_far s !! fst n = None \/
        exists old, cost_so_far s !! fst n = Some old /\
                    (py_add num cc (snd n) < old)%Q)).
Proof.
  intros Hg Hk. split; [cbn; apply lookup_insert_eq|]. split; [|split].
  - intros fuel. unfold astar. rewrite Hg. apply loop_head_tie, Hk.
  - intros j st2 Hj. rewrite (loop_head_add _ _ _ _ _ Hk) in Hj.
    eapply loop_head_mono, Hj.
  - intros e rest done n todo s s' _ _ _ _ H.
    apply relax_cases in H as (cc & Hc & [[-> _] | [-> Hlow]]); [left; reflexivity|].
    right. exists cc. cbn. auto.
Qed.

Lemma relax_map_grid f goal cur st e :
  relax' goal cur (map_grid f st) e = res_map (map_grid f) (relax' goal cur st e).
Proof.
  unfold relax, map_grid. cbn.
  destruct (cost_so_far st !! cur); [|reflexivity].
  destruct (match cost_so_far st !! fst e with
            | Some old => Qltb (py_add num q (snd e)) old
            | None => true
            end); reflexivity.
Qed.

Lemma relax_all_map_grid f goal cur ns : forall st,
  relax_all' goal cur (map_grid f st) ns
    = res_map (map_grid f) (relax_all' goal cur st ns).
Proof.
  induction ns as [|e ns IH]; intros st; [reflexivity|].
  cbn. rewrite relax_map_grid.
  destruct (relax' goal cur st e) as [st1| |]; cbn; [apply IH | reflexivity..].
Qed.

(** The loop does not read the goal list of the grid. *)
Lemma astar_loop_setGoals gs s goal fuel : forall st,
  astar_loop' fuel s goal (map_grid (fun g => setGoals g gs) st)
    = res_map (fun g => setGoals g gs) (astar_loop' fuel s goal st).
Proof.
  induction fuel as [|fuel IH]; intros st; [reflexivity|].
  cbn. destruct (get (frontier st)) as [[e rest]|]; [|reflexivity].
  destruct (decide (snd e = goal)).
  - destruct (reconstruct_path fuel (came_from st) s goal); reflexivity.
  - cbn. unfold getNeighbors. cbn.
    change (mkState rest (came_from st) (cost_so_far st)
                    (addVisited (setGoals (sgrid st) gs) (snd e)))
      with (map_grid (fun g => setGoals g gs)
              (mkState rest (came_from st) (cost_so_far st)
                       (addVisited (sgrid st) (snd e)))).
    rewrite relax_all_map_grid.
    destruct (relax_all' goal (snd e) _ _) as [st2| |]; cbn;
      [apply (IH st2) | reflexivity..].
Qed.

Lemma astar_loop_returns s goal fuel : forall st g',
  astar_loop' fuel s goal st = Return g' ->
  goal ∈ visited g' /\ head (getPath g') = Some s /\ last (getPath g') = Some goal.
Proof.
  induction fuel as [|fuel IH]; intros st g' H; [discriminate|].
  cbn in H. destruct (get (frontier st)) as [[e rest]|]; [|discriminate].
  destruct (decide (snd e = goal)) as [He | He].
  - destruct (reconstruct_path fuel (came_from st) s goal) as [p| |] eqn:Hp;
      [|discriminate..].
    injection H as <-. cbn.
    split; [apply elem_of_union_l, elem_of_singleton; symmetry; exact He|].
    eapply reconstruct_path_ends, Hp.
  - destruct (relax_all' goal _ _ _) as [st2| |]; [|discriminate..].
    eapply IH, H.
Qed.

(** C10: the search looks for the first goal of the grid only.  With
    further goals in the list it does what it does without them, and when
    it returns, the path leads from the start to the first goal, which was
    the last cell visited. *)
Theorem astar_first_goal_only fuel g goal rest :
  astar' fuel (setGoals g (goal :: rest)) =
    res_map (fun g' => setGoals g' (goal :: rest))
            (astar' fuel (setGoals g [goal])) /\
  (forall g', astar' fuel (setGoals g (goal :: rest)) = Return g' ->
     goal ∈ visited g' /\
     head (getPath g') = Some (getStart g) /\
     last (getPath g') = Some goal).
Proof.
  split.
  - unfold astar. cbn.
    pose proof (astar_loop_setGoals (goal :: rest) (getStart g) goal fuel
                  (init_state g (getStart g))) as E1.
    pose proof (astar_loop_setGoals [goal] (getStart g) goal fuel
                  (init_state g (getStart g))) as E2.
    unfold map_grid, init_state in *. cbn in *. rewrite E1, E2. clear E1 E2.
    destruct (astar_loop' fuel _ _ _); reflexivity.
  - intros g' H. unfold astar in H. cbn in H.
    eapply astar_loop_returns, H.
Qed.

End SearchFacts.

Lemma astar_first_goal_only_witness :
  astar PyInt grid4 zero_heuristic 100 grid3x3_two_goals =
    res_map (fun g' => setGoals g' [(2, 2); (0, 1)])
            (astar PyInt grid4 zero_heuristic 100 (setGoals grid3x3 [(2, 2)])) /\
  res_map getPath (astar PyInt grid4 zero_heuristic 100 grid3x3_two_goals) =
    Return [(0, 0); (0, 1); (0, 2); (1, 2); (2, 2)].
Proof.
  split.
  - apply (proj1 (astar_first_goal_only PyInt grid4 zero_heuristic 100 grid3x3
                    (2, 2) [(0, 1)])).
  - vm_compute. reflexivity.
Defined.

(** On the grid [detour] the second pass of the search finds the last
    cell, stored at cost 10, at cost 2 through the middle cell: the stored
    cost drops and the cell is pushed a second time. *)
Lemma cost_so_far_relaxation_witness :
  let st := detour_second_pass in
  let s := mkState [(10%Q, (2, 0))] (came_from st) (cost_so_far st)
                   (addVisited (sgrid st) (1, 0)) in
  let s' := detour_relaxed in
  loop_head PyInt detour zero_heuristic 1 (2, 0) (init_state row3 (0, 0))
    = Some st /\
  get (frontier st) = Some ((1%Q, (1, 0)), [(10%Q, (2, 0))]) /\
  relax PyInt zero_heuristic (2, 0) (1, 0) s ((2, 0), 1%Q) = Return s' /\
  cost_so_far s !! (2, 0) = Some 10%Q /\
  cost_so_far s' !! (2, 0) = Some (1 + 1)%Q /\
  frontier s' = [((1 + 1 + 0)%Q, (2, 0)); (10%Q, (2, 0))] /\
  (s' = s \/
   exists cc, cost_so_far s !! (1, 0) = Some cc /\
     cost_so_far s' = <[(2, 0) := py_add PyInt cc 1]> (cost_so_far s) /\
     frontier s' =
       put (py_add PyInt (py_add PyInt cc 1) (zero_heuristic (2, 0) (2, 0)), (2, 0))
           (frontier s) /\
     came_from s' = <[(2, 0) := Some (1, 0)]> (came_from s) /\
     (cost_so_far s !! (2, 0) = None \/
      exists old, cost_so_far s !! (2, 0) = Some old /\
                  (py_add PyInt cc 1 < old)%Q)).
Proof.
  intros st s s'.
  assert (H1 : loop_head PyInt detour zero_heuristic 1 (2, 0)
                 (init_state row3 (0, 0)) = Some st)
    by (vm_compute; reflexivity).
  assert (H2 : get (frontier st) = Some ((1%Q, (1, 0)), [(10%Q, (2, 0))]))
    by (vm_compute; reflexivity).
  assert (H3 : relax PyInt zero_heuristic (2, 0) (1, 0) s ((2, 0), 1%Q) = Return s')
    by (vm_compute; reflexivity).
  split; [exact H1|]. split; [exact H2|]. split; [exact H3|].
  split; [vm_compute; reflexivity|]. split; [vm_compute; reflexivity|].
  split; [vm_compute; reflexivity|].
  apply (proj2 (proj2 (proj2 (cost_so_far_relaxation PyInt detour zero_heuristic
            row3 (2, 0) [] 1%nat st eq_refl H1)))
          (1%Q, (1, 0)) [(10%Q, (2, 0))] [] ((2, 0), 1%Q) [] s s' H2).
  - discriminate.
  - vm_compute. reflexivity.
  - reflexivity.
  - exact H3.
Defined.

(** ** astar: the invariant of the loop *)

(** ** The priority queue *)

Lemma entry_leb_le e m : entry_leb e m = true -> (fst e <= fst m)%Q.
Proof.
  unfold entry_leb. destruct (fst e ?= fst m)%Q eqn:E; intros H; try discriminate.
  - apply Qeq_alt in E. rewrite E. apply Qle_refl.
  - apply Qlt_alt in E. apply Qlt_le_weak, E.
Qed.

Lemma entry_leb_ge e m : entry_leb e m = false -> (fst m <= fst e)%Q.
Proof.
  unfold entry_leb. destruct (fst e ?= fst m)%Q eqn:E; intros H; try discriminate.
  - apply Qeq_alt in E. rewrite E. apply Qle_refl.
  - apply Qgt_alt in E. apply Qlt_le_weak, E.
Qed.

Lemma get_None f : get f = None -> f = [].
Proof.
  destruct f as [|e f]; [reflexivity|]. cbn.
  destruct (get f) as [[m rest]|]; [|discriminate].
  destruct (entry_leb e m); discriminate.
Qed.

(** [get] takes out one entry of least priority and leaves the others. *)
Lemma get_Some f : forall m rest,
  get f = Some (m, rest) ->
  f ≡ₚ m :: rest /\ forall e, e ∈ f -> (fst m <= fst e)%Q.
Proof.
  induction f as [|e f IH]; intros m rest H; [discriminate|].
  cbn in H. destruct (get f) as [[m' rest']|] eqn:Hg.
  - destruct (IH _ _ eq_refl) as [Hp Hmin].
    destruct (entry_leb e m') eqn:Hle; injection H as <- <-.
    + split; [reflexivity|]. intros x Hx.
      apply elem_of_cons in Hx as [-> | Hx]; [apply Qle_refl|].
      eapply Qle_trans; [apply entry_leb_le, Hle | apply Hmin, Hx].
    + split.
      * rewrite Hp. apply Permutation_swap.
      * intros x Hx. apply elem_of_cons in Hx as [-> | Hx];
          [apply entry_leb_ge, Hle | apply Hmin, Hx].
  - apply get_None in Hg. subst f. injection H as <- <-.
    split; [reflexivity|]. intros x Hx.
    apply list_elem_of_singleton in Hx as ->. apply Qle_refl.
Qed.

(** ** Sums over the cells of the grid *)

Lemma sum_cells_le cells f g :
  (forall x, x ∈ cells -> (g x <= f x)%nat) ->
  (sum_cells cells g <= sum_cells cells f)%nat.
Proof.
  unfold sum_cells. induction cells as [|c cells IH]; intros H; [cbn; lia|].
  cbn. pose proof (H c ltac:(left)).
  assert (sum_list (map g cells) <= sum_list (map f cells))%nat
    by (apply IH; intros x Hx; apply H; right; exact Hx).
  lia.
Qed.

Lemma sum_cells_lt cells f g y :
  y ∈ cells -> (g y < f y)%nat ->
  (forall x, x ∈ cells -> (g x <= f x)%nat) ->
  (sum_cells cells g < sum_cells cells f)%nat.
Proof.
  unfold sum_cells. induction cells as [|c cells IH]; intros Hy Hlt H.
  - inversion Hy.
  - cbn. pose proof (H c ltac:(left)).
    pose proof (sum_cells_le cells f g (fun x Hx => H x ltac:(right; exact Hx))) as Hle.
    unfold sum_cells in Hle.
    apply elem_of_cons in Hy as [-> | Hy]; [lia|].
    assert (sum_list (map g cells) < sum_list (map f cells))%nat
      by (apply IH; [exact Hy | exact Hlt | intros x Hx; apply H; right; exact Hx]).
    lia.
Qed.

(** ** The common denominator of the weights *)

Section Denominator.

Variable nbrs : Cell -> list (Cell * Q).

Lemma edge_den_pos (es : list (Cell * Q)) acc :
  0 < acc ->
  0 < fold_right (fun e acc' => Zpos (Qden (snd e)) * acc') acc es.
Proof. intros H. induction es as [|e es IH]; cbn; [exact H | lia]. Qed.

Lemma edge_den_divide_acc (es : list (Cell * Q)) acc :
  (acc | fold_right (fun e acc' => Zpos (Qden (snd e)) * acc') acc es).
Proof.
  induction es as [|e es IH]; cbn; [apply Z.divide_refl|].
  apply Z.divide_mul_r, IH.
Qed.

Lemma edge_den_divide (es : list (Cell * Q)) acc e :
  e ∈ es ->
  (Zpos (Qden (snd e)) | fold_right (fun e acc' => Zpos (Qden (snd e)) * acc') acc es).
Proof.
  induction es as [|e' es IH]; intros H; [inversion H|].
  cbn. apply elem_of_cons in H as [-> | H].
  - apply Z.divide_mul_l, Z.divide_refl.
  - apply Z.divide_mul_r, IH, H.
Qed.

Lemma weight_den_pos cells : 0 < weight_den nbrs cells.
Proof.
  unfold weight_den. induction cells as [|c cells IH]; cbn; [lia|].
  apply edge_den_pos, IH.
Qed.

Lemma weight_den_divide cells c e :
  c ∈ cells -> e ∈ nbrs c -> (Zpos (Qden (snd e)) | weight_den nbrs cells).
Proof.
  unfold weight_den. induction cells as [|c' cells IH]; intros Hc He; [inversion Hc|].
  cbn. apply elem_of_cons in Hc as [-> | Hc].
  - apply edge_den_divide, He.
  - eapply Z.divide_trans; [apply IH; assumption | apply edge_den_divide_acc].
Qed.

(** Every weight of the grid is a whole multiple of one over the common
    denominator. *)
Lemma weight_scaled cells c e :
  c ∈ cells -> e ∈ nbrs c ->
  exists z, (snd e * inject_Z (weight_den nbrs cells) == inject_Z z)%Q.
Proof.
  intros Hc He. destruct (weight_den_divide cells c e Hc He) as [k Hk].
  exists (Qnum (snd e) * k). rewrite Hk.
  destruct (snd e) as [n d]. unfold Qeq, Qmult, inject_Z. cbn. lia.
Qed.

Lemma scaled_lt cells (a b : Q) za zb :
  (a * inject_Z (weight_den nbrs cells) == inject_Z za)%Q ->
  (b * inject_Z (weight_den nbrs cells) == inject_Z zb)%Q ->
  (0 <= a)%Q -> (a < b)%Q ->
  (scaled nbrs cells a < scaled nbrs cells b)%nat.
Proof.
  intros Ha Hb H0 Hlt. unfold scaled.
  rewrite Ha, Hb, !Qfloor_Z.
  pose proof (weight_den_pos cells) as HD.
  assert (HDq : (0 < inject_Z (weight_den nbrs cells))%Q)
    by (rewrite <- (Zlt_Qlt 0); exact HD).
  assert (0 <= za).
  { rewrite Zle_Qle, <- Ha. apply Qmult_le_0_compat; [exact H0 | apply Qlt_le_weak, HDq]. }
  assert (za < zb).
  { rewrite Zlt_Qlt, <- Ha, <- Hb. apply Qmult_lt_compat_r; assumption. }
  lia.
Qed.

End Denominator.

Lemma sum_cells_ext cells f g :
  (forall x, x ∈ cells -> g x = f x) -> sum_cells cells g = sum_cells cells f.
Proof.
  intros H. apply Nat.le_antisymm; apply sum_cells_le; intros x Hx;
    rewrite (H x Hx); lia.
Qed.

Lemma lex2_trans a b c : lex2 a b -> lex2 b c -> lex2 a c.
Proof. unfold lex2. lia. Qed.

Lemma lex3_wf : well_founded lex3.
Proof.
  assert (H : forall a b c, Acc lex3 (a, b, c)).
  { induction a as [a IHa] using lt_wf_ind.
    induction b as [b IHb] using lt_wf_ind.
    induction c as [c IHc] using lt_wf_ind.
    constructor. intros [[a' b'] c']. unfold lex3, lex2. cbn.
    intros [[Ha | [-> Hb]] | [[= -> ->] Hc]].
    - apply IHa, Ha.
    - apply IHb, Hb.
    - apply IHc, Hc. }
  intros [[a b] c]. apply H.
Qed.

Lemma astar_loop_unfold num neighbors_of heuristic start goal fuel st :
  astar_loop num neighbors_of heuristic (S fuel) start goal st =
    match get (frontier st) with
    | None => Raise NoPathFound
    | Some (e, rest) =>
        let st1 := mkState rest (came_from st) (cost_so_far st)
                           (addVisited (sgrid st) (snd e)) in
        if decide (snd e = goal) then
          match reconstruct_path fuel (came_from st1) start goal with
          | Return path => Return (setPath (sgrid st1) path)
          | Raise e => Raise e
          | OutOfFuel => OutOfFuel
          end
        else
          match relax_all num heuristic goal (snd e) st1
                          (getNeighbors neighbors_of (sgrid st1) (snd e)) with
          | Return st2 => astar_loop num neighbors_of heuristic fuel start goal st2
          | Raise e => Raise e
          | OutOfFuel => OutOfFuel
          end
    end.
Proof. reflexivity. Qed.

Section AstarProof.

Variable neighbors_of : Z -> Z -> list Coord -> Cell -> list (Cell * Q).
Variable nbrs : Cell -> list (Cell * Q).
Variable heuristic : Cell -> Cell -> Q.
Variables start goal : Cell.
Variable cells : list Cell.
Hypothesis Hfin : finite_grid nbrs start cells.

Local Abbreviation h := (fun n : Cell => heuristic n goal).
Local Abbreviation Inv' := (Inv nbrs h start goal cells).
Local Abbreviation chain' := (chain nbrs start).
Local Abbreviation walk' := (walk nbrs).
Local Abbreviation den := (weight_den nbrs cells).
Local Abbreviation settled' := (settled nbrs h start).
Local Abbreviation settled_but' := (settled_but nbrs h start).
Local Abbreviation cost_measure' := (cost_measure nbrs cells).
Local Abbreviation loop_measure' := (loop_measure nbrs cells).
Local Abbreviation mid_pass' := (mid_pass nbrs h start goal cells).

Lemma edge_in_grid c e : c ∈ cells -> e ∈ nbrs c -> fst e ∈ cells /\ (0 <= snd e)%Q.
Proof. intros Hc He. exact (proj2 Hfin c e Hc He). Qed.

(** *** Walks *)

Lemma walk_snoc u steps v e :
  walk' u steps v -> e ∈ nbrs v -> walk' u (steps ++ [e]) (fst e).
Proof.
  induction 1 as [u | u e' steps t He' Hw IH]; intros He; cbn.
  - econstructor; [exact He | constructor].
  - econstructor; [exact He' | apply IH, He].
Qed.

Lemma walk_cost_snoc steps e :
  (walk_cost (steps ++ [e]) == walk_cost steps + snd e)%Q.
Proof.
  induction steps as [|e' steps IH]; cbn [app walk_cost fold_right]; [ring|].
  fold (walk_cost (steps ++ [e])). fold (walk_cost steps). rewrite IH. ring.
Qed.

Lemma walk_cost_nonneg u steps t :
  walk' u steps t -> u ∈ cells -> (0 <= walk_cost steps)%Q.
Proof.
  induction 1 as [u | u e steps t He Hw IH]; intros Hu;
    cbn [walk_cost fold_right]; [apply Qle_refl|].
  fold (walk_cost steps).
  destruct (edge_in_grid u e Hu He) as [Hc Hw0].
  specialize (IH Hc). lra.
Qed.

(** *** Chains of predecessors *)

Lemma chain_walk cf cost n steps : chain' cf cost n steps -> walk' start steps n.
Proof.
  induction 1 as [|n p w steps cp c Hn Hcf Hp Hc He Hle Hch IH]; [constructor|].
  apply (walk_snoc start steps p (n, w) IH He).
Qed.

Lemma chain_cost cf cost n steps :
  (forall m c, cost !! m = Some c -> (0 <= c)%Q) ->
  chain' cf cost n steps ->
  forall c, cost !! n = Some c -> (walk_cost steps <= c)%Q.
Proof.
  intros Hpos.
  induction 1 as [|n p w steps cp c Hn Hcf Hp Hc He Hle Hch IH]; intros c' Hc'.
  - cbn [walk_cost fold_right]. eapply Hpos, Hc'.
  - rewrite walk_cost_snoc. cbn [snd]. specialize (IH cp Hp).
    replace c' with c by congruence. lra.
Qed.

Lemma chain_hits cf cost n steps :
  chain' cf cost n steps ->
  hits cf start (Some n) (length steps) (rev (map fst steps)).
Proof.
  induction 1 as [|n p w steps cp c Hn Hcf Hp Hc He Hle Hch IH]; [constructor|].
  rewrite length_app, map_app, rev_app_distr. cbn.
  rewrite Nat.add_1_r. econstructor; eassumption.
Qed.

Lemma chain_reconstruct cf cost n steps fuel :
  chain' cf cost n steps -> (length steps < fuel)%nat ->
  reconstruct_path fuel cf start n = Return (path_cells start steps).
Proof.
  intros Hch Hf. unfold reconstruct_path.
  rewrite (hits_run cf start _ _ _ (chain_hits _ _ _ _ Hch) fuel [] Hf).
  cbn. rewrite rev_app_distr, rev_involutive. reflexivity.
Qed.

(** A chain all of whose costs lie below that of [nxt] does not pass
    through [nxt], so it outlives an update of [nxt]. *)
Lemma chain_below cf cost nxt pred new n steps :
  (forall m c e, cost !! m = Some c -> e ∈ nbrs m -> (0 <= snd e)%Q) ->
  (forall old, cost !! nxt = Some old -> (new < old)%Q) ->
  chain' cf cost n steps ->
  forall c, cost !! n = Some c -> (c <= new)%Q ->
  chain' (<[nxt := pred]> cf) (<[nxt := new]> cost) n steps.
Proof.
  intros Hw Hlow.
  induction 1 as [|n p w steps cp c Hn Hcf Hp Hc He Hle Hch IH]; intros c' Hc' Hb;
    [constructor|].
  replace c' with c in * by congruence.
  pose proof (Hw p cp (n, w) Hp He) as Hw0. cbn in Hw0.
  assert (n <> nxt).
  { intros ->. specialize (Hlow c Hc). lra. }
  assert (p <> nxt).
  { intros ->. specialize (Hlow cp Hp). lra. }
  econstructor; try eassumption.
  - rewrite lookup_insert_ne by congruence. exact Hcf.
  - rewrite lookup_insert_ne by congruence. exact Hp.
  - rewrite lookup_insert_ne by congruence. exact Hc.
  - apply (IH cp Hp). lra.
Qed.

(** After the update of [nxt] every cell that had a chain has one. *)
Lemma chain_update cf cost nxt cur w cc stepscur m steps :
  nxt <> start -> cur <> nxt ->
  (forall old, cost !! nxt = Some old -> (cc + w < old)%Q) ->
  cost !! cur = Some cc ->
  (nxt, w) ∈ nbrs cur ->
  chain' (<[nxt := Some cur]> cf) (<[nxt := (cc + w)%Q]> cost) cur stepscur ->
  chain' cf cost m steps ->
  exists steps', chain' (<[nxt := Some cur]> cf) (<[nxt := (cc + w)%Q]> cost) m steps'.
Proof.
  intros Hns Hcn Hlow Hcc He Hcur.
  induction 1 as [|n p w' steps cp c Hn Hcf Hp Hc He' Hle Hch IH];
    [eexists; constructor|].
  destruct IH as (stepsp & IH).
  destruct (decide (n = nxt)) as [-> | Hne].
  - exists (stepscur ++ [(nxt, w)]).
    eapply (chain_step nbrs start _ _ nxt cur w stepscur cc (cc + w)%Q);
      try eassumption.
    + apply lookup_insert_eq.
    + rewrite lookup_insert_ne by congruence. exact Hcc.
    + apply lookup_insert_eq.
    + apply Qle_refl.
  - destruct (decide (p = nxt)) as [-> | Hpn].
    + exists (stepsp ++ [(n, w')]).
      eapply (chain_step nbrs start _ _ n nxt w' stepsp (cc + w)%Q c);
        try eassumption.
      * rewrite lookup_insert_ne by congruence. exact Hcf.
      * apply lookup_insert_eq.
      * rewrite lookup_insert_ne by congruence. exact Hc.
      * specialize (Hlow cp Hp). lra.
    + exists (stepsp ++ [(n, w')]).
      eapply (chain_step nbrs start _ _ n p w' stepsp cp c); try eassumption.
      * rewrite lookup_insert_ne by congruence. exact Hcf.
      * rewrite lookup_insert_ne by congruence. exact Hp.
      * rewrite lookup_insert_ne by congruence. exact Hc.
Qed.

(** *** One relaxation *)

Section Improve.

Variables (st : SearchState) (cur : Cell) (cc : Q) (e : Cell * Q).
Hypothesis HI : Inv' st.
Hypothesis Hcc : cost_so_far st !! cur = Some cc.
Hypothesis He : e ∈ nbrs cur.
Hypothesis Hlow :
  cost_so_far st !! fst e = None \/
  exists old, cost_so_far st !! fst e = Some old /\ (cc + snd e < old)%Q.

Local Abbreviation st' := (improve heuristic goal cur cc e st).

Lemma improve_cur_cell : cur ∈ cells.
Proof. eapply inv_cells; eassumption. Qed.

Lemma improve_weight : fst e ∈ cells /\ (0 <= snd e)%Q.
Proof. apply (edge_in_grid cur e improve_cur_cell He). Qed.

Lemma improve_cc : (0 <= cc)%Q.
Proof. eapply inv_nonneg; eassumption. Qed.

Lemma improve_lower old : cost_so_far st !! fst e = Some old -> (cc + snd e < old)%Q.
Proof.
  intros Ho. destruct Hlow as [Hn | (old' & Ho' & Hlt)]; [congruence|].
  replace old with old' by congruence. exact Hlt.
Qed.

Lemma improve_not_start : fst e <> start.
Proof.
  intros Hs. pose proof (inv_start _ _ _ _ _ _ HI) as H0. rewrite <- Hs in H0.
  pose proof (improve_lower _ H0). pose proof improve_cc.
  destruct improve_weight. lra.
Qed.

Lemma improve_not_cur : cur <> fst e.
Proof.
  intros Hs. pose proof Hcc as Hc. rewrite Hs in Hc.
  pose proof (improve_lower _ Hc). destruct improve_weight. lra.
Qed.

Lemma improve_cost_cur : cost_so_far st' !! cur = Some cc.
Proof.
  cbn. rewrite lookup_insert_ne by (intros E; apply improve_not_cur; congruence).
  exact Hcc.
Qed.

Lemma improve_cost_le n c :
  cost_so_far st !! n = Some c ->
  exists c', cost_so_far st' !! n = Some c' /\ (c' <= c)%Q.
Proof.
  intros Hn. cbn. destruct (decide (fst e = n)) as [<- | Hne].
  - rewrite lookup_insert_eq. eexists. split; [reflexivity|].
    apply Qlt_le_weak, improve_lower, Hn.
  - rewrite lookup_insert_ne by exact Hne. exists c. split; [exact Hn | apply Qle_refl].
Qed.

Lemma improve_chain_cur :
  exists steps, chain' (came_from st') (cost_so_far st') cur steps.
Proof.
  destruct (inv_chain _ _ _ _ _ _ HI cur cc Hcc) as (steps & Hch).
  exists steps. cbn.
  eapply (chain_below _ _ (fst e) (Some cur) (cc + snd e)%Q cur steps);
    [| |exact Hch|exact Hcc|].
  - intros m c e' Hm He'. eapply edge_in_grid; [|exact He'].
    eapply inv_cells; eassumption.
  - exact improve_lower.
  - destruct improve_weight. lra.
Qed.

Lemma improve_Inv : Inv' st'.
Proof.
  pose proof improve_not_start as Hns. pose proof improve_not_cur as Hnc.
  destruct improve_weight as [Hcell Hw]. pose proof improve_cc as Hc0.
  constructor.
  - cbn. rewrite lookup_insert_ne by exact Hns. eapply inv_start, HI.
  - intros n c. cbn. destruct (decide (fst e = n)) as [<- | Hne].
    + rewrite lookup_insert_eq. intros [= <-]. lra.
    + rewrite lookup_insert_ne by exact Hne. eapply inv_nonneg, HI.
  - intros n c Hn. destruct improve_chain_cur as (stepscur & Hcur).
    destruct (decide (fst e = n)) as [<- | Hne].
    + exists (stepscur ++ [(fst e, snd e)]). cbn.
      eapply (chain_step nbrs start _ _ (fst e) cur (snd e) stepscur cc (cc + snd e)%Q);
        try eassumption.
      * apply lookup_insert_eq.
      * apply improve_cost_cur.
      * apply lookup_insert_eq.
      * rewrite <- surjective_pairing. exact He.
      * apply Qle_refl.
    + cbn in Hn. rewrite lookup_insert_ne in Hn by exact Hne.
      destruct (inv_chain _ _ _ _ _ _ HI n c Hn) as (steps & Hch).
      eapply (chain_update _ _ (fst e) cur (snd e) cc stepscur n steps);
        try eassumption.
      * exact improve_lower.
      * rewrite <- surjective_pairing. exact He.
  - intros p n Hin. cbn in Hin. apply elem_of_cons in Hin as [[= -> ->] | Hin].
    + cbn. rewrite lookup_insert_eq. eexists. split; [reflexivity|].
      right. apply Qle_refl.
    + destruct (inv_frontier _ _ _ _ _ _ HI p n Hin) as (c & Hc & Hb).
      destruct (improve_cost_le n c Hc) as (c' & Hc' & Hle).
      exists c'. split; [exact Hc'|]. destruct Hb as [-> | Hb]; [left; reflexivity|].
      right. lra.
  - intros c Hc. cbn in Hc. destruct (decide (fst e = goal)) as [Heq | Hne].
    + eexists. cbn. rewrite <- Heq. apply elem_of_cons. left. reflexivity.
    + rewrite lookup_insert_ne in Hc by exact Hne.
      destruct (inv_goal _ _ _ _ _ _ HI c Hc) as (p & Hp).
      exists p. cbn. apply elem_of_cons. right. exact Hp.
  - intros n c. cbn. destruct (decide (fst e = n)) as [<- | Hne].
    + intros _. exact Hcell.
    + rewrite lookup_insert_ne by exact Hne. eapply inv_cells, HI.
  - intros n c. cbn. destruct (decide (fst e = n)) as [<- | Hne].
    + rewrite lookup_insert_eq. intros [= <-].
      destruct (inv_scaled _ _ _ _ _ _ HI cur cc Hcc) as (zc & Hzc).
      destruct (weight_scaled nbrs cells cur e improve_cur_cell He) as (zw & Hzw).
      exists (zc + zw). rewrite inject_Z_plus, <- Hzc, <- Hzw. ring.
    + rewrite lookup_insert_ne by exact Hne. eapply inv_scaled, HI.
Qed.

(** The pair (cells not discovered, sum of the costs) goes down. *)
Lemma improve_measure : lex2 (cost_measure' st') (cost_measure' st).
Proof.
  destruct improve_weight as [Hcell Hw]. pose proof improve_cc as Hc0.
  pose proof improve_Inv as HI'. pose proof improve_lower as Hlo.
  unfold lex2, cost_measure, undiscovered, total_cost. cbn [fst snd].
  destruct (inv_scaled _ _ _ _ _ _ HI' (fst e) (cc + snd e)%Q) as (zn & Hzn);
    [cbn; apply lookup_insert_eq|].
  pose proof (inv_scaled _ _ _ _ _ _ HI (fst e)) as Hsc.
  destruct (cost_so_far st !! fst e) as [old|] eqn:Ho.
  - destruct (Hsc old eq_refl) as (zo & Hzo).
    assert (Hlt : (scaled nbrs cells (cc + snd e) < scaled nbrs cells old)%nat).
    { eapply scaled_lt; [exact Hzn | exact Hzo | lra | apply Hlo; reflexivity]. }
    right. split.
    + apply sum_cells_ext. intros x Hx. cbn.
      destruct (decide (fst e = x)) as [<- | Hne].
      * rewrite lookup_insert_eq, Ho. reflexivity.
      * rewrite lookup_insert_ne by exact Hne. reflexivity.
    + apply (sum_cells_lt cells _ _ (fst e) Hcell).
      * cbn. rewrite lookup_insert_eq, Ho. exact Hlt.
      * intros x Hx. cbn. destruct (decide (fst e = x)) as [<- | Hne].
        -- rewrite lookup_insert_eq, Ho. lia.
        -- rewrite lookup_insert_ne by exact Hne. lia.
  - left. apply (sum_cells_lt cells _ _ (fst e) Hcell).
    + cbn. rewrite lookup_insert_eq, Ho. lia.
    + intros x Hx. cbn. destruct (decide (fst e = x)) as [<- | Hne].
      * rewrite lookup_insert_eq, Ho. lia.
      * rewrite lookup_insert_ne by exact Hne. lia.
Qed.

(** Cells other than the popped one stay open or relaxed. *)
Lemma improve_settled_but : settled_but' cur st -> settled_but' cur st'.
Proof.
  intros HS u cu Hu. cbn in Hu.
  destruct (decide (fst e = u)) as [<- | Hne].
  - rewrite lookup_insert_eq in Hu. injection Hu as <-.
    left. eexists. split; [cbn; apply elem_of_cons; left; reflexivity|].
    left. apply Qle_refl.
  - rewrite lookup_insert_ne in Hu by exact Hne.
    destruct (HS u cu Hu) as [(p & Hp & Hb) | [Hr | ->]].
    + left. exists p. split; [cbn; apply elem_of_cons; right; exact Hp | exact Hb].
    + right. left. intros v w Hvw. destruct (Hr v w Hvw) as (cv & Hcv & Hle).
      destruct (improve_cost_le v cv Hcv) as (cv' & Hcv' & Hle').
      exists cv'. split; [exact Hcv' | lra].
    + right. right. reflexivity.
Qed.

End Improve.

Lemma relax_mid cur cc done st e :
  mid_pass' cur cc done st -> e ∈ nbrs cur ->
  exists st', relax PyInt heuristic goal cur st e = Return st' /\
    mid_pass' cur cc (e :: done) st' /\
    sgrid st' = sgrid st /\
    (st' = st \/ lex2 (cost_measure' st') (cost_measure' st)).
Proof.
  intros (HI & Hcc & HS & Hdone) He.
  unfold relax. rewrite Hcc. cbn [py_add].
  destruct (match cost_so_far st !! fst e with
            | Some old => Qltb (cc + snd e) old
            | None => true
            end) eqn:Hcond.
  - assert (Hlow : cost_so_far st !! fst e = None \/
             exists old, cost_so_far st !! fst e = Some old /\ (cc + snd e < old)%Q).
    { destruct (cost_so_far st !! fst e) as [old|]; [|left; reflexivity].
      right. exists old. split; [reflexivity | apply Qltb_lt, Hcond]. }
    exists (improve heuristic goal cur cc e st). split; [reflexivity|].
    split; [|split; [reflexivity|]].
    + split; [apply improve_Inv; assumption|].
      split; [apply improve_cost_cur; assumption|].
      split; [apply improve_settled_but; assumption|].
      intros e' He'. apply elem_of_cons in He' as [-> | He'].
      * eexists. split; [cbn; apply lookup_insert_eq | apply Qle_refl].
      * destruct (Hdone e' He') as (cv & Hcv & Hle).
        destruct (improve_cost_le st cur cc e Hlow (fst e') cv Hcv) as (cv' & Hcv' & Hle').
        exists cv'. split; [exact Hcv' | lra].
    + right. apply improve_measure; assumption.
  - exists st. split; [reflexivity|]. split; [|split; [reflexivity | left; reflexivity]].
    split; [exact HI|]. split; [exact Hcc|]. split; [exact HS|].
    intros e' He'. apply elem_of_cons in He' as [-> | He']; [|apply Hdone, He'].
    destruct (cost_so_far st !! fst e) as [old|]; [|discriminate].
    exists old. split; [reflexivity | apply Qltb_ge, Hcond].
Qed.

Lemma relax_all_mid cur cc ns : forall done st,
  mid_pass' cur cc done st -> (forall e, e ∈ ns -> e ∈ nbrs cur) ->
  exists st', relax_all PyInt heuristic goal cur st ns = Return st' /\
    mid_pass' cur cc (rev ns ++ done) st' /\
    sgrid st' = sgrid st /\
    (st' = st \/ lex2 (cost_measure' st') (cost_measure' st)).
Proof.
  induction ns as [|e ns IH]; intros done st HM Hns.
  - exists st. cbn. auto.
  - destruct (relax_mid cur cc done st e HM (Hns e ltac:(left)))
      as (st1 & H1 & HM1 & Hg1 & Hm1).
    destruct (IH (e :: done) st1 HM1 (fun x Hx => Hns x ltac:(right; exact Hx)))
      as (st' & H2 & HM2 & Hg2 & Hm2).
    exists st'. cbn. rewrite H1. split; [exact H2|].
    split; [rewrite <- app_assoc; exact HM2|].
    split; [congruence|].
    destruct Hm1 as [-> | Hm1]; [exact Hm2|].
    right. destruct Hm2 as [-> | Hm2]; [exact Hm1|].
    eapply lex2_trans; eassumption.
Qed.

(** *** One pass of the loop *)

Lemma pop_mid st e rest :
  Inv' st -> settled' st ->
  get (frontier st) = Some (e, rest) -> snd e <> goal ->
  exists cc,
    mid_pass' (snd e) cc []
      (mkState rest (came_from st) (cost_so_far st) (addVisited (sgrid st) (snd e))).
Proof.
  intros HI HS Hget Hne.
  destruct (get_Some _ _ _ Hget) as [Hperm _].
  assert (Hin : forall x, x ∈ frontier st <-> x = e \/ x ∈ rest).
  { intros x. rewrite Hperm. apply elem_of_cons. }
  destruct (inv_frontier _ _ _ _ _ _ HI (fst e) (snd e)) as (cc & Hcc & _).
  { apply Hin. left. symmetry. apply surjective_pairing. }
  exists cc. split; [|split; [exact Hcc|split]].
  - constructor; cbn.
    + eapply inv_start, HI.
    + eapply inv_nonneg, HI.
    + eapply inv_chain, HI.
    + intros p n Hp. apply (inv_frontier _ _ _ _ _ _ HI p n). apply Hin. right. exact Hp.
    + intros c Hc. destruct (inv_goal _ _ _ _ _ _ HI c Hc) as (p & Hp).
      apply Hin in Hp as [<- | Hp]; [cbn in Hne; congruence|]. eauto.
    + eapply inv_cells, HI.
    + eapply inv_scaled, HI.
  - intros u cu Hu. cbn in Hu.
    destruct (HS u cu Hu) as [(p & Hp & Hb) | Hr].
    + apply Hin in Hp as [<- | Hp]; [right; right; reflexivity|].
      left. exists p. split; [exact Hp | exact Hb].
    + right. left. exact Hr.
  - intros x Hx. inversion Hx.
Qed.

Lemma mid_settled cur cc st :
  mid_pass' cur cc (rev (nbrs cur)) st -> Inv' st /\ settled' st.
Proof.
  intros (HI & Hcc & HS & Hdone). split; [exact HI|].
  intros u cu Hu. destruct (HS u cu Hu) as [Ho | [Hr | ->]]; [left; exact Ho | right; exact Hr|].
  right. intros v w Hvw. replace cu with cc by congruence.
  apply (Hdone (v, w)). apply list_elem_of_In, in_rev, list_elem_of_In.
  rewrite rev_involutive. exact Hvw.
Qed.

(** *** What the frontier knows about the walks to the goal *)

Lemma frontier_bound st :
  Inv' st -> settled' st -> admissible nbrs heuristic goal ->
  forall u steps t, walk' u steps t -> t = goal ->
  forall cu a, cost_so_far st !! u = Some cu -> (cu <= a)%Q ->
    (exists p n, (p, n) ∈ frontier st /\ (p <= a + walk_cost steps)%Q) \/
    (exists cg, cost_so_far st !! goal = Some cg /\ (cg <= a + walk_cost steps)%Q).
Proof.
  intros HI HS Hadm.
  induction 1 as [u | u e steps t He Hw IH]; intros -> cu a Hu Hle.
  - right. exists cu. split; [exact Hu|]. cbn. lra.
  - assert (Hcell : u ∈ cells) by (eapply inv_cells; eassumption).
    assert (Hcu : (0 <= cu)%Q) by (eapply inv_nonneg; eassumption).
    assert (Hwalk : walk' u (e :: steps) goal) by (econstructor; eassumption).
    destruct (HS u cu Hu) as [(p & Hp & Hb) | Hr].
    + left. exists p, u. split; [exact Hp|].
      destruct Hb as [Hb | [-> Hb]].
      * pose proof (Hadm u _ Hwalk) as Hh. cbn in Hb. lra.
      * pose proof (walk_cost_nonneg _ _ _ Hwalk Hcell). lra.
    + destruct (Hr (fst e) (snd e)) as (cv & Hcv & Hlev).
      { rewrite <- surjective_pairing. exact He. }
      destruct (IH eq_refl cv (a + snd e)%Q Hcv ltac:(lra)) as [(p & n & Hp & Hb) | (cg & Hcg & Hb)].
      * left. exists p, n. split; [exact Hp|].
        cbn [walk_cost fold_right]. fold (walk_cost steps). lra.
      * right. exists cg. split; [exact Hcg|].
        cbn [walk_cost fold_right]. fold (walk_cost steps). lra.
Qed.

(** With an empty frontier every cell a walk from a discovered cell leads
    to is discovered. *)
Lemma empty_frontier_closed st :
  settled' st -> frontier st = [] ->
  forall u steps t, walk' u steps t ->
  forall cu, cost_so_far st !! u = Some cu -> is_Some (cost_so_far st !! t).
Proof.
  intros HS Hemp. induction 1 as [u | u e steps t He Hw IH]; intros cu Hu; [eauto|].
  destruct (HS u cu Hu) as [(p & Hp & _) | Hr].
  - rewrite Hemp in Hp. inversion Hp.
  - destruct (Hr (fst e) (snd e)) as (cv & Hcv & _).
    { rewrite <- surjective_pairing. exact He. }
    eapply IH, Hcv.
Qed.

(** *** The pass that pops the goal *)

Lemma goal_popped st e rest :
  Inv' st -> settled' st ->
  get (frontier st) = Some (e, rest) -> snd e = goal ->
  exists steps,
    chain' (came_from st) (cost_so_far st) goal steps /\
    walk' start steps goal /\
    (admissible nbrs heuristic goal -> (0 <= heuristic goal goal)%Q ->
     forall steps', walk' start steps' goal ->
       (walk_cost steps <= walk_cost steps')%Q).
Proof.
  intros HI HS Hget Hgoal.
  destruct (get_Some _ _ _ Hget) as [Hperm Hmin].
  assert (He : e ∈ frontier st) by (rewrite Hperm; left).
  destruct (inv_frontier _ _ _ _ _ _ HI (fst e) (snd e)) as (cg & Hcg & Hb).
  { rewrite <- surjective_pairing. exact He. }
  rewrite Hgoal in Hcg, Hb.
  destruct (inv_chain _ _ _ _ _ _ HI goal cg Hcg) as (steps & Hch).
  exists steps. split; [exact Hch|]. split; [eapply chain_walk, Hch|].
  intros Hadm Hh steps' Hw'.
  pose proof (chain_cost _ _ _ _ (inv_nonneg _ _ _ _ _ _ HI) Hch cg Hcg) as Hcost.
  pose proof (inv_start _ _ _ _ _ _ HI) as Hs0.
  assert (Hstart : start ∈ cells) by (eapply inv_cells; eassumption).
  pose proof (walk_cost_nonneg _ _ _ Hw' Hstart) as Hpos.
  destruct (frontier_bound st HI HS Hadm start steps' goal Hw' eq_refl 0%Q 0%Q Hs0
              ltac:(apply Qle_refl)) as [(p & n & Hp & Hle) | (cg' & Hcg' & Hle)].
  - pose proof (Hmin _ Hp) as Hpm. cbn in Hpm.
    destruct Hb as [Hgs | Hb].
    + rewrite Hgs, Hs0 in Hcg. injection Hcg as <-. lra.
    + cbn in Hb. lra.
  - replace cg' with cg in Hle by congruence. lra.
Qed.

(** *** The loop *)

Lemma astar_loop_spec : forall st,
  Inv' st -> settled' st ->
  (forall c, getNeighbors neighbors_of (sgrid st) c = nbrs c) ->
  exists fuel0, forall fuel, (fuel0 <= fuel)%nat ->
    (astar_loop PyInt neighbors_of heuristic fuel start goal st = Raise NoPathFound /\
     ~ reachable nbrs start goal) \/
    (exists steps g',
       astar_loop PyInt neighbors_of heuristic fuel start goal st = Return g' /\
       getPath g' = path_cells start steps /\
       walk' start steps goal /\
       (admissible nbrs heuristic goal -> (0 <= heuristic goal goal)%Q ->
        forall steps', walk' start steps' goal ->
          (walk_cost steps <= walk_cost steps')%Q)).
Proof.
  intros st. remember (loop_measure' st) as m eqn:Hm. revert st Hm.
  induction m as [m IH] using (well_founded_induction lex3_wf).
  intros st -> HI HS HW.
  destruct (get (frontier st)) as [[e rest]|] eqn:Hget.
  - destruct (decide (snd e = goal)) as [Hgoal | Hne].
    + destruct (goal_popped st e rest HI HS Hget Hgoal) as (steps & Hch & Hwalk & Hopt).
      exists (S (S (length steps))). intros fuel Hf.
      destruct fuel as [|fuel]; [lia|]. right.
      exists steps. eexists. rewrite astar_loop_unfold, Hget. cbv zeta.
      rewrite decide_True by exact Hgoal. cbn [came_from sgrid].
      rewrite (chain_reconstruct _ _ _ _ fuel Hch) by lia.
      split; [reflexivity|]. split; [reflexivity|]. split; assumption.
    + destruct (pop_mid st e rest HI HS Hget Hne) as (cc & HM).
      destruct (relax_all_mid (snd e) cc (nbrs (snd e)) [] _ HM (fun x Hx => Hx))
        as (st2 & Hrel & HM2 & Hg2 & Hmeas).
      rewrite app_nil_r in HM2. apply mid_settled in HM2 as [HI2 HS2].
      destruct (get_Some _ _ _ Hget) as [Hperm _].
      destruct (IH (loop_measure' st2)) with (st := st2) as (fuel0 & Hfuel0);
        [|reflexivity|exact HI2|exact HS2| |].
      * unfold lex3, loop_measure. cbn [fst snd].
        destruct Hmeas as [-> | Hlt].
        -- right. split; [reflexivity|]. cbn. rewrite Hperm. cbn. lia.
        -- left. exact Hlt.
      * intros c. rewrite Hg2. apply HW.
      * exists (S fuel0). intros fuel Hf. destruct fuel as [|fuel]; [lia|].
        rewrite astar_loop_unfold, Hget. cbv zeta.
        rewrite decide_False by exact Hne.
        change (getNeighbors neighbors_of
                  (sgrid (mkState rest (came_from st) (cost_so_far st)
                                  (addVisited (sgrid st) (snd e)))) (snd e))
          with (getNeighbors neighbors_of (sgrid st) (snd e)).
        rewrite HW, Hrel. apply Hfuel0. lia.
  - exists 1%nat. intros fuel Hf. destruct fuel as [|fuel]; [lia|]. left.
    rewrite astar_loop_unfold, Hget. split; [reflexivity|].
    intros (steps & Hw). apply get_None in Hget.
    destruct (empty_frontier_closed st HS Hget start steps goal Hw 0%Q
                (inv_start _ _ _ _ _ _ HI)) as (cg & Hcg).
    destruct (inv_goal _ _ _ _ _ _ HI cg Hcg) as (p & Hp).
    rewrite Hget in Hp. inversion Hp.
Qed.

(** *** The state the loop starts from *)

Lemma init_state_Inv g : Inv' (init_state g start) /\ settled' (init_state g start).
Proof.
  split.
  - constructor; cbn.
    + apply lookup_insert_eq.
    + intros n c Hn. apply lookup_insert_Some in Hn as [[_ <-] | [_ Hn]];
        [apply Qle_refl | rewrite lookup_empty in Hn; discriminate].
    + intros n c Hn. apply lookup_insert_Some in Hn as [[<- _] | [_ Hn]];
        [eexists; constructor | rewrite lookup_empty in Hn; discriminate].
    + intros p n Hp. apply list_elem_of_singleton in Hp as [= -> ->].
      exists 0%Q. split; [apply lookup_insert_eq | left; reflexivity].
    + intros c Hn. apply lookup_insert_Some in Hn as [[<- _] | [_ Hn]];
        [|rewrite lookup_empty in Hn; discriminate].
      exists 0%Q. left.
    + intros n c Hn. apply lookup_insert_Some in Hn as [[<- _] | [_ Hn]];
        [apply Hfin | rewrite lookup_empty in Hn; discriminate].
    + intros n c Hn. apply lookup_insert_Some in Hn as [[_ <-] | [_ Hn]];
        [|rewrite lookup_empty in Hn; discriminate].
      exists 0. ring.
  - intros u cu Hu. cbn in Hu.
    apply lookup_insert_Some in Hu as [[<- <-] | [_ Hu]];
      [|rewrite lookup_empty in Hu; discriminate].
    left. exists 0%Q. split; [cbn; left|]. right. split; [reflexivity | apply Qle_refl].
Qed.

End AstarProof.

Lemma existsb_cell_eqb c cells : existsb (cell_eqb c) cells = true -> c ∈ cells.
Proof.
  intros H. apply existsb_exists in H as (x & Hx & He).
  apply list_elem_of_In. unfold cell_eqb in He.
  apply andb_prop in He as [H1 H2]. apply Z.eqb_eq in H1, H2.
  destruct c, x. cbn in *. subst. exact Hx.
Qed.

Lemma finite_grid_check_sound nbrs start cells :
  finite_grid_check nbrs start cells = true -> finite_grid nbrs start cells.
Proof.
  unfold finite_grid_check. intros H. apply andb_prop in H as [Hs Hc].
  split; [apply existsb_cell_eqb, Hs|].
  intros c e Hcin Hein. rewrite forallb_forall in Hc.
  specialize (Hc c ltac:(apply list_elem_of_In; exact Hcin)).
  rewrite forallb_forall in Hc.
  specialize (Hc e ltac:(apply list_elem_of_In; exact Hein)).
  apply andb_prop in Hc as [H1 H2].
  split; [apply existsb_cell_eqb, H1 | apply Qle_bool_iff, H2].
Qed.

(** A walk from a cell of a finite grid stays in the grid. *)
Lemma walk_in_grid nbrs start cells u steps t :
  finite_grid nbrs start cells -> walk nbrs u steps t -> u ∈ cells -> t ∈ cells.
Proof.
  intros Hfin. induction 1 as [u | u e steps t He Hw IH]; intros Hu; [exact Hu|].
  apply IH. apply (proj2 Hfin u e Hu He).
Qed.

(** *** Fuel *)

Lemma reconstruct_loop_fuel cf start fuel : forall cur path fuel' r,
  reconstruct_loop fuel cf start cur path = r -> r <> OutOfFuel ->
  (fuel <= fuel')%nat -> reconstruct_loop fuel' cf start cur path = r.
Proof.
  induction fuel as [|fuel IH]; intros cur path fuel' r H Hr Hle;
    [cbn in H; congruence|].
  destruct fuel' as [|fuel']; [lia|]. cbn in *.
  destruct (decide (cur = Some start)); [exact H|].
  destruct cur as [c|]; [|exact H].
  destruct (cf !! c) as [prev|]; [|exact H].
  apply (IH _ _ _ _ H Hr). lia.
Qed.

Lemma astar_loop_fuel num neighbors_of heuristic start goal fuel : forall st fuel' r,
  astar_loop num neighbors_of heuristic fuel start goal st = r -> r <> OutOfFuel ->
  (fuel <= fuel')%nat ->
  astar_loop num neighbors_of heuristic fuel' start goal st = r.
Proof.
  induction fuel as [|fuel IH]; intros st fuel' r H Hr Hle;
    [cbn in H; congruence|].
  destruct fuel' as [|fuel']; [lia|]. cbn in *.
  destruct (get (frontier st)) as [[e rest]|]; [|exact H].
  destruct (decide (snd e = goal)).
  - destruct (reconstruct_path fuel (came_from st) start goal) as [p| |] eqn:Hp;
      [| |congruence].
    + unfold reconstruct_path in *.
      rewrite (reconstruct_loop_fuel _ _ _ _ _ fuel' _ Hp) by (congruence || lia).
      exact H.
    + unfold reconstruct_path in *.
      rewrite (reconstruct_loop_fuel _ _ _ _ _ fuel' _ Hp) by (congruence || lia).
      exact H.
  - destruct (relax_all num heuristic goal (snd e) _ _) as [st2| |]; [|exact H..].
    apply (IH _ _ _ H Hr). lia.
Qed.

(** ** Rounding to binary64 *)

Lemma round_half_even_bounds t :
  Qfloor t <= round_half_even t <= Qfloor t + 1.
Proof.
  unfold round_half_even. cbv zeta.
  destruct (t - inject_Z (Qfloor t) ?= 1 # 2)%Q; [destruct (Z.even _)| |]; lia.
Qed.

Lemma round_half_even_ge (k : Z) t : (inject_Z k <= t)%Q -> k <= round_half_even t.
Proof.
  intros H. pose proof (round_half_even_bounds t).
  apply Qfloor_resp_le in H. rewrite Qfloor_Z in H. lia.
Qed.

Lemma round_half_even_le (k : Z) t : (t < inject_Z k)%Q -> round_half_even t <= k.
Proof.
  intros H. pose proof (round_half_even_bounds t).
  assert (Qfloor t < k); [|lia].
  apply Z.lt_nge. intros Hk. apply (Qlt_not_le _ _ H).
  eapply Qle_trans; [|apply Qfloor_le]. rewrite <- Zle_Qle. exact Hk.
Qed.


Lemma sig_shift_nonneg n : 0 <= sig_shift n.
Proof. unfold sig_shift. lia. Qed.

Lemma sig_shift_mono a b : a <= b -> sig_shift a <= sig_shift b.
Proof. intros H. unfold sig_shift. pose proof (Z.log2_le_mono a b H). lia. Qed.

(** Scaling by a positive integer. *)
Lemma scaled_ge (k P : Z) t :
  0 < P -> (inject_Z (k * P) <= t)%Q -> k <= round_half_even (t / inject_Z P).
Proof.
  intros HP H. apply round_half_even_ge. apply Qle_shift_div_l.
  - rewrite <- (Zlt_Qlt 0). exact HP.
  - rewrite <- inject_Z_mult. exact H.
Qed.

Lemma scaled_le (k P : Z) t :
  0 < P -> (t < inject_Z (k * P))%Q -> round_half_even (t / inject_Z P) <= k.
Proof.
  intros HP H. apply round_half_even_le. apply Qlt_shift_div_r.
  - rewrite <- (Zlt_Qlt 0). exact HP.
  - rewrite <- inject_Z_mult. exact H.
Qed.

Lemma floor_lt_succ t : (t < inject_Z (Qfloor t + 1))%Q.
Proof. apply Qlt_floor. Qed.

(** A value with at most 53 significant bits below [t] is below what [t]
    is rounded to. *)
Lemma round_sig_ge (X : Z) t :
  0 <= X -> (2 ^ sig_shift X | X) -> (inject_Z X <= t)%Q -> X <= round_sig t.
Proof.
  intros HX [k Hk] Ht. unfold round_sig. cbv zeta.
  set (n := Qfloor t).
  assert (Hn : X <= n).
  { unfold n. apply Qfloor_resp_le in Ht. rewrite Qfloor_Z in Ht. exact Ht. }
  pose proof (sig_shift_mono X n Hn) as Hj.
  pose proof (sig_shift_nonneg X) as Hjx.
  assert (HP : 0 < 2 ^ sig_shift n) by (apply Z.pow_pos_nonneg; lia).
  destruct (Z.eq_dec (sig_shift X) (sig_shift n)) as [E | E].
  - rewrite E in Hk.
    assert (k <= round_half_even (t / inject_Z (2 ^ sig_shift n))).
    { apply scaled_ge; [exact HP|]. rewrite <- Hk. exact Ht. }
    rewrite Hk at 1. apply Z.mul_le_mono_nonneg_r; lia.
  - assert (Hlt : sig_shift X < sig_shift n) by lia.
    unfold sig_shift in Hlt, HP |- *.
    assert (Hlog : Z.log2 X < Z.log2 n) by lia.
    assert (Hj52 : Z.max 0 (Z.log2 n - 52) = Z.log2 n - 52) by lia.
    rewrite Hj52 in *.
    assert (Hn0 : 0 < n).
    { destruct (Z.lt_trichotomy 0 n) as [?|[<-|?]]; [assumption| |lia].
      cbn in Hlog. pose proof (Z.log2_nonneg X). lia. }
    pose proof (Z.log2_spec n Hn0) as [Hlo _].
    assert (Hsplit : 2 ^ Z.log2 n = 2 ^ 52 * 2 ^ (Z.log2 n - 52)).
    { rewrite <- Z.pow_add_r by lia. f_equal. lia. }
    assert (2 ^ 52 <= round_half_even (t / inject_Z (2 ^ (Z.log2 n - 52)))).
    { apply scaled_ge; [exact HP|]. rewrite <- Hsplit.
      eapply Qle_trans; [|apply Qfloor_le]. rewrite <- Zle_Qle. exact Hlo. }
    assert (X < 2 ^ Z.log2 n).
    { destruct (Z.eq_dec X 0) as [-> | HX0]; [lia|].
      pose proof (Z.log2_spec X ltac:(lia)) as [_ Hhi].
      eapply Z.lt_le_trans; [exact Hhi|].
      apply Z.pow_le_mono_r; lia. }
    rewrite Hsplit in H0.
    assert (2 ^ 52 * 2 ^ (Z.log2 n - 52)
            <= round_half_even (t / inject_Z (2 ^ (Z.log2 n - 52))) * 2 ^ (Z.log2 n - 52))
      by (apply Z.mul_le_mono_nonneg_r; lia).
    lia.
Qed.

Lemma round_sig_nonneg t : (0 <= t)%Q -> 0 <= round_sig t.
Proof.
  intros H. apply (round_sig_ge 0 t); [lia | apply Z.divide_0_r | exact H].
Qed.

(** What [round_sig] yields has at most 53 significant bits. *)
Lemma round_sig_double t :
  (0 <= t)%Q -> (2 ^ sig_shift (round_sig t) | round_sig t).
Proof.
  intros Ht. pose proof (round_sig_nonneg t Ht) as HR0. revert HR0.
  unfold round_sig. cbv zeta.
  set (n := Qfloor t). set (j := sig_shift n).
  set (m := round_half_even (t / inject_Z (2 ^ j))). intros HR0.
  assert (Hn0 : 0 <= n).
  { unfold n. apply Qfloor_resp_le in Ht. exact Ht. }
  assert (Hj : 0 <= j) by apply sig_shift_nonneg.
  assert (HP : 0 < 2 ^ j) by (apply Z.pow_pos_nonneg; lia).
  assert (Hm : m <= 2 ^ 53).
  { unfold m. apply scaled_le; [exact HP|].
    eapply Qlt_le_trans; [apply (floor_lt_succ t)|]. fold n.
    rewrite <- Zle_Qle. rewrite <- Z.pow_add_r by lia.
    destruct (Z.eq_dec n 0) as [E | E].
    - rewrite E. transitivity (2 ^ 0); [cbn; lia|].
      apply Z.pow_le_mono_r; lia.
    - pose proof (Z.log2_spec n ltac:(lia)) as [_ Hhi].
      assert (2 ^ Z.succ (Z.log2 n) <= 2 ^ (53 + j)); [|lia].
      apply Z.pow_le_mono_r; [lia|]. unfold j, sig_shift. lia. }
  assert (Hm0 : 0 <= m) by nia.
  destruct (Z.eq_dec m (2 ^ 53)) as [E | E].
  - rewrite E. rewrite <- Z.pow_add_r by lia.
    unfold sig_shift. rewrite Z.log2_pow2 by lia.
    replace (Z.max 0 (53 + j - 52)) with (j + 1) by lia.
    exists (2 ^ 52). rewrite <- Z.pow_add_r by lia. f_equal. lia.
  - assert (Hlt : m * 2 ^ j < 2 ^ (53 + j)).
    { rewrite Z.pow_add_r by lia. apply Z.mul_lt_mono_pos_r; lia. }
    assert (Hs : sig_shift (m * 2 ^ j) <= j).
    { unfold sig_shift. destruct (Z.eq_dec (m * 2 ^ j) 0) as [-> | H0]; [cbn; lia|].
      assert (Z.log2 (m * 2 ^ j) < 53 + j); [|lia].
      apply Z.log2_lt_pow2; lia. }
    pose proof (sig_shift_nonneg (m * 2 ^ j)).
    exists (m * 2 ^ (j - sig_shift (m * 2 ^ j))).
    rewrite <- Z.mul_assoc, <- Z.pow_add_r by lia. do 2 f_equal. lia.
Qed.

Lemma round64_nonneg_eq q :
  (0 <= q)%Q ->
  (round64 q == inject_Z (Z.min (2 ^ 2098) (round_sig (q * inject_Z (2 ^ 1074))))
                / inject_Z (2 ^ 1074))%Q.
Proof.
  intros H. unfold round64. apply Qle_bool_iff in H. rewrite H.
  apply Qred_correct.
Qed.

Lemma two_1074_pos : (0 < inject_Z (2 ^ 1074))%Q.
Proof. rewrite <- (Zlt_Qlt 0). apply Z.pow_pos_nonneg; lia. Qed.

Lemma round64_double q : (0 <= q)%Q -> double (round64 q).
Proof.
  intros H. pose proof (round64_nonneg_eq q H) as E.
  assert (Ht : (0 <= q * inject_Z (2 ^ 1074))%Q).
  { apply Qmult_le_0_compat; [exact H | apply Qlt_le_weak, two_1074_pos]. }
  pose proof (round_sig_nonneg _ Ht) as H0.
  pose proof (round_sig_double _ Ht) as Hd.
  exists (Z.min (2 ^ 2098) (round_sig (q * inject_Z (2 ^ 1074)))).
  split; [exact E|].
  assert (0 < 2 ^ 2098) by (apply Z.pow_pos_nonneg; lia).
  split; [lia|].
  destruct (Z.min_spec (2 ^ 2098) (round_sig (q * inject_Z (2 ^ 1074))))
    as [[_ ->] | [_ ->]]; [|exact Hd].
  unfold sig_shift. rewrite Z.log2_pow2 by lia.
  replace (Z.max 0 (2098 - 52)) with 2046 by lia.
  exists (2 ^ 52). rewrite <- Z.pow_add_r by lia. reflexivity.
Qed.

Lemma double_nonneg c : double c -> (0 <= c)%Q.
Proof.
  intros (X & E & [H0 _] & _). rewrite E.
  apply Qle_shift_div_l; [apply two_1074_pos|].
  rewrite Qmult_0_l. rewrite <- (Zle_Qle 0). exact H0.
Qed.

Lemma round64_nonneg q : (0 <= q)%Q -> (0 <= round64 q)%Q.
Proof. intros H. apply double_nonneg, round64_double, H. Qed.

(** A double below [b] is below what [b] is rounded to. *)
Lemma round64_ge a b : double a -> (a <= b)%Q -> (a <= round64 b)%Q.
Proof.
  intros Ha Hab. pose proof (double_nonneg a Ha) as Ha0.
  destruct Ha as (X & E & [H0 HT] & Hd).
  assert (Hb : (0 <= b)%Q) by (eapply Qle_trans; eassumption).
  rewrite (round64_nonneg_eq b Hb), E.
  apply Qmult_le_compat_r; [|apply Qlt_le_weak, Qinv_lt_0_compat, two_1074_pos].
  rewrite <- Zle_Qle. apply Z.min_glb; [exact HT|].
  apply round_sig_ge; [exact H0 | exact Hd|].
  rewrite E in Hab. pose proof two_1074_pos as HS.
  apply Qle_trans with (inject_Z X / inject_Z (2 ^ 1074) * inject_Z (2 ^ 1074))%Q.
  - apply Qle_lteq. right. field.
    intros H. rewrite H in HS. apply (Qlt_irrefl _ HS).
  - apply Qmult_le_compat_r; [exact Hab | apply Qlt_le_weak, HS].
Qed.

Lemma double_0 : double 0.
Proof.
  exists 0. split; [reflexivity|]. split; [split; [lia | apply Z.pow_nonneg; lia]|].
  apply Z.divide_0_r.
Qed.

Lemma double_ticks c : double c ->
  exists z, (c * inject_Z (2 ^ 1074) == inject_Z z)%Q.
Proof.
  intros (X & E & _). exists X. rewrite E. field.
  intros H. pose proof two_1074_pos. rewrite H in H0. apply (Qlt_irrefl _ H0).
Qed.

(** ** The costs a search can store *)

Lemma storable_0 num nbrs cells : storable num nbrs cells 0.
Proof.
  split; [apply Qle_refl|]. destruct num; [exists 0; ring | apply double_0].
Qed.

Lemma storable_add num nbrs cells a c e :
  storable num nbrs cells a -> c ∈ cells -> e ∈ nbrs c -> (0 <= snd e)%Q ->
  storable num nbrs cells (py_add num a (snd e)).
Proof.
  intros [Ha0 Ha] Hc He Hw. destruct num; cbn [py_add].
  - split; [lra|]. destruct Ha as (za & Hza).
    destruct (weight_scaled nbrs cells c e Hc He) as (zw & Hzw).
    exists (za + zw). rewrite inject_Z_plus, <- Hza, <- Hzw. ring.
  - assert (H0 : (0 <= a + snd e)%Q) by lra.
    split; [apply round64_nonneg, H0 | apply round64_double, H0].
Qed.

Lemma storable_le_add num nbrs cells a w :
  storable num nbrs cells a -> (0 <= w)%Q -> (a <= py_add num a w)%Q.
Proof.
  intros [Ha0 Ha] Hw. destruct num; cbn [py_add]; [lra|].
  apply round64_ge; [exact Ha | lra].
Qed.

Lemma cost_den_pos num nbrs cells : 0 < cost_den num nbrs cells.
Proof.
  destruct num; cbn [cost_den]; [apply weight_den_pos | apply Z.pow_pos_nonneg; lia].
Qed.

Lemma storable_scaled num nbrs cells c :
  storable num nbrs cells c ->
  exists z, (c * inject_Z (cost_den num nbrs cells) == inject_Z z)%Q.
Proof.
  intros [_ H]. destruct num; cbn [cost_den]; [exact H | apply double_ticks, H].
Qed.

Lemma ticks_lt num nbrs cells a b :
  storable num nbrs cells a -> storable num nbrs cells b -> (a < b)%Q ->
  (ticks (cost_den num nbrs cells) a < ticks (cost_den num nbrs cells) b)%nat.
Proof.
  intros Ha Hb Hlt. pose proof (proj1 Ha) as H0.
  destruct (storable_scaled _ _ _ _ Ha) as (za & Hza).
  destruct (storable_scaled _ _ _ _ Hb) as (zb & Hzb).
  unfold ticks. rewrite Hza, Hzb, !Qfloor_Z.
  pose proof (cost_den_pos num nbrs cells) as HD.
  assert (HDq : (0 < inject_Z (cost_den num nbrs cells))%Q)
    by (rewrite <- (Zlt_Qlt 0); exact HD).
  assert (0 <= za).
  { rewrite Zle_Qle, <- Hza. apply Qmult_le_0_compat; [exact H0 | apply Qlt_le_weak, HDq]. }
  assert (za < zb).
  { rewrite Zlt_Qlt, <- Hza, <- Hzb. apply Qmult_lt_compat_r; assumption. }
  lia.
Qed.

(** ** astar, for exact and for rounded sums: it ends, and it finds the goal
       when there is a way *)

Section Termination.

Variable num : Number.
Variable neighbors_of : Z -> Z -> list Coord -> Cell -> list (Cell * Q).
Variable nbrs : Cell -> list (Cell * Q).
Variable heuristic : Cell -> Cell -> Q.
Variables start goal : Cell.
Variable cells : list Cell.
Hypothesis Hfin : finite_grid nbrs start cells.

Local Abbreviation Sound' := (Sound num nbrs start goal cells).
Local Abbreviation link' := (link nbrs start).
Local Abbreviation storable' := (storable num nbrs cells).
Local Abbreviation den := (cost_den num nbrs cells).
Local Abbreviation measure' := (run_measure den cells).
Local Abbreviation closed_but' := (closed_but nbrs).
Local Abbreviation in_pass' := (in_pass num nbrs start goal cells).

(** *** Links of predecessors *)

Lemma link_walk cf cost n steps : link' cf cost n steps -> walk nbrs start steps n.
Proof.
  induction 1 as [|n p w steps cp c Hn Hcf Hp Hc He Hle Hl IH]; [constructor|].
  apply (walk_snoc nbrs start steps p (n, w) IH He).
Qed.

Lemma link_hits cf cost n steps :
  link' cf cost n steps ->
  hits cf start (Some n) (length steps) (rev (map fst steps)).
Proof.
  induction 1 as [|n p w steps cp c Hn Hcf Hp Hc He Hle Hl IH]; [constructor|].
  rewrite length_app, map_app, rev_app_distr. cbn.
  rewrite Nat.add_1_r. econstructor; eassumption.
Qed.

Lemma link_reconstruct cf cost n steps fuel :
  link' cf cost n steps -> (length steps < fuel)%nat ->
  reconstruct_path fuel cf start n = Return (path_cells start steps).
Proof.
  intros Hl Hf. unfold reconstruct_path.
  rewrite (hits_run cf start _ _ _ (link_hits _ _ _ _ Hl) fuel [] Hf).
  cbn. rewrite rev_app_distr, rev_involutive. reflexivity.
Qed.

(** The costs along a link do not exceed that of its end, so a link whose
    end costs no more than the new cost of [nxt] does not pass through
    [nxt] and outlives the update. *)
Lemma link_below cf cost nxt pred new n steps :
  (forall old, cost !! nxt = Some old -> (new < old)%Q) ->
  link' cf cost n steps ->
  forall c, cost !! n = Some c -> (c <= new)%Q ->
  link' (<[nxt := pred]> cf) (<[nxt := new]> cost) n steps.
Proof.
  intros Hlow.
  induction 1 as [|n p w steps cp c Hn Hcf Hp Hc He Hle Hl IH]; intros c' Hc' Hb;
    [constructor|].
  replace c' with c in * by congruence.
  assert (n <> nxt).
  { intros ->. specialize (Hlow c Hc). lra. }
  assert (p <> nxt).
  { intros ->. specialize (Hlow cp Hp). lra. }
  eapply (link_step nbrs start _ _ n p w steps cp c); try eassumption.
  - rewrite lookup_insert_ne by congruence. exact Hcf.
  - rewrite lookup_insert_ne by congruence. exact Hp.
  - rewrite lookup_insert_ne by congruence. exact Hc.
  - apply (IH cp Hp). lra.
Qed.

(** After the update of [nxt] every cell that had a link has one. *)
Lemma link_update cf cost nxt cur w cc new stepscur m steps :
  nxt <> start -> cur <> nxt ->
  (forall old, cost !! nxt = Some old -> (new < old)%Q) ->
  cost !! cur = Some cc -> (cc <= new)%Q ->
  (nxt, w) ∈ nbrs cur ->
  link' (<[nxt := Some cur]> cf) (<[nxt := new]> cost) cur stepscur ->
  link' cf cost m steps ->
  exists steps', link' (<[nxt := Some cur]> cf) (<[nxt := new]> cost) m steps'.
Proof.
  intros Hns Hcn Hlow Hcc Hge He Hcur.
  induction 1 as [|n p w' steps cp c Hn Hcf Hp Hc He' Hle Hl IH];
    [eexists; constructor|].
  destruct IH as (stepsp & IH).
  destruct (decide (n = nxt)) as [-> | Hne].
  - exists (stepscur ++ [(nxt, w)]).
    eapply (link_step nbrs start _ _ nxt cur w stepscur cc new); try eassumption.
    + apply lookup_insert_eq.
    + rewrite lookup_insert_ne by congruence. exact Hcc.
    + apply lookup_insert_eq.
  - destruct (decide (p = nxt)) as [-> | Hpn].
    + exists (stepsp ++ [(n, w')]).
      eapply (link_step nbrs start _ _ n nxt w' stepsp new c); try eassumption.
      * rewrite lookup_insert_ne by congruence. exact Hcf.
      * apply lookup_insert_eq.
      * rewrite lookup_insert_ne by congruence. exact Hc.
      * specialize (Hlow cp Hp). lra.
    + exists (stepsp ++ [(n, w')]).
      eapply (link_step nbrs start _ _ n p w' stepsp cp c); try eassumption.
      * rewrite lookup_insert_ne by congruence. exact Hcf.
      * rewrite lookup_insert_ne by congruence. exact Hp.
      * rewrite lookup_insert_ne by congruence. exact Hc.
Qed.

(** *** One relaxation that writes *)

Section Write.

Variables (st : SearchState) (cur : Cell) (cc : Q) (e : Cell * Q).
Hypothesis HS : Sound' st.
Hypothesis Hcc : cost_so_far st !! cur = Some cc.
Hypothesis He : e ∈ nbrs cur.
Hypothesis Hlow :
  cost_so_far st !! fst e = None \/
  exists old, cost_so_far st !! fst e = Some old /\ (py_add num cc (snd e) < old)%Q.

Local Abbreviation new := (py_add num cc (snd e)).
Local Abbreviation st' :=
  (mkState (put (py_add num new (heuristic (fst e) goal), fst e) (frontier st))
           (<[fst e := Some cur]> (came_from st))
           (<[fst e := new]> (cost_so_far st))
           (sgrid st)).

Lemma write_cur_cell : cur ∈ cells.
Proof. eapply sd_cells; eassumption. Qed.

Lemma write_edge : fst e ∈ cells /\ (0 <= snd e)%Q.
Proof. apply (proj2 Hfin cur e write_cur_cell He). Qed.

Lemma write_cc : storable' cc.
Proof. eapply sd_storable; eassumption. Qed.

Lemma write_new : storable' new.
Proof.
  eapply storable_add; [apply write_cc | apply write_cur_cell | exact He|].
  apply write_edge.
Qed.

Lemma write_ge : (cc <= new)%Q.
Proof. apply (storable_le_add num nbrs cells); [apply write_cc | apply write_edge]. Qed.

Lemma write_lower old : cost_so_far st !! fst e = Some old -> (new < old)%Q.
Proof.
  intros Ho. destruct Hlow as [Hn | (old' & Ho' & Hlt)]; [congruence|].
  replace old with old' by congruence. exact Hlt.
Qed.

Lemma write_not_start : fst e <> start.
Proof.
  intros Hs. pose proof (sd_start _ _ _ _ _ _ HS) as H0. rewrite <- Hs in H0.
  pose proof (write_lower _ H0). pose proof (proj1 write_new). lra.
Qed.

Lemma write_not_cur : cur <> fst e.
Proof.
  intros Hs. pose proof Hcc as Hc. rewrite Hs in Hc.
  pose proof (write_lower _ Hc). pose proof write_ge. lra.
Qed.

Lemma write_cost_cur : cost_so_far st' !! cur = Some cc.
Proof.
  cbn. rewrite lookup_insert_ne by (intros E; apply write_not_cur; congruence).
  exact Hcc.
Qed.

Lemma write_keeps n : is_Some (cost_so_far st !! n) -> is_Some (cost_so_far st' !! n).
Proof.
  intros Hn. cbn. destruct (decide (fst e = n)) as [<- | Hne].
  - rewrite lookup_insert_eq. eauto.
  - rewrite lookup_insert_ne by exact Hne. exact Hn.
Qed.

Lemma write_link_cur : exists steps, link' (came_from st') (cost_so_far st') cur steps.
Proof.
  destruct (sd_link _ _ _ _ _ _ HS cur cc Hcc) as (steps & Hl).
  exists steps. cbn.
  eapply (link_below _ _ (fst e) (Some cur) new cur steps);
    [exact write_lower | exact Hl | exact Hcc | exact write_ge].
Qed.

Lemma write_Sound : Sound' st'.
Proof.
  pose proof write_not_start as Hns. pose proof write_not_cur as Hnc.
  destruct write_edge as [Hcell Hw].
  constructor.
  - cbn. rewrite lookup_insert_ne by exact Hns. eapply sd_start, HS.
  - intros n c. cbn. destruct (decide (fst e = n)) as [<- | Hne].
    + rewrite lookup_insert_eq. intros [= <-]. apply write_new.
    + rewrite lookup_insert_ne by exact Hne. eapply sd_storable, HS.
  - intros n c. cbn. destruct (decide (fst e = n)) as [<- | Hne].
    + intros _. exact Hcell.
    + rewrite lookup_insert_ne by exact Hne. eapply sd_cells, HS.
  - intros n c Hn. destruct write_link_cur as (stepscur & Hcur).
    destruct (decide (fst e = n)) as [<- | Hne].
    + exists (stepscur ++ [(fst e, snd e)]). cbn.
      eapply (link_step nbrs start _ _ (fst e) cur (snd e) stepscur cc new);
        try eassumption.
      * apply lookup_insert_eq.
      * apply write_cost_cur.
      * apply lookup_insert_eq.
      * rewrite <- surjective_pairing. exact He.
      * apply write_ge.
    + cbn in Hn. rewrite lookup_insert_ne in Hn by exact Hne.
      destruct (sd_link _ _ _ _ _ _ HS n c Hn) as (steps & Hl).
      eapply (link_update _ _ (fst e) cur (snd e) cc new stepscur n steps);
        try eassumption.
      * exact write_lower.
      * apply write_ge.
      * rewrite <- surjective_pairing. exact He.
  - intros p n Hin. cbn in Hin. apply elem_of_cons in Hin as [[= -> ->] | Hin].
    + cbn. rewrite lookup_insert_eq. eauto.
    + apply write_keeps. eapply sd_frontier; eassumption.
  - intros Hc. cbn in Hc. destruct (decide (fst e = goal)) as [Heq | Hne].
    + eexists. cbn. rewrite <- Heq. apply elem_of_cons. left. reflexivity.
    + rewrite lookup_insert_ne in Hc by exact Hne.
      destruct (sd_goal _ _ _ _ _ _ HS Hc) as (p & Hp).
      exists p. cbn. apply elem_of_cons. right. exact Hp.
Qed.

(** The pair (cells not discovered, sum of the costs in units) goes down. *)
Lemma write_measure :
  lex2 (fst (measure' st')) (fst (measure' st)).
Proof.
  destruct write_edge as [Hcell Hw]. pose proof write_new as Hnew.
  pose proof write_lower as Hlo.
  pose proof (sd_storable _ _ _ _ _ _ HS (fst e)) as Hst.
  unfold lex2, run_measure, undiscovered, cost_ticks. cbn [fst snd].
  destruct (cost_so_far st !! fst e) as [old|] eqn:Ho.
  - assert (Hlt : (ticks den new < ticks den old)%nat).
    { apply (ticks_lt num nbrs cells);
        [exact Hnew | apply Hst; reflexivity | apply Hlo; reflexivity]. }
    right. split.
    + apply sum_cells_ext. intros x Hx. cbn.
      destruct (decide (fst e = x)) as [<- | Hne].
      * rewrite lookup_insert_eq, Ho. reflexivity.
      * rewrite lookup_insert_ne by exact Hne. reflexivity.
    + apply (sum_cells_lt cells _ _ (fst e) Hcell).
      * cbn. rewrite lookup_insert_eq, Ho. exact Hlt.
      * intros x Hx. cbn. destruct (decide (fst e = x)) as [<- | Hne].
        -- rewrite lookup_insert_eq, Ho. lia.
        -- rewrite lookup_insert_ne by exact Hne. lia.
  - left. apply (sum_cells_lt cells _ _ (fst e) Hcell).
    + cbn. rewrite lookup_insert_eq, Ho. lia.
    + intros x Hx. cbn. destruct (decide (fst e = x)) as [<- | Hne].
      * rewrite lookup_insert_eq, Ho. lia.
      * rewrite lookup_insert_ne by exact Hne. lia.
Qed.

Lemma write_closed_but : closed_but' (Some cur) st -> closed_but' (Some cur) st'.
Proof.
  intros HC u Hu. cbn in Hu.
  destruct (decide (fst e = u)) as [<- | Hne].
  - left. eexists. cbn. apply elem_of_cons. left. reflexivity.
  - rewrite lookup_insert_ne in Hu by exact Hne.
    destruct (HC u Hu) as [(p & Hp) | [Hx | Hc]].
    + left. exists p. cbn. apply elem_of_cons. right. exact Hp.
    + right. left. intros e' He'. apply write_keeps, Hx, He'.
    + right. right. exact Hc.
Qed.

End Write.

Lemma relax_in_pass cur done st e :
  in_pass' cur done st -> e ∈ nbrs cur ->
  exists st', relax num heuristic goal cur st e = Return st' /\
    in_pass' cur (e :: done) st' /\
    sgrid st' = sgrid st /\
    (st' = st \/ lex2 (fst (measure' st')) (fst (measure' st))).
Proof.
  intros (HS & [cc Hcc] & HC & Hdone) He.
  unfold relax. rewrite Hcc. cbv zeta.
  destruct (match cost_so_far st !! fst e with
            | Some old => Qltb (py_add num cc (snd e)) old
            | None => true
            end) eqn:Hcond.
  - assert (Hlow : cost_so_far st !! fst e = None \/
             exists old, cost_so_far st !! fst e = Some old /\
                         (py_add num cc (snd e) < old)%Q).
    { destruct (cost_so_far st !! fst e) as [old|]; [|left; reflexivity].
      right. exists old. split; [reflexivity | apply Qltb_lt, Hcond]. }
    eexists. split; [reflexivity|].
    split; [|split; [reflexivity|]].
    + split; [apply write_Sound; assumption|].
      split; [exists cc; apply write_cost_cur; assumption|].
      split; [apply write_closed_but; assumption|].
      intros e' He'. apply elem_of_cons in He' as [-> | He'].
      * cbn. rewrite lookup_insert_eq. eauto.
      * apply write_keeps, Hdone, He'.
    + right. apply write_measure; assumption.
  - exists st. split; [reflexivity|]. split; [|split; [reflexivity | left; reflexivity]].
    split; [exact HS|]. split; [eauto|]. split; [exact HC|].
    intros e' He'. apply elem_of_cons in He' as [-> | He']; [|apply Hdone, He'].
    destruct (cost_so_far st !! fst e) as [old|]; [eauto | discriminate].
Qed.

Lemma relax_all_in_pass cur ns : forall done st,
  in_pass' cur done st -> (forall e, e ∈ ns -> e ∈ nbrs cur) ->
  exists st', relax_all num heuristic goal cur st ns = Return st' /\
    in_pass' cur (rev ns ++ done) st' /\
    sgrid st' = sgrid st /\
    (st' = st \/ lex2 (fst (measure' st')) (fst (measure' st))).
Proof.
  induction ns as [|e ns IH]; intros done st HM Hns.
  - exists st. cbn. auto.
  - destruct (relax_in_pass cur done st e HM (Hns e ltac:(left)))
      as (st1 & H1 & HM1 & Hg1 & Hm1).
    destruct (IH (e :: done) st1 HM1 (fun x Hx => Hns x ltac:(right; exact Hx)))
      as (st' & H2 & HM2 & Hg2 & Hm2).
    exists st'. cbn. rewrite H1. split; [exact H2|].
    split; [rewrite <- app_assoc; exact HM2|].
    split; [congruence|].
    destruct Hm1 as [-> | Hm1]; [exact Hm2|].
    right. destruct Hm2 as [-> | Hm2]; [exact Hm1|].
    eapply lex2_trans; eassumption.
Qed.

(** *** One pass of the loop *)

Lemma pop_in_pass st e rest :
  Sound' st -> closed_but' None st ->
  get (frontier st) = Some (e, rest) -> snd e <> goal ->
  in_pass' (snd e) []
    (mkState rest (came_from st) (cost_so_far st) (addVisited (sgrid st) (snd e))).
Proof.
  intros HS HC Hget Hne.
  destruct (get_Some _ _ _ Hget) as [Hperm _].
  assert (Hin : forall x, x ∈ frontier st <-> x = e \/ x ∈ rest).
  { intros x. rewrite Hperm. apply elem_of_cons. }
  split; [|split; [|split]].
  - constructor; cbn.
    + eapply sd_start, HS.
    + eapply sd_storable, HS.
    + eapply sd_cells, HS.
    + eapply sd_link, HS.
    + intros p n Hp. apply (sd_frontier _ _ _ _ _ _ HS p n). apply Hin. right. exact Hp.
    + intros Hc. destruct (sd_goal _ _ _ _ _ _ HS Hc) as (p & Hp).
      apply Hin in Hp as [<- | Hp]; [cbn in Hne; congruence|]. eauto.
  - cbn. apply (sd_frontier _ _ _ _ _ _ HS (fst e) (snd e)).
    apply Hin. left. symmetry. apply surjective_pairing.
  - intros u Hu. cbn in Hu.
    destruct (HC u Hu) as [(p & Hp) | [Hx | Hc]]; [|right; left; exact Hx | discriminate].
    apply Hin in Hp as [<- | Hp]; [right; right; reflexivity|].
    left. exists p. exact Hp.
  - intros x Hx. inversion Hx.
Qed.

Lemma in_pass_closed cur st :
  in_pass' cur (rev (nbrs cur)) st -> Sound' st /\ closed_but' None st.
Proof.
  intros (HS & Hcc & HC & Hdone). split; [exact HS|].
  intros u Hu. destruct (HC u Hu) as [Ho | [Hr | [= <-]]];
    [left; exact Ho | right; left; exact Hr|].
  right. left. intros e He. apply Hdone.
  apply list_elem_of_In, in_rev, list_elem_of_In.
  rewrite rev_involutive. exact He.
Qed.

(** With an empty frontier every cell a walk from a discovered cell leads
    to is discovered. *)
Lemma empty_frontier_discovered st :
  closed_but' None st -> frontier st = [] ->
  forall u steps t, walk nbrs u steps t ->
  is_Some (cost_so_far st !! u) -> is_Some (cost_so_far st !! t).
Proof.
  intros HC Hemp. induction 1 as [u | u e steps t He Hw IH]; intros Hu; [exact Hu|].
  destruct (HC u Hu) as [(p & Hp) | [Hx | Hc]]; [|apply IH, Hx, He | discriminate].
  rewrite Hemp in Hp. inversion Hp.
Qed.

(** *** The loop *)

Lemma astar_loop_total : forall st,
  Sound' st -> closed_but' None st ->
  (forall c, getNeighbors neighbors_of (sgrid st) c = nbrs c) ->
  exists fuel0, forall fuel, (fuel0 <= fuel)%nat ->
    (astar_loop num neighbors_of heuristic fuel start goal st = Raise NoPathFound /\
     ~ reachable nbrs start goal) \/
    (exists steps g',
       astar_loop num neighbors_of heuristic fuel start goal st = Return g' /\
       getPath g' = path_cells start steps /\
       walk nbrs start steps goal).
Proof.
  intros st. remember (measure' st) as m eqn:Hm. revert st Hm.
  induction m as [m IH] using (well_founded_induction lex3_wf).
  intros st -> HS HC HW.
  destruct (get (frontier st)) as [[e rest]|] eqn:Hget.
  - destruct (decide (snd e = goal)) as [Hgoal | Hne].
    + destruct (get_Some _ _ _ Hget) as [Hperm _].
      destruct (sd_frontier _ _ _ _ _ _ HS (fst e) (snd e)) as (cg & Hcg).
      { rewrite Hperm, <- surjective_pairing. left. }
      rewrite Hgoal in Hcg.
      destruct (sd_link _ _ _ _ _ _ HS goal cg Hcg) as (steps & Hl).
      exists (S (S (length steps))). intros fuel Hf.
      destruct fuel as [|fuel]; [lia|]. right.
      exists steps. eexists. rewrite astar_loop_unfold, Hget. cbv zeta.
      rewrite decide_True by exact Hgoal. cbn [came_from sgrid].
      rewrite (link_reconstruct _ _ _ _ fuel Hl) by lia.
      split; [reflexivity|]. split; [reflexivity|]. eapply link_walk, Hl.
    + pose proof (pop_in_pass st e rest HS HC Hget Hne) as HM.
      destruct (relax_all_in_pass (snd e) (nbrs (snd e)) [] _ HM (fun x Hx => Hx))
        as (st2 & Hrel & HM2 & Hg2 & Hmeas).
      rewrite app_nil_r in HM2. apply in_pass_closed in HM2 as [HS2 HC2].
      destruct (get_Some _ _ _ Hget) as [Hperm _].
      destruct (IH (measure' st2)) with (st := st2) as (fuel0 & Hfuel0);
        [|reflexivity|exact HS2|exact HC2| |].
      * unfold lex3. 
        destruct Hmeas as [-> | Hlt].
        -- right. split; [reflexivity|]. unfold run_measure. cbn [fst snd frontier].
           rewrite Hperm. cbn. lia.
        -- left. exact Hlt.
      * intros c. rewrite Hg2. apply HW.
      * exists (S fuel0). intros fuel Hf. destruct fuel as [|fuel]; [lia|].
        rewrite astar_loop_unfold, Hget. cbv zeta.
        rewrite decide_False by exact Hne.
        change (getNeighbors neighbors_of
                  (sgrid (mkState rest (came_from st) (cost_so_far st)
                                  (addVisited (sgrid st) (snd e)))) (snd e))
          with (getNeighbors neighbors_of (sgrid st) (snd e)).
        rewrite HW, Hrel. apply Hfuel0. lia.
  - exists 1%nat. intros fuel Hf. destruct fuel as [|fuel]; [lia|]. left.
    rewrite astar_loop_unfold, Hget. split; [reflexivity|].
    intros (steps & Hw). apply get_None in Hget.
    pose proof (empty_frontier_discovered st HC Hget start steps goal Hw) as Hg.
    destruct (sd_goal _ _ _ _ _ _ HS) as (p & Hp).
    { apply Hg. rewrite (sd_start _ _ _ _ _ _ HS). eauto. }
    rewrite Hget in Hp. inversion Hp.
Qed.

(** *** The state the loop starts from *)

Lemma init_state_Sound g :
  Sound' (init_state g start) /\ closed_but' None (init_state g start).
Proof.
  split.
  - constructor; cbn.
    + apply lookup_insert_eq.
    + intros n c Hn. apply lookup_insert_Some in Hn as [[_ <-] | [_ Hn]];
        [apply storable_0 | rewrite lookup_empty in Hn; discriminate].
    + intros n c Hn. apply lookup_insert_Some in Hn as [[<- _] | [_ Hn]];
        [apply Hfin | rewrite lookup_empty in Hn; discriminate].
    + intros n c Hn. apply lookup_insert_Some in Hn as [[<- _] | [_ Hn]];
        [eexists; constructor | rewrite lookup_empty in Hn; discriminate].
    + intros p n Hp. apply list_elem_of_singleton in Hp as [= -> ->].
      rewrite lookup_insert_eq. eauto.
    + intros Hc. apply lookup_insert_is_Some in Hc as [<- | [_ Hc]];
        [|rewrite lookup_empty in Hc; destruct Hc; discriminate].
      exists 0%Q. left.
  - intros u Hu. cbn in Hu.
    apply lookup_insert_is_Some in Hu as [<- | [_ Hu]];
      [|rewrite lookup_empty in Hu; destruct Hu; discriminate].
    left. exists 0%Q. cbn. left.
Qed.

End Termination.

(** ** Floats whose sums are exact: the search is the search on ints *)

Lemma Qplus_inject_Z a b : (inject_Z a + inject_Z b)%Q = inject_Z (a + b).
Proof.
  unfold Qplus, inject_Z. cbn [Qnum Qden]. rewrite !Z.mul_1_r. reflexivity.
Qed.

Lemma round_half_even_Z t k : (t == inject_Z k)%Q -> round_half_even t = k.
Proof.
  intros E. unfold round_half_even. cbv zeta.
  assert (Hf : Qfloor t = k) by (rewrite E; apply Qfloor_Z).
  rewrite Hf.
  assert (Hlt : (t - inject_Z k ?= 1 # 2)%Q = Lt).
  { apply Qlt_alt. assert (E0 : (t - inject_Z k == 0)%Q) by (rewrite E; ring).
    rewrite E0. reflexivity. }
  rewrite Hlt. reflexivity.
Qed.

Lemma round_sig_exact X :
  0 <= X -> (2 ^ sig_shift X | X) -> round_sig (inject_Z X) = X.
Proof.
  intros H0 [k Hk]. unfold round_sig. cbv zeta. rewrite Qfloor_Z.
  assert (HP : 0 < 2 ^ sig_shift X).
  { apply Z.pow_pos_nonneg; [lia | apply sig_shift_nonneg]. }
  rewrite (round_half_even_Z _ k); [symmetry; exact Hk|].
  rewrite Hk at 1. rewrite inject_Z_mult. field.
  intros E. apply (Qlt_irrefl 0). rewrite <- E at 2.
  rewrite <- (Zlt_Qlt 0). exact HP.
Qed.

Lemma Qred_inject_Z z : Qred (inject_Z z) = inject_Z z.
Proof.
  unfold Qred, inject_Z.
  pose proof (Z.ggcd_gcd z 1) as Hg.
  pose proof (Z.ggcd_correct_divisors z 1) as Hd.
  destruct (Z.ggcd z 1) as [g [aa bb]]. cbn [fst] in Hg.
  rewrite Z.gcd_1_r in Hg. subst g. destruct Hd as [Ha Hb].
  rewrite Z.mul_1_l in Ha, Hb. subst aa bb. reflexivity.
Qed.

Lemma round64_whole z : 0 <= z < 2 ^ 53 -> round64 (inject_Z z) = inject_Z z.
Proof.
  intros [H0 Hlt]. unfold round64.
  assert (Hle : Qle_bool 0 (inject_Z z) = true).
  { apply Qle_bool_iff. rewrite <- (Zle_Qle 0). exact H0. }
  rewrite Hle.
  assert (E : (inject_Z z * inject_Z (2 ^ 1074))%Q = inject_Z (z * 2 ^ 1074)).
  { unfold Qmult, inject_Z. cbn [Qnum Qden]. reflexivity. }
  rewrite E.
  assert (HS : 0 < 2 ^ 1074) by (apply Z.pow_pos_nonneg; lia).
  assert (Hdiv : (2 ^ sig_shift (z * 2 ^ 1074) | z * 2 ^ 1074)).
  { destruct (Z.eq_dec z 0) as [-> | Hz]; [rewrite Z.mul_0_l; apply Z.divide_0_r|].
    unfold sig_shift. rewrite Z.log2_mul_pow2 by lia.
    assert (Z.log2 z < 53) by (apply Z.log2_lt_pow2; lia).
    pose proof (Z.log2_nonneg z).
    replace (Z.max 0 (1074 + Z.log2 z - 52)) with (1022 + Z.log2 z) by lia.
    exists (z * 2 ^ (52 - Z.log2 z)).
    rewrite <- Z.mul_assoc, <- Z.pow_add_r by lia. do 2 f_equal. lia. }
  rewrite round_sig_exact by (assumption || nia).
  assert (Hmin : Z.min (2 ^ 2098) (z * 2 ^ 1074) = z * 2 ^ 1074).
  { apply Z.min_r. replace 2098 with (1024 + 1074) by lia.
    rewrite Z.pow_add_r by lia. apply Z.mul_le_mono_nonneg_r; [lia|].
    transitivity (2 ^ 53); [lia|]. apply Z.pow_le_mono_r; lia. }
  rewrite Hmin.
  transitivity (Qred (inject_Z z)).
  - apply Qred_complete. rewrite inject_Z_mult. field.
    intros E'. apply (Qlt_irrefl 0). rewrite <- E' at 2.
    rewrite <- (Zlt_Qlt 0). exact HS.
  - apply Qred_inject_Z.
Qed.

Lemma py_add_whole a b :
  0 <= a -> 0 <= b -> a + b < 2 ^ 53 ->
  py_add PyFloat (inject_Z a) (inject_Z b) = py_add PyInt (inject_Z a) (inject_Z b).
Proof.
  intros Ha Hb Hlt. cbn [py_add]. rewrite Qplus_inject_Z.
  apply round64_whole. lia.
Qed.

Lemma map_size_cells (m : gmap Cell Q) (cells : list Cell) :
  (forall n c, m !! n = Some c -> n ∈ cells) -> (size m <= length cells)%nat.
Proof.
  intros H. rewrite <- size_dom. unfold size at 1, set_size. cbn.
  apply submseteq_length, NoDup_submseteq; [apply NoDup_elements|].
  intros x Hx. apply elem_of_elements, elem_of_dom in Hx as [c Hc]. eauto.
Qed.

Section Whole.

Variable neighbors_of : Z -> Z -> list Coord -> Cell -> list (Cell * Q).
Variable nbrs : Cell -> list (Cell * Q).
Variable heuristic : Cell -> Cell -> Q.
Variables start goal : Cell.
Variable cells : list Cell.
Variables W H : Z.

Hypothesis Hfin : finite_grid nbrs start cells.
Hypothesis HW : forall c e, c ∈ cells -> e ∈ nbrs c -> whole_below W (snd e).
Hypothesis HH : forall c, c ∈ cells -> whole_below H (heuristic c goal).
Hypothesis Hsmall : W * Z.of_nat (length cells) + H < 2 ^ 53.

Local Abbreviation whole_costs' := (whole_costs neighbors_of nbrs cells W).

Lemma relax_whole cur st e :
  whole_costs' st ->
  e ∈ nbrs cur ->
  relax PyFloat heuristic goal cur st e = relax PyInt heuristic goal cur st e /\
  forall st', relax PyInt heuristic goal cur st e = Return st' -> whole_costs' st'.
Proof.
  intros [Hg Hc] He. unfold relax. cbv zeta.
  destruct (cost_so_far st !! cur) as [cc|] eqn:Hcur;
    [|split; [reflexivity | discriminate]].
  destruct (Hc _ _ Hcur) as (Hcin & zc & -> & Hzc0 & Hzc).
  destruct (HW _ _ Hcin He) as (zw & Ew & Hzw0 & Hzw).
  destruct Hfin as [_ Hcl]. destruct (Hcl _ _ Hcin He) as [Hnin _].
  destruct (HH _ Hnin) as (zh & Eh & Hzh0 & Hzh).
  pose proof (map_size_cells _ _ (fun n c Hn => proj1 (Hc n c Hn))) as Hsz.
  assert (Hpos : (1 <= size (cost_so_far st))%nat).
  { destruct (decide (size (cost_so_far st) = 0%nat)) as [E0|]; [|lia].
    apply map_size_empty_iff in E0. rewrite E0 in Hcur. rewrite lookup_empty in Hcur.
    discriminate. }
  assert (Hsum : zc + zw <= W * Z.of_nat (size (cost_so_far st))) by nia.
  assert (Hlen : W * Z.of_nat (size (cost_so_far st)) <= W * Z.of_nat (length cells)) by nia.
  rewrite Ew, Eh.
  rewrite (py_add_whole zc zw) by lia.
  cbn [py_add]. rewrite Qplus_inject_Z.
  assert (Hpri : round64 (inject_Z (zc + zw) + inject_Z zh)
                 = (inject_Z (zc + zw) + inject_Z zh)%Q).
  { apply (py_add_whole (zc + zw) zh); lia. }
  rewrite Hpri. split; [reflexivity|].
  intros st' Hst'.
  destruct (cost_so_far st !! fst e) as [old|] eqn:Hold.
  - destruct (Qltb (inject_Z (zc + zw)) old) eqn:Hlt.
    + injection Hst' as <-. split; [exact Hg|]. cbn [cost_so_far].
      rewrite map_size_insert_Some by eauto.
      destruct (Hc _ _ Hold) as (_ & zo & -> & _ & Hzo).
      assert (zc + zw < zo).
      { unfold Qltb in Hlt. destruct (inject_Z (zc + zw) ?= inject_Z zo)%Q eqn:Hcmp;
          try discriminate.
        apply Qlt_alt in Hcmp. rewrite <- Zlt_Qlt in Hcmp. exact Hcmp. }
      intros n c Hn. destruct (decide (n = fst e)) as [-> | Hne].
      * rewrite lookup_insert_eq in Hn. injection Hn as <-.
        split; [exact Hnin|]. exists (zc + zw). split; [reflexivity | lia].
      * rewrite lookup_insert_ne in Hn by congruence. exact (Hc _ _ Hn).
    + injection Hst' as <-. split; assumption.
  - injection Hst' as <-. split; [exact Hg|]. cbn [cost_so_far].
    rewrite map_size_insert_None by exact Hold.
    intros n c Hn. destruct (decide (n = fst e)) as [-> | Hne].
    + rewrite lookup_insert_eq in Hn. injection Hn as <-.
      split; [exact Hnin|]. exists (zc + zw). split; [reflexivity | lia].
    + rewrite lookup_insert_ne in Hn by congruence.
      destruct (Hc _ _ Hn) as (Hin & z & Ez & Hz0 & Hz).
      split; [exact Hin|]. exists z. split; [exact Ez | nia].
Qed.

Lemma relax_all_whole cur ns st :
  whole_costs' st ->
  (forall e, e ∈ ns -> e ∈ nbrs cur) ->
  relax_all PyFloat heuristic goal cur st ns = relax_all PyInt heuristic goal cur st ns /\
  forall st', relax_all PyInt heuristic goal cur st ns = Return st' -> whole_costs' st'.
Proof.
  revert st. induction ns as [|e ns IH]; intros st Hst Hns; cbn [relax_all].
  - split; [reflexivity|]. intros st' E. injection E as <-. exact Hst.
  - destruct (relax_whole cur st e Hst (Hns e ltac:(left))) as [Heq Hkeep].
    rewrite Heq.
    destruct (relax PyInt heuristic goal cur st e) as [st1| |];
      [|split; [reflexivity | discriminate] ..].
    apply IH; [apply Hkeep; reflexivity|].
    intros e' He'. apply Hns. right. exact He'.
Qed.

Lemma astar_loop_whole fuel st :
  whole_costs' st ->
  astar_loop PyFloat neighbors_of heuristic fuel start goal st
  = astar_loop PyInt neighbors_of heuristic fuel start goal st.
Proof.
  revert st. induction fuel as [|fuel IH]; intros st Hst; cbn [astar_loop];
    [reflexivity|].
  destruct (get (frontier st)) as [[e rest]|]; [|reflexivity].
  cbv zeta. case_decide; [reflexivity|].
  cbn [sgrid came_from cost_so_far].
  set (st1 := mkState rest (came_from st) (cost_so_far st)
                      (addVisited (sgrid st) (snd e))).
  assert (Hst1 : whole_costs' st1) by (destruct Hst as [Hg Hc]; split; assumption).
  destruct (relax_all_whole (snd e) (getNeighbors neighbors_of (addVisited (sgrid st) (snd e)) (snd e)) st1 Hst1)
    as [Heq Hkeep].
  { intros e' He'. destruct Hst as [Hg _].
    change (e' ∈ getNeighbors neighbors_of (sgrid st) (snd e)) in He'.
    rewrite Hg in He'. exact He'. }
  rewrite Heq.
  destruct (relax_all PyInt heuristic goal (snd e) st1 _) as [st2| |];
    [|reflexivity ..].
  apply IH, Hkeep. reflexivity.
Qed.

Lemma init_state_whole g :
  (forall c, getNeighbors neighbors_of g c = nbrs c) ->
  whole_costs' (init_state g start).
Proof.
  intros Hg. split; [exact Hg|]. cbn [init_state cost_so_far].
  intros n c Hn. destruct (decide (n = start)) as [-> | Hne].
  - rewrite lookup_insert_eq in Hn. injection Hn as <-.
    split; [apply Hfin|]. exists 0. split; [reflexivity|].
    rewrite map_size_insert_None by apply lookup_empty.
    rewrite map_size_empty. lia.
  - rewrite lookup_insert_ne in Hn by congruence. rewrite lookup_empty in Hn.
    discriminate.
Qed.

End Whole.

(** ** The two outcomes of the search *)

Section AstarOutcome.

Variable neighbors_of : Z -> Z -> list Coord -> Cell -> list (Cell * Q).
Variable heuristic : Cell -> Cell -> Q.


(** C2: on a finite grid without negative weights whose goal cannot be
    reached from the start, the search raises the no-path error once the
    frontier is empty, and with no amount of fuel does it return; this
    holds for exact and for rounded sums. *)
Theorem astar_no_path num g goal rest cells :
  getGoals g = goal :: rest ->
  finite_grid (getNeighbors neighbors_of g) (getStart g) cells ->
  ~ reachable (getNeighbors neighbors_of g) (getStart g) goal ->
  (exists fuel0, forall fuel, (fuel0 <= fuel)%nat ->
     astar num neighbors_of heuristic fuel g = Raise NoPathFound) /\
  (forall fuel g', astar num neighbors_of heuristic fuel g <> Return g').
Proof.
  intros Hgoals Hfin Hno.
  destruct (init_state_Sound num (getNeighbors neighbors_of g) (getStart g)
              goal cells Hfin g) as [HI HS].
  destruct (astar_loop_total num neighbors_of (getNeighbors neighbors_of g) heuristic
              (getStart g) goal cells Hfin _ HI HS (fun c => eq_refl))
    as (fuel0 & Hspec).
  assert (Hraise : forall fuel, (fuel0 <= fuel)%nat ->
            astar num neighbors_of heuristic fuel g = Raise NoPathFound).
  { intros fuel Hf. unfold astar. rewrite Hgoals.
    destruct (Hspec fuel Hf) as [[Hr _] | (steps & g' & _ & _ & Hw)];
      [exact Hr|].
    exfalso. apply Hno. exists steps. exact Hw. }
  split; [exists fuel0; exact Hraise|].
  intros fuel g' Hret.
  pose proof (Hraise (max fuel fuel0) ltac:(lia)) as Hr.
  unfold astar in Hret, Hr. rewrite Hgoals in Hret, Hr.
  rewrite (astar_loop_fuel _ _ _ _ _ _ _ (max fuel fuel0) _ Hret) in Hr
    by (congruence || lia).
  discriminate.
Qed.

End AstarOutcome.

Lemma grid4_weight w h obs c e : e ∈ grid4 w h obs c -> snd e = 1%Q.
Proof.
  unfold grid4. intros H. apply list_elem_of_In, in_map_iff in H as (n & <- & _).
  reflexivity.
Qed.

Lemma grid4_walk_cost w h obs u steps t :
  walk (grid4 w h obs) u steps t -> (0 <= walk_cost steps)%Q.
Proof.
  induction 1 as [u | u e steps t He Hw IH]; cbn [walk_cost fold_right];
    [apply Qle_refl|].
  fold (walk_cost steps). rewrite (grid4_weight _ _ _ _ _ He). lra.
Qed.

(** On the four-connected grid with unit weights the heuristic of the
    module, with the root rounded down, never overestimates. *)
Lemma grid4_step w h obs c e :
  e ∈ grid4 w h obs c ->
  snd e = 1%Q /\
  Z.abs (fst c - fst (fst e)) + Z.abs (snd c - snd (fst e)) = 1.
Proof.
  unfold grid4. intros H. apply list_elem_of_In, in_map_iff in H as (n & <- & Hn).
  split; [reflexivity|]. apply filter_In in Hn as [Hn _]. cbn [fst snd].
  cbn in Hn. destruct c as [x y]. cbn [fst snd] in *.
  destruct Hn as [<- | [<- | [<- | [<- | []]]]]; cbn [fst snd]; lia.
Qed.

Lemma grid4_walk_far w h obs u steps t :
  walk (grid4 w h obs) u steps t ->
  (inject_Z (Z.abs (fst u - fst t) + Z.abs (snd u - snd t)) <= walk_cost steps)%Q.
Proof.
  induction 1 as [u | u e steps t He Hw IH]; cbn [walk_cost fold_right].
  - replace (Z.abs (fst u - fst u) + Z.abs (snd u - snd u)) with 0 by lia.
    apply Qle_refl.
  - fold (walk_cost steps). destruct (grid4_step _ _ _ _ _ He) as [-> Hd].
    eapply Qle_trans; [|apply Qplus_le_r, IH].
    change 1%Q with (inject_Z 1). rewrite <- inject_Z_plus, <- Zle_Qle. lia.
Qed.

Lemma heuristic_floor_le u t :
  (heuristic approx_sqrt u t
   <= inject_Z (Z.abs (fst u - fst t) + Z.abs (snd u - snd t)))%Q.
Proof.
  destruct u as [x y], t as [gx gy]. unfold heuristic, approx_sqrt.
  cbn [fst snd]. rewrite Qfloor_Z, <- Zle_Qle.
  set (b := Z.abs (x - gx) + Z.abs (y - gy)).
  rewrite <- (Z.sqrt_square b) by lia.
  apply Z.sqrt_le_mono. subst b. nia.
Qed.

Lemma grid4_heuristic_admissible g goal :
  admissible (getNeighbors grid4 g) (heuristic approx_sqrt) goal.
Proof.
  intros u steps Hw. eapply Qle_trans; [apply heuristic_floor_le|].
  apply (grid4_walk_far _ _ _ _ _ _ Hw).
Qed.


Lemma astar_no_path_witness :
  (exists fuel0, forall fuel, (fuel0 <= fuel)%nat ->
     astar PyFloat grid4 zero_heuristic fuel walled3x3 = Raise NoPathFound) /\
  (forall fuel g', astar PyFloat grid4 zero_heuristic fuel walled3x3 <> Return g').
Proof.
  assert (Hfin : finite_grid (getNeighbors grid4 walled3x3) (getStart walled3x3)
                   [(0, 0); (0, 1); (0, 2); (1, 0); (1, 1); (2, 0)]).
  { apply finite_grid_check_sound. vm_compute. reflexivity. }
  apply (astar_no_path grid4 zero_heuristic PyFloat walled3x3 (2, 2) []
           [(0, 0); (0, 1); (0, 2); (1, 0); (1, 1); (2, 0)]).
  - reflexivity.
  - exact Hfin.
  - intros (steps & Hw).
    pose proof (walk_in_grid _ _ _ _ _ _ Hfin Hw ltac:(left)) as Hin.
    apply list_elem_of_In in Hin. vm_compute in Hin.
    repeat (destruct Hin as [Hin | Hin]; [discriminate|]). exact Hin.
Defined.

(** ** The scenarios of the spec, run *)

(** Scenario 1: no obstacles, five cells, cost 4. *)
Example scenario1_path :
  res_map getPath (astar PyInt grid4 zero_heuristic 100 grid3x3)
    = Return [(0, 0); (0, 1); (0, 2); (1, 2); (2, 2)].
Proof. vm_compute. reflexivity. Qed.

(** Scenario 2: the path routes around the two obstacles. *)
Example scenario2_path :
  res_map getPath (astar PyInt grid4 zero_heuristic 100 scenario2)
    = Return [(0, 0); (1, 0); (2, 0); (2, 1); (2, 2)].
Proof. vm_compute. reflexivity. Qed.

(** Scenario 3: the goal cell is an obstacle. *)
Example scenario3_no_path :
  astar PyInt grid4 zero_heuristic 100 scenario3 = Raise NoPathFound.
Proof. vm_compute. reflexivity. Qed.

(** The states of the loop used in the examples are those in which the
    behaviour enters its loop, and their paths run along the first axis. *)
Example following_paths :
  cozmoBehavior PyFloat grid4 approx_sqrt approx_atan approx_radians approx_cos
                approx_sin 100 [] row3
    = ([say_text "Game is on"], Return following_row3) /\
  cozmoBehavior PyFloat grid4 approx_sqrt approx_atan approx_radians approx_cos
                approx_sin 100 [] lane10
    = ([say_text "Game is on"], Return following_lane10) /\
  path following_row3 = [(0, 0); (1, 0); (2, 0)] /\
  path following_lane10 = [(0, 0); (1, 0); (2, 0); (3, 0)].
Proof. repeat split; vm_compute; reflexivity. Qed.

(** ** Rounded sums against the binary64 addition of the Standard Library *)

(** [round64] agrees with [SFadd] at precision 53 where the sum is far
    from exact, where it is a tie, where it is exact, at the least
    positive value, and below zero. *)
Example round64_SFadd :
  let add x y := double_value (SFadd 53 1024 x y) in
  let tenth := S754_finite false 0x1999999999999a (-56) in
  let fifth := S754_finite false 0x1999999999999a (-55) in
  let one := S754_finite false 1 0 in
  let big := S754_finite false 1 53 in
  let tiny := S754_finite false 1 (-1074) in
  let third := S754_finite false 0x15555555555555 (-54) in
  let minus_tenth := S754_finite true 0x1999999999999a (-56) in
  let minus_fifth := S754_finite true 0x1999999999999a (-55) in
  (add tenth fifth == round64 (double_value tenth + double_value fifth))%Q /\
  (add one big == round64 (double_value one + double_value big))%Q /\
  (add one one == round64 (double_value one + double_value one))%Q /\
  (add third big == round64 (double_value third + double_value big))%Q /\
  (add third tenth == round64 (double_value third + double_value tenth))%Q /\
  (add tiny tiny == round64 (double_value tiny + double_value tiny))%Q /\
  (add tiny one == round64 (double_value tiny + double_value one))%Q /\
  (add minus_tenth minus_fifth
   == round64 (double_value minus_tenth + double_value minus_fifth))%Q /\
  (add minus_tenth third
   == round64 (double_value minus_tenth + double_value third))%Q /\
  (round64 (1 + inject_Z (2 ^ 53)) == inject_Z (2 ^ 53))%Q /\
  (round64 (3 + inject_Z (2 ^ 53)) == inject_Z (2 ^ 53) + 4)%Q.
Proof.
  cbv zeta. repeat (split; [apply Qeq_bool_eq; vm_compute; reflexivity|]).
  apply Qeq_bool_eq; vm_compute; reflexivity.
Qed.

Lemma detour_walk_cost w h obs u steps t :
  walk (detour w h obs) u steps t -> (0 <= walk_cost steps)%Q.
Proof.
  induction 1 as [u | u e steps t He Hw IH]; cbn [walk_cost fold_right];
    [apply Qle_refl|].
  fold (walk_cost steps).
  assert (0 <= snd e)%Q; [|lra].
  unfold detour in He. repeat case_decide.
  - apply elem_of_cons in He as [-> | He]; [cbn; lra|].
    apply list_elem_of_singleton in He as ->. cbn. lra.
  - apply list_elem_of_singleton in He as ->. cbn. lra.
  - inversion He.
Qed.

Lemma lopsided_walk_cost w h obs u steps t :
  walk (lopsided w h obs) u steps t -> (0 <= walk_cost steps)%Q.
Proof.
  induction 1 as [u | u e steps t He Hw IH]; cbn [walk_cost fold_right];
    [apply Qle_refl|].
  fold (walk_cost steps).
  assert (0 <= snd e)%Q; [|lra].
  unfold lopsided in He. repeat case_decide.
  - apply elem_of_cons in He as [-> | He]; [cbn; lra|].
    apply list_elem_of_singleton in He as ->. cbn. lra.
  - apply list_elem_of_singleton in He as ->. apply Qle_bool_imp_le. reflexivity.
  - apply list_elem_of_singleton in He as ->. apply Qle_bool_imp_le. reflexivity.
  - inversion He.
Qed.


(** * Properties beyond the claims *)

(** ** astar, whatever the weights and the heuristic *)

Section LinkedFacts.

Variable num : Number.
Variable neighbors_of : Z -> Z -> list Coord -> Cell -> list (Cell * Q).
Variable heuristic : Cell -> Cell -> Q.
Variable nbrs : Cell -> list (Cell * Q).
Variables start goal : Cell.

Local Abbreviation Linked' := (Linked nbrs start).

Lemma init_state_Linked g : Linked' (init_state g start).
Proof.
  constructor; cbn.
  - intros p n Hp. apply list_elem_of_singleton in Hp as [= -> ->].
    rewrite lookup_insert_eq. eauto.
  - intros n [c Hn]. apply lookup_insert_Some in Hn as [[<- _] | [_ Hn]];
      [rewrite lookup_insert_eq; eauto | rewrite lookup_empty in Hn; discriminate].
  - intros n v Hn. apply lookup_insert_Some in Hn as [[<- <-] | [_ Hn]];
      [left; auto | rewrite lookup_empty in Hn; discriminate].
  - intros n [c Hn]. apply lookup_insert_Some in Hn as [[<- _] | [_ Hn]];
      [exists []; constructor | rewrite lookup_empty in Hn; discriminate].
Qed.

Lemma reachable_step u e :
  reachable nbrs start u -> e ∈ nbrs u -> reachable nbrs start (fst e).
Proof.
  intros [steps Hw] He. exists (steps ++ [e]). eapply walk_snoc; eassumption.
Qed.

Lemma relax_Linked cur st e st' :
  Linked' st -> is_Some (cost_so_far st !! cur) -> e ∈ nbrs cur ->
  relax num heuristic goal cur st e = Return st' ->
  Linked' st' /\ is_Some (cost_so_far st' !! cur) /\ sgrid st' = sgrid st.
Proof.
  intros HL Hcur He H.
  apply relax_cases in H as (cc & Hcc & [[-> _] | [-> _]]); [auto|].
  split; [|split; [|reflexivity]].
  2:{ cbn. rewrite lookup_insert. case_decide; eauto. }
  assert (Hmono : forall n, is_Some (cost_so_far st !! n) ->
            is_Some (<[fst e := py_add num cc (snd e)]> (cost_so_far st) !! n)).
  { intros n Hn. rewrite lookup_insert. case_decide; eauto. }
  constructor; cbn [frontier came_from cost_so_far put].
  - intros p n Hp. apply elem_of_cons in Hp as [[= -> ->] | Hp].
    + rewrite lookup_insert_eq. eauto.
    + eapply Hmono, lk_frontier; eassumption.
  - intros n Hn. rewrite lookup_insert in Hn. rewrite lookup_insert.
    case_decide; [eauto|].
    eapply lk_dom; eassumption.
  - intros n v Hn. rewrite lookup_insert in Hn. case_decide as Hd.
    + injection Hn as <-. subst n. right. exists cur, (snd e).
      split; [reflexivity|]. split; [rewrite <- surjective_pairing; exact He|].
      apply Hmono. eauto.
    + destruct (lk_pred _ _ _ HL n v Hn) as [Hs | (p & w & -> & Hw & Hp)];
        [left; exact Hs|].
      right. exists p, w. auto.
  - intros n Hn. rewrite lookup_insert in Hn. case_decide as Hd.
    + subst n. eapply reachable_step; [|exact He].
      eapply lk_reach; eauto.
    + eapply lk_reach; eassumption.
Qed.

Lemma relax_no_KeyError cur st e :
  is_Some (cost_so_far st !! cur) ->
  exists st', relax num heuristic goal cur st e = Return st'.
Proof.
  intros [cc Hcc]. unfold relax. rewrite Hcc.
  destruct (match cost_so_far st !! fst e with
            | Some old => Qltb (py_add num cc (snd e)) old
            | None => true
            end); eauto.
Qed.

Lemma relax_all_Linked cur ns : forall st,
  Linked' st -> is_Some (cost_so_far st !! cur) ->
  (forall e, e ∈ ns -> e ∈ nbrs cur) ->
  exists st', relax_all num heuristic goal cur st ns = Return st' /\
              Linked' st' /\ sgrid st' = sgrid st.
Proof.
  induction ns as [|e ns IH]; intros st HL Hcur Hns; [exists st; auto|].
  destruct (relax_no_KeyError cur st e Hcur) as (st1 & H1).
  destruct (relax_Linked cur st e st1 HL Hcur (Hns e ltac:(left)) H1)
    as (HL1 & Hcur1 & Hg1).
  destruct (IH st1 HL1 Hcur1 (fun x Hx => Hns x ltac:(right; exact Hx)))
    as (st' & H2 & HL' & Hg').
  exists st'. cbn. rewrite H1. split; [exact H2|]. split; [exact HL' | congruence].
Qed.

(** Following the predecessors back from a cell with a cost never
    misses a key. *)
Lemma reconstruct_no_KeyError st fuel : forall c path e,
  Linked' st -> is_Some (came_from st !! c) ->
  reconstruct_loop fuel (came_from st) start (Some c) path <> Raise e.
Proof.
  induction fuel as [|fuel IH]; intros c path e HL Hc; [discriminate|].
  cbn. case_decide; [discriminate|].
  destruct Hc as [v Hv]. rewrite Hv.
  destruct (lk_pred _ _ _ HL c v Hv) as [[_ ->] | (p & w & -> & _ & Hp)];
    [congruence|].
  apply IH; [exact HL|]. eapply lk_dom; eassumption.
Qed.

Lemma hits_walk st m l : forall cur,
  Linked' st -> hits (came_from st) start cur m l ->
  exists c steps, cur = Some c /\ walk nbrs start steps c /\ map fst steps = rev l.
Proof.
  intros cur HL. induction 1 as [|c prev m l Hc Hl H IH].
  - exists start, []. repeat split. constructor.
  - destruct (lk_pred _ _ _ HL c prev Hl) as [[_ ->] | (p & w & -> & Hw & _)];
      [congruence|].
    destruct IH as (c' & steps & [= <-] & Hwalk & Hmap).
    exists c, (steps ++ [(c, w)]). split; [reflexivity|]. split.
    + apply (walk_snoc nbrs start steps p (c, w) Hwalk Hw).
    + rewrite map_app, Hmap. reflexivity.
Qed.

(** The loop: its only exception is the one it raises itself, a returned
    path is a walk of the grid from the start to the goal, the visited
    trace grows by cells that can be reached from the start, and the rest
    of the grid is left alone. *)
Lemma astar_loop_Linked fuel : forall st,
  Linked' st ->
  (forall c, getNeighbors neighbors_of (sgrid st) c = nbrs c) ->
  match astar_loop num neighbors_of heuristic fuel start goal st with
  | Return g' =>
      same_world (sgrid st) g' /\
      visited (sgrid st) ⊆ visited g' /\
      (forall c, c ∈ visited g' ->
         c ∈ visited (sgrid st) \/ reachable nbrs start c) /\
      exists steps, getPath g' = path_cells start steps /\
                    walk nbrs start steps goal
  | Raise e => e = NoPathFound
  | OutOfFuel => True
  end.
Proof.
  induction fuel as [|fuel IH]; intros st HL HW; [exact I|].
  rewrite astar_loop_unfold.
  destruct (get (frontier st)) as [[e rest]|] eqn:Hget; [|reflexivity].
  destruct (get_Some _ _ _ Hget) as [Hperm _].
  assert (Hcur : is_Some (cost_so_far st !! snd e)).
  { apply (lk_frontier _ _ _ HL (fst e)). rewrite Hperm, <- surjective_pairing. left. }
  cbv zeta. case_decide as Hgoal.
  - cbn [came_from sgrid].
    destruct (reconstruct_path fuel (came_from st) start goal) as [p|ex|] eqn:Hp;
      [| |exact I].
    + apply reconstruct_loop_hits in Hp as (m & l & Hh & ->).
      destruct (hits_walk st m l _ HL Hh) as (c & steps & [= <-] & Hwalk & Hmap).
      split; [repeat split|].
      split; [intros x Hx; cbn; apply elem_of_union_r; exact Hx|]. split.
      * intros c Hc. cbn in Hc. apply elem_of_union in Hc as [Hc | Hc]; [|left; exact Hc].
        apply elem_of_singleton in Hc as ->. right. rewrite Hgoal.
        exists steps. exact Hwalk.
      * exists steps. split; [|exact Hwalk]. cbn.
        rewrite rev_app_distr. cbn. unfold path_cells. rewrite Hmap. reflexivity.
    + exfalso. unfold reconstruct_path in Hp.
      eapply (reconstruct_no_KeyError st fuel goal [] ex HL); [|exact Hp].
      rewrite <- Hgoal. eapply lk_dom; eassumption.
  - set (st1 := mkState rest (came_from st) (cost_so_far st)
                        (addVisited (sgrid st) (snd e))).
    assert (HL1 : Linked' st1).
    { constructor; cbn; try apply HL.
      intros p n Hp. apply (lk_frontier _ _ _ HL p). rewrite Hperm. right. exact Hp. }
    change (getNeighbors neighbors_of (sgrid st1) (snd e))
      with (getNeighbors neighbors_of (sgrid st) (snd e)).
    rewrite HW.
    destruct (relax_all_Linked (snd e) (nbrs (snd e)) st1 HL1 Hcur (fun x Hx => Hx))
      as (st2 & Hrel & HL2 & Hg2).
    rewrite Hrel. specialize (IH st2 HL2).
    rewrite Hg2 in IH. specialize (IH HW).
    destruct (astar_loop num neighbors_of heuristic fuel start goal st2) as [g'|ex|];
      [|exact IH|exact I].
    destruct IH as (Hsame & Hvis & Hreach & Hpath).
    split; [exact Hsame|].
    split; [intros x Hx; apply Hvis; cbn; apply elem_of_union_r; exact Hx|].
    split; [|exact Hpath].
    intros c Hc. destruct (Hreach c Hc) as [Hin | Hr]; [|right; exact Hr].
    cbn in Hin. apply elem_of_union in Hin as [Hin | Hin]; [|left; exact Hin].
    apply elem_of_singleton in Hin as ->. right.
    apply (lk_reach _ _ _ HL _ Hcur).
Qed.

End LinkedFacts.

Lemma astar_Linked num neighbors_of heuristic fuel g :
  match astar num neighbors_of heuristic fuel g with
  | Return g' =>
      same_world g g' /\ visited g ⊆ visited g' /\
      (forall c, c ∈ visited g' ->
         c ∈ visited g \/ reachable (getNeighbors neighbors_of g) (getStart g) c) /\
      exists goal rest steps,
        getGoals g = goal :: rest /\
        getPath g' = path_cells (getStart g) steps /\
        walk (getNeighbors neighbors_of g) (getStart g) steps goal
  | Raise e =>
      (e = IndexError /\ getGoals g = []) \/ (e = NoPathFound /\ getGoals g <> [])
  | OutOfFuel => getGoals g <> []
  end.
Proof.
  unfold astar. destruct (getGoals g) as [|goal rest] eqn:Hg; [left; auto|].
  pose proof (astar_loop_Linked num neighbors_of heuristic (getNeighbors neighbors_of g)
                (getStart g) goal fuel (init_state g (getStart g))
                (init_state_Linked _ _ g) (fun c => eq_refl)) as H.
  destruct (astar_loop _ _ _ _ _ _ _) as [g'|e|]; [| right; split; [exact H | discriminate] | discriminate].
  destruct H as (Hs & Hv & Hr & steps & Hp & Hw).
  split; [exact Hs|]. split; [exact Hv|]. split; [exact Hr|].
  exists goal, rest, steps. auto.
Qed.

(** ** reconstruct_path: what it returns, and when it does not *)

Section ReconstructMore.

Variable cf : gmap Cell (option Cell).
Variable start : Cell.

Lemma hits_not_start cur m l x : hits cf start cur m l -> x ∈ l -> x <> start.
Proof.
  intros H Hx. destruct (hits_elem cf start _ _ _ H x Hx) as (k & l' & Hk & Hle & _).
  intros ->. inversion Hk; subst; [lia | congruence].
Qed.

Lemma hits_head cur m l : hits cf start cur m l -> cur = Some (hd start l).
Proof. destruct 1; reflexivity. Qed.

(** Read from the goal, each cell is followed by its recorded
    predecessor. *)
Lemma hits_next cur m l :
  hits cf start cur m l ->
  forall q1 b a q2, l ++ [start] = q1 ++ b :: a :: q2 ->
    cf !! b = Some (Some a).
Proof.
  induction 1 as [|c prev m l Hc Hl H IH]; intros q1 b a q2 Heq.
  - destruct q1 as [|? [|]]; discriminate.
  - destruct q1 as [|x q1]; cbn in Heq.
    + injection Heq as <- Heq. rewrite Hl, (hits_head _ _ _ H).
      destruct l; cbn in Heq; injection Heq as <- _; reflexivity.
    + injection Heq as _ Heq. eapply IH, Heq.
Qed.

(** In the path read from the start, each cell is the recorded
    predecessor of the next. *)
Lemma hits_adjacent cur m l :
  hits cf start cur m l ->
  forall q1 a b q2, start :: rev l = q1 ++ a :: b :: q2 ->
    cf !! b = Some (Some a).
Proof.
  intros H q1 a b q2 Heq.
  apply (hits_next _ _ _ H (rev q2) b a (rev q1)).
  apply (f_equal (@rev Cell)) in Heq. cbn in Heq.
  rewrite rev_involutive, rev_app_distr in Heq. cbn in Heq.
  rewrite <- !app_assoc in Heq. exact Heq.
Qed.

Lemma reconstruct_loop_raises fuel : forall cur path e,
  reconstruct_loop fuel cf start cur path = Raise e -> e = KeyError.
Proof.
  induction fuel as [|fuel IH]; intros cur path e H; [discriminate|].
  cbn in H. case_decide; [discriminate|].
  destruct cur as [c|]; [|congruence].
  destruct (cf !! c); [eapply IH, H | congruence].
Qed.

(** While the fuel runs out the loop is on cells of the map other than
    the start. *)
Lemma out_of_fuel_chain fuel : forall cur path,
  reconstruct_loop fuel cf start cur path = OutOfFuel ->
  forall k, (k < fuel)%nat ->
    exists c, pred_iter cf k cur = Some (Some c) /\ c <> start /\ is_Some (cf !! c).
Proof.
  induction fuel as [|fuel IH]; intros cur path H k Hk; [lia|].
  cbn in H. case_decide as Hs; [discriminate|].
  destruct cur as [c|]; [|discriminate].
  destruct (cf !! c) as [prev|] eqn:Hl; [|discriminate].
  destruct k as [|k].
  - exists c. cbn. split; [reflexivity|]. split; [congruence | rewrite Hl; eauto].
  - cbn. rewrite Hl. apply (IH _ _ H). lia.
Qed.

Lemma pred_iter_add a : forall b cur,
  pred_iter cf (a + b) cur =
    match pred_iter cf a cur with
    | Some x => pred_iter cf b x
    | None => None
    end.
Proof.
  induction a as [|a IH]; intros b cur; [reflexivity|].
  cbn. destruct cur as [c|]; [|reflexivity].
  destruct (cf !! c); [apply IH | reflexivity].
Qed.

(** A loop that has run for more steps than the map has cells has met a
    cell twice, and so runs for ever. *)
Lemma long_chain_endless fuel cur :
  (size cf < fuel)%nat ->
  (forall k, (k < fuel)%nat ->
     exists c, pred_iter cf k cur = Some (Some c) /\ c <> start /\ is_Some (cf !! c)) ->
  forall n, exists c, pred_iter cf n cur = Some (Some c) /\ c <> start.
Proof.
  intros Hsize Hch.
  set (at_step := fun k => match pred_iter cf k cur with
                           | Some (Some c) => c
                           | _ => start
                           end).
  set (l := map at_step (seq 0 fuel)).
  assert (Hnd : ~ NoDup l).
  { intros Hnd. assert (length l <= size cf)%nat; [|subst l; rewrite length_map, length_seq in *; lia].
    rewrite <- size_dom. unfold size, set_size. cbn.
    apply submseteq_length, NoDup_submseteq; [exact Hnd|].
    intros x Hx. apply list_elem_of_In, in_map_iff in Hx as (k & <- & Hk).
    apply in_seq in Hk. destruct (Hch k ltac:(lia)) as (c & Hc & _ & Hs).
    unfold at_step. rewrite Hc. apply elem_of_elements, elem_of_dom, Hs. }
  rewrite NoDup_ListNoDup in Hnd.
  apply not_NoDup in Hnd as (a & l1 & l2 & l3 & Hl);
    [|intros x y; destruct (decide (x = y)); [left | right]; assumption].
  set (i := length l1). set (j := (length l1 + S (length l2))%nat).
  assert (Hlen : length l = fuel) by (subst l; rewrite length_map, length_seq; reflexivity).
  assert (Hj : (j < fuel)%nat).
  { rewrite <- Hlen, Hl. subst j. rewrite !length_app. cbn. rewrite length_app. cbn. lia. }
  assert (Hi : nth i l start = a).
  { rewrite Hl. subst i. rewrite app_nth2 by lia. rewrite Nat.sub_diag. reflexivity. }
  assert (Hja : nth j l start = a).
  { rewrite Hl. subst j. rewrite app_nth2 by lia.
    replace (length l1 + S (length l2) - length l1)%nat with (S (length l2)) by lia.
    cbn. rewrite app_nth2 by lia. rewrite Nat.sub_diag. reflexivity. }
  assert (Hat : forall k, (k < fuel)%nat -> nth k l start = at_step k).
  { intros k Hk. subst l.
    rewrite (nth_indep _ start (at_step 0%nat)) by (rewrite length_map, length_seq; exact Hk).
    rewrite map_nth, seq_nth by exact Hk. reflexivity. }
  assert (Hsame : pred_iter cf i cur = pred_iter cf j cur).
  { destruct (Hch i ltac:(subst i j; lia)) as (ci & Hci & _).
    destruct (Hch j Hj) as (cj & Hcj & _).
    pose proof (Hat i ltac:(subst i j; lia)) as Ei.
    pose proof (Hat j Hj) as Ej. unfold at_step in Ei, Ej.
    rewrite Hci in Ei. rewrite Hcj in Ej. congruence. }
  induction n as [n IHn] using lt_wf_ind.
  destruct (le_lt_dec fuel n) as [Hge | Hlt].
  - destruct (IHn (n - j + i)%nat ltac:(subst i j; lia)) as (c & Hc & Hne).
    exists c. split; [|exact Hne].
    replace n with (j + (n - j))%nat by lia.
    rewrite pred_iter_add, <- Hsame, <- pred_iter_add.
    replace (i + (n - j))%nat with (n - j + i)%nat by lia. exact Hc.
  - destruct (Hch n Hlt) as (c & Hc & Hne & _). eauto.
Qed.

End ReconstructMore.

(** ** heuristic and rotate_point *)

Lemma py_range_elem lo hi step x r :
  0 < step -> lo <= x < hi -> (step | x - lo) ->
  py_range lo hi step = Some r -> In x r.
Proof.
  intros Hs Hx [k Hk]. unfold py_range.
  destruct (step =? 0) eqn:E; [apply Z.eqb_eq in E; lia|].
  destruct (0 <? step) eqn:E'; [|apply Z.ltb_ge in E'; lia].
  intros [= <-]. apply in_map_iff. exists (Z.to_nat k).
  assert (0 <= k) by nia.
  split; [rewrite Z2Nat.id by lia; lia|].
  assert (k + 1 <= (hi - lo + step - 1) / step)
    by (apply Z.div_le_lower_bound; nia).
  apply in_seq. lia.
Qed.

Lemma py_range_negative lo hi step :
  step < 0 -> lo <= hi -> py_range lo hi step = Some [].
Proof.
  intros Hs Hle. unfold py_range.
  destruct (step =? 0) eqn:E; [apply Z.eqb_eq in E; lia|].
  destruct (0 <? step) eqn:E'; [apply Z.ltb_lt in E'; lia|].
  assert ((lo - hi - step - 1) / - step <= 0).
  { apply Z.lt_succ_r, Z.div_lt_upper_bound; lia. }
  replace (Z.to_nat ((lo - hi - step - 1) / - step)) with 0%nat by lia.
  reflexivity.
Qed.

Lemma coord_eqb_refl c : coord_eqb c c = true.
Proof.
  unfold coord_eqb. apply andb_true_intro.
  split; apply Qeq_bool_iff; reflexivity.
Qed.

Lemma add_coord_keeps c l c' :
  existsb (coord_eqb c) l = true -> existsb (coord_eqb c) (add_coord l c') = true.
Proof.
  intros H. unfold add_coord. destruct (existsb (coord_eqb c') l); [exact H|].
  rewrite existsb_app, H. reflexivity.
Qed.

Lemma add_coord_has l c : existsb (coord_eqb c) (add_coord l c) = true.
Proof.
  unfold add_coord. destruct (existsb (coord_eqb c) l) eqn:E; [exact E|].
  rewrite existsb_app. cbn. rewrite coord_eqb_refl, orb_true_r. reflexivity.
Qed.

Lemma fold_add_coord_keeps c cs : forall l,
  existsb (coord_eqb c) l = true ->
  existsb (coord_eqb c) (fold_left add_coord cs l) = true.
Proof.
  induction cs as [|c' cs IH]; intros l H; [exact H|].
  cbn. apply IH, add_coord_keeps, H.
Qed.

Lemma fold_add_coord_has c cs : forall l,
  In c cs -> existsb (coord_eqb c) (fold_left add_coord cs l) = true.
Proof.
  induction cs as [|c' cs IH]; intros l H; [inversion H|].
  cbn. destruct H as [-> | H]; [apply fold_add_coord_keeps, add_coord_has | apply IH, H].
Qed.

Lemma add_coord_prefix l c : exists more, add_coord l c = l ++ more.
Proof.
  unfold add_coord. destruct (existsb _ _); [exists []; rewrite app_nil_r | eexists]; reflexivity.
Qed.

Lemma fold_add_coord_prefix cs : forall l,
  exists more, fold_left add_coord cs l = l ++ more.
Proof.
  induction cs as [|c cs IH]; intros l; [exists []; rewrite app_nil_r; reflexivity|].
  cbn. destruct (add_coord_prefix l c) as (m1 & ->).
  destruct (IH (l ++ m1)) as (m2 & ->). exists (m1 ++ m2). rewrite app_assoc. reflexivity.
Qed.

Lemma addObstacle_more g c : more_obstacles g (addObstacle g c).
Proof.
  unfold more_obstacles. rewrite addObstacle_obstacles.
  unfold addObstacle, add_coord. destruct (existsb _ _); cbn; repeat split;
    [exists []; rewrite app_nil_r | eexists]; reflexivity.
Qed.

Lemma more_obstacles_refl g : more_obstacles g g.
Proof. repeat split. exists []. rewrite app_nil_r. reflexivity. Qed.

Lemma more_obstacles_trans g1 g2 g3 :
  more_obstacles g1 g2 -> more_obstacles g2 g3 -> more_obstacles g1 g3.
Proof.
  intros (?&?&?&?&?&?&?&m1&Hm1) (?&?&?&?&?&?&?&m2&Hm2).
  repeat split; try congruence. exists (m1 ++ m2). rewrite Hm2, Hm1, app_assoc. reflexivity.
Qed.

Lemma fold_addObstacle_more cs : forall g, more_obstacles g (fold_left addObstacle cs g).
Proof.
  induction cs as [|c cs IH]; intros g; [apply more_obstacles_refl|].
  cbn. eapply more_obstacles_trans; [apply addObstacle_more | apply IH].
Qed.

Section ProjectionMore.

Variables math_sqrt math_radians math_cos math_sin : Q -> Q.


(** X9: the estimate is the same in both directions, depends on the
    differences of the coordinates only, and is [math.sqrt(0)] from a cell
    to itself. *)
Theorem heuristic_symmetric (a b d : Cell) :
  heuristic math_sqrt a b = heuristic math_sqrt b a /\
  heuristic math_sqrt (fst a + fst d, snd a + snd d) (fst b + fst d, snd b + snd d)
    = heuristic math_sqrt a b /\
  heuristic math_sqrt a a = math_sqrt 0%Q.
Proof.
  destruct a as [ax ay], b as [bx by_], d as [dx dy]. unfold heuristic. cbn.
  split; [|split].
  - do 2 f_equal; ring.
  - do 2 f_equal; ring.
  - replace ((ax - ax) ^ 2 + (ay - ay) ^ 2) with 0 by ring. reflexivity.
Qed.

Lemma add_obstacle_Return g cube g' :
  add_obstacle math_radians math_cos math_sin g cube = Return g' ->
  exists r, py_range (-50) 51 (scale g) = Some r /\
    g' = fold_left addObstacle
           (obstacle_coords math_radians math_cos math_sin (scale g) cube r) g.
Proof.
  unfold add_obstacle. cbv zeta.
  change (py_range (- (50)) (50 + 1) (scale g)) with (py_range (-50) 51 (scale g)).
  destruct (py_range (-50) 51 (scale g)) as [r|]; [|discriminate].
  intros [= <-]. eauto.
Qed.

Lemma add_obstacle_more g cube g' :
  add_obstacle math_radians math_cos math_sin g cube = Return g' ->
  more_obstacles g g'.
Proof.
  intros H. apply add_obstacle_Return in H as (r & _ & ->).
  apply fold_addObstacle_more.
Qed.

(** X11: registering a cube changes the obstacle set only, and only by
    adding to it: the other fields of the grid and the obstacles it had
    stay, and every coordinate of the footprint is an obstacle
    afterwards. *)
Theorem add_obstacle_grows g cube g' :
  add_obstacle math_radians math_cos math_sin g cube = Return g' ->
  more_obstacles g g' /\
  exists r, py_range (-50) 51 (scale g) = Some r /\
    forall c, In c (obstacle_coords math_radians math_cos math_sin (scale g) cube r) ->
      existsb (coord_eqb c) (obstacles g') = true.
Proof.
  intros H. split; [eapply add_obstacle_more, H|].
  apply add_obstacle_Return in H as (r & Hr & ->).
  exists r. split; [exact Hr|]. intros c Hc.
  rewrite fold_addObstacle_obstacles. apply fold_add_coord_has, Hc.
Qed.

(** X12: with scale 0 the range of the footprint raises its ValueError
    and nothing is registered; no other exception is raised; with a
    negative scale the range is empty and the grid is returned as it
    was. *)
Theorem add_obstacle_scale_edges g cube :
  (scale g = 0 -> add_obstacle math_radians math_cos math_sin g cube = Raise RangeStepZero) /\
  (scale g < 0 -> add_obstacle math_radians math_cos math_sin g cube = Return g) /\
  (forall e, add_obstacle math_radians math_cos math_sin g cube = Raise e -> e = RangeStepZero /\ scale g = 0).
Proof.
  unfold add_obstacle. cbv zeta.
  change (py_range (- (50)) (50 + 1) (scale g)) with (py_range (-50) 51 (scale g)). split; [|split].
  - intros ->. reflexivity.
  - intros Hs. rewrite py_range_negative by lia. reflexivity.
  - intros e. unfold py_range. destruct (scale g =? 0) eqn:E; [|discriminate].
    apply Z.eqb_eq in E. intros [= <-]. auto.
Qed.

(** X13: when the scale is positive and divides 50, the coordinate that
    [get_goal] computes is one of those [add_obstacle] has registered, so
    after [add_obstacle] the call of [get_goal] on the same cube leaves
    the grid as it is. *)
Theorem get_goal_after_add_obstacle g cube g1 :
  0 < scale g -> (scale g | 50) ->
  add_obstacle math_radians math_cos math_sin g cube = Return g1 ->
  get_goal math_radians math_cos math_sin g1 cube = Return g1.
Proof.
  intros Hs Hd H.
  destruct (add_obstacle_more g cube g1 H) as (_ & _ & Hsc & _).
  apply add_obstacle_Return in H as (r & Hr & Hg1).
  unfold get_goal. rewrite Hsc.
  destruct (scale g =? 0) eqn:E; [apply Z.eqb_eq in E; lia|].
  f_equal. unfold addObstacle.
  replace (existsb (coord_eqb (goal_coord math_radians math_cos math_sin (scale g) cube))
                   (obstacles g1)) with true; [reflexivity|].
  symmetry. rewrite Hg1, fold_addObstacle_obstacles. apply fold_add_coord_has.
  unfold obstacle_coords. apply in_flat_map. exists 0. split.
  - apply (py_range_elem (-50) 51 (scale g) 0 r Hs); [lia | | exact Hr].
    replace (0 - -50) with 50 by lia. exact Hd.
  - apply in_map_iff. exists (-50). split; [reflexivity|].
    apply (py_range_elem (-50) 51 (scale g) (-50) r Hs); [lia | | exact Hr].
    replace (-50 - -50) with 0 by lia. apply Z.divide_0_r.
Qed.

End ProjectionMore.

Lemma grows_refl g : grows g g.
Proof. repeat split; [exists []; rewrite app_nil_r; reflexivity | reflexivity]. Qed.

Lemma grows_trans g1 g2 g3 : grows g1 g2 -> grows g2 g3 -> grows g1 g3.
Proof.
  intros (?&?&?&?&?&(m1&Hm1)&?) (?&?&?&?&?&(m2&Hm2)&?).
  repeat split; try congruence.
  - exists (m1 ++ m2). rewrite Hm2, Hm1, app_assoc. reflexivity.
  - etransitivity; eassumption.
Qed.

Lemma more_obstacles_grows g g' : more_obstacles g g' -> grows g g'.
Proof.
  intros (?&?&?&?&?&Hv&?&Hm). repeat split; try assumption. rewrite Hv. reflexivity.
Qed.

Lemma bind_inv {A B} (m : M A) (f : A -> M B) cmds r :
  bind m f = (cmds, r) ->
  (exists a, snd m = Return a /\ cmds = fst m ++ fst (f a) /\ r = snd (f a)) \/
  (exists e, snd m = Raise e /\ cmds = fst m /\ r = Raise e) \/
  (snd m = OutOfFuel /\ cmds = fst m /\ r = OutOfFuel).
Proof.
  unfold bind. destruct (snd m) as [a|e|]; intros [= <- <-]; eauto 10.
Qed.

Ltac raised_pass :=
  intros [= <- <-]; split; [repeat constructor; discriminate|];
  split; [repeat constructor; cbn; tauto | exact I].

Section BehaviorMore.

Variable num : Number.
Variable neighbors_of : Z -> Z -> list Coord -> Cell -> list (Cell * Q).
Variables math_sqrt math_atan math_radians math_cos math_sin : Q -> Q.

Local Abbreviation astar' := (astar num neighbors_of (heuristic math_sqrt)).
Local Abbreviation observe' :=
  (observe num neighbors_of math_sqrt math_radians math_cos math_sin).
Local Abbreviation loop_body' :=
  (loop_body num neighbors_of math_sqrt math_atan math_radians math_cos math_sin).
Local Abbreviation run_loop' :=
  (run_loop num neighbors_of math_sqrt math_atan math_radians math_cos math_sin).

Lemma astar_planned fuel g g' b :
  astar' fuel g = Return g' ->
  planned (mkLoop g' 0 (getPath g') b) /\ grows g g'.
Proof.
  intros H. pose proof (astar_Linked num neighbors_of (heuristic math_sqrt) fuel g) as HL.
  rewrite H in HL. destruct HL as ((?&?&?&?&?&Ho) & Hv & _ & goal & rest & steps & _ & Hp & _).
  split.
  - split; [reflexivity|]. split; [reflexivity|]. cbn. rewrite Hp. discriminate.
  - repeat split; try assumption. exists []. rewrite app_nil_r. exact Ho.
Qed.

(** What a pass does up to the new search. *)
Lemma observe_spec fuel observed st cmds r :
  observe' fuel observed st = (cmds, r) ->
  Forall quiet cmds /\ Forall (fun c => ~ is_move c) cmds /\
  match r with
  | Return st1 => (planned st -> planned st1) /\ grows (grid st) (grid st1)
  | _ => True
  end.
Proof.
  destruct observed as [cube|].
  2:{ rewrite observe_nothing. intros [= <- <-].
      split; [repeat constructor; discriminate|].
      split; [repeat constructor; cbn; tauto|]. split; [auto | apply grows_refl]. }
  unfold observe, search_cube, bind, emit, ret, lift. cbn [fst snd app].
  destruct (add_obstacle _ _ _ (grid st) cube) as [g1| |] eqn:H1;
    cbn [fst snd app]; [|raised_pass..].
  apply add_obstacle_more, more_obstacles_grows in H1. rename H1 into Hm1.
  destruct (cube_id cube); cbn [fst snd app].
  - destruct (get_goal _ _ _ g1 cube) as [g2| |] eqn:H2;
      cbn [fst snd app]; [|raised_pass..].
    apply get_goal_inv in H2.
    pose proof (addObstacle_more g1
      (goal_coord math_radians math_cos math_sin (scale g1) cube)) as Hm2.
    rewrite <- H2 in Hm2. apply more_obstacles_grows in Hm2.
    destruct (astar _ _ _ _ g2) as [g3| |] eqn:H3; cbn [fst snd app]; [|raised_pass..].
    destruct (astar_planned fuel g2 g3 true H3) as [Hp Hg].
    intros [= <- <-]. split; [repeat constructor; discriminate|].
    split; [repeat constructor; cbn; tauto|].
    split; [intros _; exact Hp|]. cbn.
    eapply grows_trans; [exact Hm1|]. eapply grows_trans; eassumption.
  - destruct (astar _ _ _ _ g1) as [g3| |] eqn:H3; cbn [fst snd app]; [|raised_pass..].
    destruct (astar_planned fuel g1 g3 (found_goal st) H3) as [Hp Hg].
    intros [= <- <-]. split; [repeat constructor; discriminate|].
    split; [repeat constructor; cbn; tauto|].
    split; [intros _; exact Hp|]. cbn. eapply grows_trans; eassumption.
  - destruct (astar _ _ _ _ g1) as [g3| |] eqn:H3; cbn [fst snd app]; [|raised_pass..].
    destruct (astar_planned fuel g1 g3 (found_goal st) H3) as [Hp Hg].
    intros [= <- <-]. split; [repeat constructor; discriminate|].
    split; [repeat constructor; cbn; tauto|].
    split; [intros _; exact Hp|]. cbn. eapply grows_trans; eassumption.
Qed.

Lemma arrival_planned st : planned st -> arrival st = ret (Next st).
Proof.
  intros (_ & Hi & Hne). unfold arrival. rewrite Hi.
  destruct (path st); [congruence | reflexivity].
Qed.

Lemma arrival_spec st cmds r :
  arrival st = (cmds, r) ->
  Forall (fun c => ~ is_move c) cmds /\ (r = Return (Next st) \/ r = Return (Break st)).
Proof.
  unfold arrival. destruct (_ <=? _)%nat; [destruct (negb _)|];
    intros [= <- <-]; (split; [repeat constructor; cbn; tauto | auto]).
Qed.

(** The three ways [follow] ends: no waypoint to go to, a pose that
    cannot be built, or one move. *)
Lemma follow_spec st cmds r :
  follow math_atan st = (cmds, r) ->
  (cmds = [] /\ (r = Raise IndexError \/ r = Raise TypeError)) \/
  (exists pose, cmds = [go_to_pose pose] /\ r = Return st).
Proof.
  unfold follow.
  destruct (getPath (grid st) !! path_index st) as [cur|];
    [|intros [= <- <-]; left; auto].
  destruct (getPath (grid st) !! (path_index st + 1)%nat) as [nxt|];
    [|intros [= <- <-]; left; auto].
  cbv zeta. destruct ((fst nxt - fst cur) * scale (grid st) =? 0);
    intros [= <- <-]; [left; auto | right; eauto].
Qed.

(** X14: a pass issues at most one move; it is the last command, and only a
    pass that ends normally, without [break], issues it. *)
Theorem loop_body_one_move fuel observed st cmds r :
  loop_body num neighbors_of math_sqrt math_atan math_radians math_cos math_sin
            fuel observed st = (cmds, r) ->
  exists pre mv, cmds = pre ++ mv /\ Forall (fun c => ~ is_move c) pre /\
    (mv = [] \/
     exists pose st', mv = [go_to_pose pose] /\ r = Return (Next st')).
Proof.
  intros H. unfold loop_body in H.
  destruct (observe' fuel observed st) as [c1 r1] eqn:Ho.
  destruct (observe_spec _ _ _ _ _ Ho) as (_ & Hm1 & _).
  apply bind_inv in H as [(st1 & Hr1 & -> & ->) | [(e & _ & -> & ->) | (_ & -> & ->)]];
    cbn [fst snd] in *.
  2,3: exists c1, []; rewrite app_nil_r; auto.
  destruct (arrival st1) as [c2 r2] eqn:Ha.
  destruct (arrival_spec _ _ _ Ha) as (Hm2 & Hfl).
  destruct (bind (c2, r2) _) as [c3 r3] eqn:Hb. cbn [fst snd].
  apply bind_inv in Hb as [(fl & Hr2 & -> & ->) | [(e & Hr2 & _) | (Hr2 & _)]];
    cbn [fst snd] in *; [|destruct Hfl; congruence..].
  assert (Hpre : Forall (fun c => ~ is_move c) (c1 ++ c2)) by (apply Forall_app; auto).
  destruct Hfl as [-> | ->]; injection Hr2 as <-.
  - destruct (follow math_atan st1) as [c4 r4] eqn:Hf.
    destruct (follow_spec _ _ _ Hf) as [[-> [-> | ->]] | (pose & -> & ->)].
    + exists (c1 ++ c2), []. unfold bind, ret. cbn [fst snd].
      rewrite !app_nil_r. auto.
    + exists (c1 ++ c2), []. unfold bind, ret. cbn [fst snd].
      rewrite !app_nil_r. auto.
    + exists (c1 ++ c2), [go_to_pose pose]. unfold bind, ret. cbn [fst snd].
      rewrite app_nil_r, app_assoc. split; [reflexivity|]. split; [exact Hpre|].
      right. eauto 10.
  - exists (c1 ++ c2), []. unfold ret. cbn [fst snd]. rewrite !app_nil_r. auto.
Qed.

Lemma loop_body_planned fuel observed st cmds r :
  planned st ->
  loop_body' fuel observed st = (cmds, r) ->
  Forall quiet cmds /\
  match r with
  | Return (Next st') => planned st' /\ grows (grid st) (grid st')
  | Return (Break _) => False
  | _ => True
  end.
Proof.
  intros Hpl H. unfold loop_body in H.
  destruct (observe' fuel observed st) as [c1 r1] eqn:Ho.
  destruct (observe_spec _ _ _ _ _ Ho) as (Hq1 & _ & Hst1).
  apply bind_inv in H as [(st1 & Hr1 & -> & ->) | [(e & _ & -> & ->) | (_ & -> & ->)]];
    cbn [fst snd] in *; [|auto..].
  subst r1. destruct Hst1 as [Hp1 Hg1]. specialize (Hp1 Hpl).
  rewrite (arrival_planned st1 Hp1). unfold bind, ret. cbn [fst snd app].
  destruct (follow math_atan st1) as [c4 r4] eqn:Hf.
  destruct (follow_spec _ _ _ Hf) as [[-> [-> | ->]] | (pose & -> & ->)];
    cbn [fst snd app].
  - rewrite app_nil_r. auto.
  - rewrite app_nil_r. auto.
  - split; [|auto]. apply Forall_app. split; [exact Hq1|]. repeat constructor.
Qed.

Lemma run_loop_planned fuel observations : forall st cmds r,
  planned st ->
  run_loop' fuel observations st = (cmds, r) ->
  Forall quiet cmds /\
  match r with
  | Return st' => planned st' /\ grows (grid st) (grid st')
  | _ => True
  end.
Proof.
  induction observations as [|observed rest IH]; intros st cmds r Hpl H.
  - injection H as <- <-. split; [constructor|]. split; [exact Hpl | apply grows_refl].
  - cbn [run_loop] in H.
    destruct (loop_body' fuel observed st) as [c1 r1] eqn:Hb.
    destruct (loop_body_planned _ _ _ _ _ Hpl Hb) as (Hq1 & Hr1).
    apply bind_inv in H as [(fl & Hfl & -> & ->) | [(e & _ & -> & ->) | (_ & -> & ->)]];
      cbn [fst snd] in *; [|auto..].
    subst r1. destruct fl as [st1|st1]; [|contradiction].
    destruct Hr1 as [Hp1 Hg1].
    destruct (run_loop' fuel rest st1) as [c2 r2] eqn:Hrun.
    destruct (IH _ _ _ Hp1 Hrun) as (Hq2 & Hr2). cbn [fst snd].
    split; [apply Forall_app; auto|].
    destruct r2 as [st2| |]; [|exact I..].
    destruct Hr2 as [Hp2 Hg2]. split; [exact Hp2 | eapply grows_trans; eassumption].
Qed.

Lemma cozmoBehavior_spec fuel observations g cmds r :
  cozmoBehavior num neighbors_of math_sqrt math_atan math_radians math_cos math_sin
                fuel observations g = (cmds, r) ->
  Forall quiet cmds /\
  match r with
  | Return st => planned st /\ grows g (grid st)
  | _ => True
  end.
Proof.
  unfold cozmoBehavior, bind at 1, lift. cbn [fst snd app].
  destruct (astar' fuel g) as [g1| |] eqn:Ha; [|intros [= <- <-]; auto..].
  destruct (astar_planned fuel g g1 false Ha) as [Hp Hg].
  unfold bind at 1, emit. cbn [fst snd app].
  destruct (run_loop' fuel observations _) as [c2 r2] eqn:Hrun.
  destruct (run_loop_planned _ _ _ _ _ Hp Hrun) as (Hq & Hr).
  cbn [fst snd]. intros [= <- <-].
  split; [constructor; [discriminate | exact Hq]|].
  destruct r2 as [st| |]; [|exact I..].
  destruct Hr as [Hp2 Hg2]. split; [exact Hp2 | eapply grows_trans; eassumption].
Qed.

(** X15: no run of the behaviour announces the arrival or turns in place,
    and the path index is 0 whenever a run ends. *)
Theorem cozmoBehavior_never_arrives fuel observations g cmds r :
  cozmoBehavior num neighbors_of math_sqrt math_atan math_radians math_cos math_sin
                fuel observations g = (cmds, r) ->
  Forall quiet cmds /\
  forall st, r = Return st -> path_index st = 0%nat /\ path st <> [].
Proof.
  intros H. destruct (cozmoBehavior_spec _ _ _ _ _ H) as [Hq Hr].
  split; [exact Hq|]. intros st ->. destruct Hr as [(_ & Hi & Hne) _]. auto.
Qed.

(** X16: a run leaves the bounds, the scale, the start and the goals of the
    grid as they were, and takes no obstacle and no visited cell away. *)
Theorem cozmoBehavior_grid_grows fuel observations g cmds st :
  cozmoBehavior num neighbors_of math_sqrt math_atan math_radians math_cos math_sin
                fuel observations g = (cmds, Return st) ->
  grows g (grid st).
Proof.
  intros H. destruct (cozmoBehavior_spec _ _ _ _ _ H) as [_ [_ Hg]]. exact Hg.
Qed.

(** X5: when the start is the first goal, the search returns at once with
    the one-cell path. *)
Theorem astar_start_is_goal heuristic fuel g rest :
  getGoals g = getStart g :: rest ->
  astar num neighbors_of heuristic (S (S fuel)) g =
    Return (setPath (addVisited g (getStart g)) [getStart g]).
Proof.
  intros Hg. unfold astar. rewrite Hg. rewrite astar_loop_unfold. cbn [init_state frontier get put].
  cbv zeta. cbn [snd]. rewrite decide_True by reflexivity.
  cbn [came_from sgrid]. unfold reconstruct_path. cbn [reconstruct_loop].
  rewrite decide_True by reflexivity. reflexivity.
Qed.

(** X17: with the robot on the goal the first pass without a sighting
    raises IndexError before any move. *)
Theorem cozmoBehavior_on_goal fuel rest observations g :
  getGoals g = getStart g :: rest ->
  cozmoBehavior num neighbors_of math_sqrt math_atan math_radians math_cos math_sin
                (S (S fuel)) (None :: observations) g =
    ([say_text "Game is on"; say_text "searching"], Raise IndexError).
Proof.
  intros Hg. unfold cozmoBehavior, astar. rewrite Hg, astar_loop_unfold.
  cbn [init_state frontier get put]. cbv zeta. cbn [snd].
  rewrite decide_True by reflexivity.
  cbn [came_from sgrid]. unfold reconstruct_path. cbn [reconstruct_loop].
  rewrite decide_True by reflexivity. reflexivity.
Qed.

End BehaviorMore.

(** ** astar: further properties *)

(** X1: whatever the weights and the heuristic, a path that the search
    stores is a walk of the grid: it starts at the start cell, each step is
    an edge that the neighbour query gives, and it ends at the first goal. *)
Theorem astar_returns_walk num neighbors_of heuristic fuel g g' :
  astar num neighbors_of heuristic fuel g = Return g' ->
  exists goal rest steps,
    getGoals g = goal :: rest /\
    getPath g' = path_cells (getStart g) steps /\
    walk (getNeighbors neighbors_of g) (getStart g) steps goal.
Proof.
  intros H. pose proof (astar_Linked num neighbors_of heuristic fuel g) as HL.
  rewrite H in HL. destruct HL as (_ & _ & _ & Hp). exact Hp.
Qed.

(** X2: the search writes the path and adds to the visited trace, and
    nothing else: bounds, scale, start, goals and obstacles of the grid are
    what they were, no visited cell is lost, and every cell it adds to the
    trace can be reached from the start. *)
Theorem astar_changes_trace_and_path num neighbors_of heuristic fuel g g' :
  astar num neighbors_of heuristic fuel g = Return g' ->
  same_world g g' /\
  visited g ⊆ visited g' /\
  forall c, c ∈ visited g' ->
    c ∈ visited g \/ reachable (getNeighbors neighbors_of g) (getStart g) c.
Proof.
  intros H. pose proof (astar_Linked num neighbors_of heuristic fuel g) as HL.
  rewrite H in HL. destruct HL as (Hs & Hv & Hr & _). auto.
Qed.

(** X3: the search raises IndexError on a grid without goals, and on a
    grid with a goal the only exception it raises is the no-path error:
    no dictionary lookup of the search or of the reconstruction misses
    its key. *)
Theorem astar_exceptions num neighbors_of heuristic fuel g :
  (getGoals g = [] -> astar num neighbors_of heuristic fuel g = Raise IndexError) /\
  (forall e, astar num neighbors_of heuristic fuel g = Raise e ->
     (e = IndexError /\ getGoals g = []) \/
     (e = NoPathFound /\ getGoals g <> [])).
Proof.
  split.
  - intros Hg. unfold astar. rewrite Hg. reflexivity.
  - intros e H. pose proof (astar_Linked num neighbors_of heuristic fuel g) as HL.
    rewrite H in HL. exact HL.
Qed.

(** X4: on a finite grid without negative weights the search decides
    reachability whatever the heuristic is: it returns, given enough fuel,
    exactly when the first goal can be reached from the start, and raises
    the no-path error exactly when it cannot. *)
Theorem astar_finds_iff_reachable num neighbors_of heuristic g goal rest cells :
  getGoals g = goal :: rest ->
  finite_grid (getNeighbors neighbors_of g) (getStart g) cells ->
  (reachable (getNeighbors neighbors_of g) (getStart g) goal <->
   exists fuel g', astar num neighbors_of heuristic fuel g = Return g') /\
  (~ reachable (getNeighbors neighbors_of g) (getStart g) goal <->
   exists fuel, astar num neighbors_of heuristic fuel g = Raise NoPathFound).
Proof.
  intros Hgoals Hfin.
  destruct (init_state_Sound num (getNeighbors neighbors_of g) (getStart g)
              goal cells Hfin g) as [HI HS].
  destruct (astar_loop_total num neighbors_of (getNeighbors neighbors_of g) heuristic
              (getStart g) goal cells Hfin _ HI HS (fun c => eq_refl))
    as (fuel0 & Hspec).
  assert (Hret : forall fuel g', astar num neighbors_of heuristic fuel g = Return g' ->
            reachable (getNeighbors neighbors_of g) (getStart g) goal).
  { intros fuel g' H.
    pose proof (astar_Linked num neighbors_of heuristic fuel g) as HL.
    rewrite H in HL. destruct HL as (_ & _ & _ & goal' & rest' & steps & Hg & _ & Hw).
    exists steps. congruence. }
  assert (Hat : forall fuel, astar num neighbors_of heuristic fuel g =
            astar_loop num neighbors_of heuristic fuel (getStart g) goal
                       (init_state g (getStart g))).
  { intros fuel. unfold astar. rewrite Hgoals. reflexivity. }
  split; split.
  - intros Hr. exists fuel0. rewrite Hat.
    destruct (Hspec fuel0 (Nat.le_refl _)) as [[_ Hno] | (steps & g' & H & _)];
      [contradiction | eauto].
  - intros (fuel & g' & H). eapply Hret, H.
  - intros Hno. exists fuel0. rewrite Hat.
    destruct (Hspec fuel0 (Nat.le_refl _)) as [[H _] | (steps & g' & _ & _ & Hw)];
      [exact H|].
    exfalso. apply Hno. exists steps. exact Hw.
  - intros (fuel & H) Hr. rewrite Hat in H.
    pose proof (astar_loop_fuel _ _ _ _ _ _ _ (max fuel fuel0) _ H
                  ltac:(discriminate) ltac:(lia)) as H'.
    destruct (Hspec (max fuel fuel0) ltac:(lia)) as [[_ Hno] | (steps & g' & H2 & _)];
      [contradiction | congruence].
Qed.

(** ** reconstruct_path: further properties *)

(** X6: a path that the reconstruction returns starts at the start cell,
    ends at the goal, holds no cell twice, has at most one cell more than
    the predecessor map has keys, and each of its cells is the recorded
    predecessor of the next. *)
Theorem reconstruct_path_returned cf start goal fuel p :
  reconstruct_path fuel cf start goal = Return p ->
  head p = Some start /\ last p = Some goal /\ NoDup p /\
  (length p <= S (size cf))%nat /\
  forall q1 a b q2, p = q1 ++ a :: b :: q2 -> cf !! b = Some (Some a).
Proof.
  intros H. destruct (reconstruct_path_ends _ _ _ _ _ H) as [Hh Hl].
  apply reconstruct_loop_hits in H as (m & l & Hh' & ->). cbn [app] in *.
  rewrite rev_app_distr in *. cbn [rev app] in *.
  split; [exact Hh|]. split; [exact Hl|]. split; [|split].
  - constructor.
    + intros Hin. apply list_elem_of_In, in_rev, list_elem_of_In in Hin.
      exact (hits_not_start _ _ _ _ _ _ Hh' Hin eq_refl).
    + apply NoDup_ListNoDup, NoDup_rev, NoDup_ListNoDup. eapply hits_NoDup, Hh'.
  - cbn. rewrite length_rev, (hits_length _ _ _ _ _ Hh').
    pose proof (hits_bound _ _ _ _ _ Hh'). lia.
  - eapply hits_adjacent, Hh'.
Qed.

Lemma reconstruct_loop_leaves cf start fuel : forall cur path e,
  reconstruct_loop fuel cf start cur path = Raise e ->
  e = KeyError /\
  exists n, (n < fuel)%nat /\
    (forall k, (k < n)%nat ->
       exists c, pred_iter cf k cur = Some (Some c) /\ c <> start /\
                 is_Some (cf !! c)) /\
    (pred_iter cf n cur = Some None \/
     exists c, pred_iter cf n cur = Some (Some c) /\ c <> start /\
               cf !! c = None).
Proof.
  induction fuel as [|fuel IH]; intros cur path e H; [discriminate|].
  cbn in H. case_decide as Hs; [discriminate|].
  destruct cur as [c|].
  - destruct (cf !! c) as [prev|] eqn:Hl.
    + destruct (IH _ _ _ H) as (-> & n & Hlt & Hbefore & Hn).
      split; [reflexivity|]. exists (S n). split; [lia|]. split.
      * intros [|k] Hk.
        -- exists c. cbn. split; [reflexivity|].
           split; [congruence | rewrite Hl; eauto].
        -- cbn. rewrite Hl. apply Hbefore. lia.
      * cbn. rewrite Hl. exact Hn.
    + injection H as <-. split; [reflexivity|]. exists 0%nat.
      split; [lia|]. split; [intros k Hk; lia|]. right.
      exists c. cbn. split; [reflexivity|]. split; [congruence | exact Hl].
  - injection H as <-. split; [reflexivity|]. exists 0%nat.
    split; [lia|]. split; [intros k Hk; lia|]. left. reflexivity.
Qed.

(** X7: the only exception of the reconstruction is KeyError, and it is
    raised where the chain of predecessors from the goal leaves the map
    before it has reached the start: the loop tests cells that are keys of
    the map and differ from the start, and then comes to a cell that is
    no key, or to the [None] stored for one of those cells. *)
Theorem reconstruct_path_raises cf start goal fuel e :
  reconstruct_path fuel cf start goal = Raise e ->
  e = KeyError /\
  exists n, (n < fuel)%nat /\
    (forall k, (k < n)%nat ->
       exists c, pred_iter cf k (Some goal) = Some (Some c) /\ c <> start /\
                 is_Some (cf !! c)) /\
    (pred_iter cf n (Some goal) = Some None \/
     exists c, pred_iter cf n (Some goal) = Some (Some c) /\ c <> start /\
               cf !! c = None).
Proof. apply reconstruct_loop_leaves. Qed.

(** X8: the reconstruction is decided after one more test of the loop
    than the predecessor map has keys: if it has not ended by then, it
    never ends. *)
Theorem reconstruct_path_decided cf start goal fuel :
  (size cf < fuel)%nat ->
  reconstruct_path fuel cf start goal = OutOfFuel ->
  never_returns cf start goal.
Proof.
  intros Hf H fuel'. apply endless_chain_runs.
  apply (long_chain_endless cf start fuel (Some goal) Hf).
  eapply out_of_fuel_chain, H.
Qed.

(** ** The properties above at concrete inputs *)

Lemma astar_returns_walk_witness :
  exists g',
    astar PyFloat grid4 zero_heuristic 100 grid3x3 = Return g' /\
    exists goal rest steps,
      getGoals grid3x3 = goal :: rest /\
      getPath g' = path_cells (getStart grid3x3) steps /\
      walk (getNeighbors grid4 grid3x3) (getStart grid3x3) steps goal.
Proof.
  eexists. split; [vm_compute; reflexivity|].
  apply (astar_returns_walk PyFloat grid4 zero_heuristic 100 grid3x3).
  vm_compute. reflexivity.
Defined.

Lemma astar_changes_trace_and_path_witness :
  exists g',
    astar PyFloat grid4 zero_heuristic 100 grid3x3 = Return g' /\
    (same_world grid3x3 g' /\
     visited grid3x3 ⊆ visited g' /\
     forall c, c ∈ visited g' ->
       c ∈ visited grid3x3 \/
       reachable (getNeighbors grid4 grid3x3) (getStart grid3x3) c).
Proof.
  eexists. split; [vm_compute; reflexivity|].
  apply (astar_changes_trace_and_path PyFloat grid4 zero_heuristic 100 grid3x3).
  vm_compute. reflexivity.
Defined.

Lemma astar_exceptions_witness :
  astar PyFloat grid4 zero_heuristic 100 scenario3 = Raise NoPathFound /\
  ((NoPathFound = IndexError /\ getGoals scenario3 = []) \/
   (NoPathFound = NoPathFound /\ getGoals scenario3 <> [])).
Proof.
  split; [vm_compute; reflexivity|].
  apply (proj2 (astar_exceptions PyFloat grid4 zero_heuristic 100 scenario3)).
  vm_compute. reflexivity.
Defined.

Lemma astar_finds_iff_reachable_witness :
  (reachable (getNeighbors grid4 grid3x3) (getStart grid3x3) (2, 2) <->
   exists fuel g', astar PyFloat grid4 zero_heuristic fuel grid3x3 = Return g') /\
  (~ reachable (getNeighbors grid4 grid3x3) (getStart grid3x3) (2, 2) <->
   exists fuel, astar PyFloat grid4 zero_heuristic fuel grid3x3 = Raise NoPathFound).
Proof.
  apply (astar_finds_iff_reachable PyFloat grid4 zero_heuristic grid3x3 (2, 2) []
           [(0, 0); (0, 1); (0, 2); (1, 0); (1, 1); (1, 2); (2, 0); (2, 1); (2, 2)]).
  - reflexivity.
  - apply finite_grid_check_sound. vm_compute. reflexivity.
Defined.

Lemma astar_start_is_goal_witness :
  getGoals on_goal3x3 = getStart on_goal3x3 :: [] /\
  astar PyFloat grid4 zero_heuristic 2 on_goal3x3 =
    Return (setPath (addVisited on_goal3x3 (getStart on_goal3x3))
                    [getStart on_goal3x3]).
Proof.
  split; [reflexivity|].
  apply (astar_start_is_goal PyFloat grid4 zero_heuristic 0 on_goal3x3 []).
  reflexivity.
Defined.

Lemma reconstruct_path_returned_witness :
  reconstruct_path 5 straight_map (0, 0) (0, 2) = Return [(0, 0); (0, 1); (0, 2)] /\
  (head [(0, 0); (0, 1); (0, 2)] = Some (0, 0) /\
   last [(0, 0); (0, 1); (0, 2)] = Some (0, 2) /\
   NoDup [(0, 0); (0, 1); (0, 2)] /\
   (length [(0, 0); (0, 1); (0, 2)] <= S (size straight_map))%nat /\
   forall q1 a b q2, [(0, 0); (0, 1); (0, 2)] = q1 ++ a :: b :: q2 ->
     straight_map !! b = Some (Some a)).
Proof.
  split; [reflexivity|].
  apply (reconstruct_path_returned straight_map (0, 0) (0, 2) 5). reflexivity.
Defined.

(** On [broken_map] the loop tests [(0, 2)] and [(0, 1)], and [(0, 1)] is
    no key. *)
Lemma reconstruct_path_raises_witness :
  reconstruct_path 5 broken_map (0, 0) (0, 2) = Raise KeyError /\
  pred_iter broken_map 1 (Some (0, 2)) = Some (Some (0, 1)) /\
  broken_map !! (0, 1) = None /\
  (KeyError = KeyError /\
   exists n, (n < 5)%nat /\
     (forall k, (k < n)%nat ->
        exists c, pred_iter broken_map k (Some (0, 2)) = Some (Some c) /\
                  c <> (0, 0) /\ is_Some (broken_map !! c)) /\
     (pred_iter broken_map n (Some (0, 2)) = Some None \/
      exists c, pred_iter broken_map n (Some (0, 2)) = Some (Some c) /\
                c <> (0, 0) /\ broken_map !! c = None)).
Proof.
  split; [reflexivity|]. split; [reflexivity|]. split; [reflexivity|].
  apply (reconstruct_path_raises broken_map (0, 0) (0, 2) 5). reflexivity.
Defined.

Lemma reconstruct_path_decided_witness :
  (size cyclic_map < 3)%nat /\
  reconstruct_path 3 cyclic_map (0, 0) (1, 1) = OutOfFuel /\
  never_returns cyclic_map (0, 0) (1, 1).
Proof.
  assert (H1 : (size cyclic_map < 3)%nat) by (vm_compute; lia).
  assert (H2 : reconstruct_path 3 cyclic_map (0, 0) (1, 1) = OutOfFuel)
    by (vm_compute; reflexivity).
  split; [exact H1|]. split; [exact H2|].
  exact (reconstruct_path_decided cyclic_map (0, 0) (1, 1) 3 H1 H2).
Defined.

Lemma add_obstacle_grows_witness :
  exists g',
    add_obstacle approx_radians approx_cos approx_sin grid10 corner_cube = Return g' /\
    (more_obstacles grid10 g' /\
     exists r, py_range (-50) 51 (scale grid10) = Some r /\
       forall c, In c (obstacle_coords approx_radians approx_cos approx_sin
                                       (scale grid10) corner_cube r) ->
         existsb (coord_eqb c) (obstacles g') = true).
Proof.
  eexists. split; [vm_compute; reflexivity|].
  apply (add_obstacle_grows approx_radians approx_cos approx_sin grid10 corner_cube).
  vm_compute. reflexivity.
Defined.

Lemma get_goal_after_add_obstacle_witness :
  exists g1,
    0 < scale grid10 /\ (scale grid10 | 50) /\
    add_obstacle approx_radians approx_cos approx_sin grid10 marker_cube = Return g1 /\
    get_goal approx_radians approx_cos approx_sin g1 marker_cube = Return g1.
Proof.
  eexists. split; [reflexivity|]. split; [exists 2; reflexivity|].
  split; [vm_compute; reflexivity|].
  apply (get_goal_after_add_obstacle approx_radians approx_cos approx_sin
           grid10 marker_cube);
    [reflexivity | exists 2; reflexivity | vm_compute; reflexivity].
Defined.

(** The pass below registers a cube, searches again, and ends with the
    one move of the pass. *)
Lemma loop_body_one_move_witness :
  exists cmds st',
    loop_body PyFloat grid4 approx_sqrt approx_atan approx_radians approx_cos
              approx_sin 100 (Some corner_cube) following_lane10
      = (cmds, Return (Next st')) /\
    last cmds = Some (go_to_pose (mkPose 25 25 0 (7074237752028440 # 9007199254740992))) /\
    exists pre mv, cmds = pre ++ mv /\ Forall (fun c => ~ is_move c) pre /\
      (mv = [] \/
       exists pose st'', mv = [go_to_pose pose] /\
                         Return (Next st') = Return (Next st'')).
Proof.
  eexists. eexists. split; [vm_compute; reflexivity|].
  split; [vm_compute; reflexivity|].
  apply (loop_body_one_move PyFloat grid4 approx_sqrt approx_atan approx_radians
           approx_cos approx_sin 100 (Some corner_cube) following_lane10).
  vm_compute. reflexivity.
Defined.

(** The run below makes two passes, the second with a sighting, moves in
    each and ends normally. *)
Lemma cozmoBehavior_never_arrives_witness :
  exists cmds st,
    cozmoBehavior PyFloat grid4 approx_sqrt approx_atan approx_radians approx_cos
                  approx_sin 100 [None; Some corner_cube] lane10
      = (cmds, Return st) /\
    (Forall quiet cmds /\
     forall st', Return st = Return st' ->
       path_index st' = 0%nat /\ path st' <> []).
Proof.
  eexists. eexists. split; [vm_compute; reflexivity|].
  apply (cozmoBehavior_never_arrives PyFloat grid4 approx_sqrt approx_atan
           approx_radians approx_cos approx_sin 100 [None; Some corner_cube] lane10).
  vm_compute. reflexivity.
Defined.

Lemma cozmoBehavior_grid_grows_witness :
  exists cmds st,
    cozmoBehavior PyFloat grid4 approx_sqrt approx_atan approx_radians approx_cos
                  approx_sin 100 [None; Some corner_cube] lane10
      = (cmds, Return st) /\
    length (obstacles (grid st)) = 25%nat /\
    grows lane10 (grid st).
Proof.
  eexists. eexists. split; [vm_compute; reflexivity|].
  split; [vm_compute; reflexivity|].
  eapply (cozmoBehavior_grid_grows PyFloat grid4 approx_sqrt approx_atan
            approx_radians approx_cos approx_sin 100 [None; Some corner_cube] lane10).
  vm_compute. reflexivity.
Defined.

Lemma cozmoBehavior_on_goal_witness :
  getGoals on_goal3x3 = getStart on_goal3x3 :: [] /\
  cozmoBehavior PyFloat grid4 approx_sqrt approx_atan approx_radians approx_cos
                approx_sin 2 [None] on_goal3x3 =
    ([say_text "Game is on"; say_text "searching"], Raise IndexError).
Proof.
  split; [reflexivity|].
  apply (cozmoBehavior_on_goal PyFloat grid4 approx_sqrt approx_atan approx_radians
           approx_cos approx_sin 0 [] [] on_goal3x3). reflexivity.
Defined.
